(** * active-galaxy: the 3D scene engine of [axee-visuals-3d]

    A shallow embedding of the visualisation component
    (class [AxeeVisuals3D]) and of the entity fragment program
    ([ai-entity-shader.ts]), followed by the properties of the scene
    registry, the orbit and camera simulation, the hover logic, the
    teardown sequence and the state-dependent colouring.

    JavaScript numbers are embedded as real numbers ([R]); array indices
    and object identities are natural numbers; strings are [string]. *)

From Stdlib Require Import Reals Lra Lia List String Ascii Bool Arith ZArith.
From Stdlib Require Import Sorting.Sorted FinFun.
Import ListNotations.

Open Scope R_scope.

(* ================================================================== *)
(** * Part I. Definitions                                               *)
(* ================================================================== *)

(** ** Vectors (THREE.Vector2, THREE.Vector3) *)

Record Vector2 : Type := mkVector2 { v2x : R; v2y : R }.

Record Vector3 : Type := mkVector3 { vx : R; vy : R; vz : R }.

Definition vadd (a b : Vector3) : Vector3 :=
  mkVector3 (vx a + vx b) (vy a + vy b) (vz a + vz b).

Definition vscale (a : Vector3) (k : R) : Vector3 :=
  mkVector3 (vx a * k) (vy a * k) (vz a * k).

(** [Vector3.lerp(v, alpha)] of three.js: each component moves by
    [(v.c - this.c) * alpha]. *)
Definition lerp (this v : Vector3) (alpha : R) : Vector3 :=
  mkVector3 (vx this + (vx v - vx this) * alpha)
            (vy this + (vy v - vy this) * alpha)
            (vz this + (vz v - vz this) * alpha).

(** [Vector3.distanceTo(v)] of three.js. *)
Definition distanceTo (a b : Vector3) : R :=
  sqrt ((vx a - vx b) * (vx a - vx b) +
        (vy a - vy b) * (vy a - vy b) +
        (vz a - vz b) * (vz a - vz b)).

(** ** The entity fragment program ([fs] of ai-entity-shader.ts) *)

Section EntityFragment.

(** [texture(uAudioData, vec2(u, v)).r]: the audio field. *)
Variable uAudioData : R -> R -> R.

Definition samples : nat := 32.

(** The loop [for (i = 0; i < samples; i++) audioLevel += texture(...)],
    unrolled from the last iteration down. *)
Fixpoint audio_sum (n : nat) : R :=
  match n with
  | O => 0
  | S i => audio_sum i + uAudioData (INR i / INR samples) 0.5
  end.

Definition audioLevel : R := audio_sum samples / INR samples.

Definition clamp (x lo hi : R) : R := Rmin (Rmax x lo) hi.

Definition smoothstep (e0 e1 x : R) : R :=
  let t := clamp ((x - e0) / (e1 - e0)) 0 1 in
  t * t * (3 - 2 * t).

Definition fract (x : R) : R := x - IZR (Int_part x).

Definition rand (co : Vector2) : R :=
  fract (sin (v2x co * 12.9898 + v2y co * 78.233) * 43758.5453).

Definition bandFrequency : R := 20.
Definition bandSpeed : R := -1.5.
Definition highFreq : R := uAudioData 0.8 0.5.
Definition lowFreq : R := uAudioData 0.1 0.5.

Definition bands (uTime : R) (vUv : Vector2) : R :=
  let b := sin (v2y vUv * (bandFrequency + lowFreq * 10) + uTime * bandSpeed) in
  let b := smoothstep 0 1 b in
  b * (0.5 + highFreq * 2.5).

(** The three palettes of the program. *)
Definition idle_color : Vector3 := mkVector3 0.1 0.5 1.
Definition listening_color : Vector3 := mkVector3 0.2 0.8 1.
Definition speaking_color : Vector3 := mkVector3 0.2 1 0.5.

(** Lines 56-63: [baseColor] and [pulse] after the [if]/[else if]. *)
Definition baseColor (uState : Z) : Vector3 :=
  if (uState =? 1)%Z then listening_color
  else if (uState =? 2)%Z then speaking_color
  else idle_color.

Definition pulse (uState : Z) (uTime : R) : R :=
  if (uState =? 1)%Z then 1
  else if (uState =? 2)%Z then 1 + sin (uTime * 8) * 0.15
  else 1.

(** [mix(a, b, t) = a * (1 - t) + b * t], componentwise. *)
Definition mix (a b : Vector3) (t : R) : Vector3 :=
  vadd (vscale a (1 - t)) (vscale b t).

(** [finalColor] as it stands after line 69, before the pulse is applied. *)
Definition combinedColor (uState : Z) (uTime : R) (vUv : Vector2) (fresnel : R)
  : Vector3 :=
  let glowColor := mix (vscale (baseColor uState) 0.5) (mkVector3 0.5 1 1)
                       (bands uTime vUv) in
  let finalColor := vscale glowColor (0.2 + audioLevel * 1.5) in
  vadd finalColor (vscale (vscale (baseColor uState) fresnel)
                          (0.5 + audioLevel * 2)).

(** [gl_FragColor.rgb]; [fresnel] is the value of the local of that name
    after line 36 (it depends on the varyings [vNormal] and
    [vViewPosition] only). *)
Definition finalColor (uState : Z) (uTime : R) (vUv : Vector2) (fresnel : R)
  : Vector3 :=
  let c := vscale (combinedColor uState uTime vUv fresnel) (pulse uState uTime) in
  let noise := rand (mkVector2 (v2x vUv + uTime * 0.01) (v2y vUv + uTime * 0.01))
               * 0.05 in
  vadd c (mkVector3 noise noise noise).

Definition finalAlpha (fresnel : R) : R :=
  clamp (fresnel * (0.3 + audioLevel * 0.7)) 0 1.

End EntityFragment.

(** ** Strings as JavaScript uses them here *)

Definition lower_ascii (c : ascii) : ascii :=
  let n := nat_of_ascii c in
  if ((65 <=? n) && (n <=? 90))%nat then ascii_of_nat (n + 32) else c.

(** [String.prototype.toLowerCase], on the ASCII letters. *)
Fixpoint toLowerCase (s : string) : string :=
  match s with
  | EmptyString => EmptyString
  | String c s' => String (lower_ascii c) (toLowerCase s')
  end.

(** [String.prototype.includes]. *)
Fixpoint includes (sub s : string) : bool :=
  String.prefix sub s ||
  match s with
  | EmptyString => false
  | String _ s' => includes sub s'
  end.

(** JavaScript truthiness of a string: the empty string is falsy. *)
Definition truthy (s : string) : bool := negb (String.eqb s "").

(** ** Records received from the host ([PlanetData]) *)

Record Visualization : Type := mkVisualization {
  color1 : string;
  color2 : string;
  atmosphereColor : string;
  hasRings : bool
}.

Record PlanetData : Type := mkPlanetData {
  celestial_body_id : string;
  planetName : string;
  planetType : string;
  visualization : Visualization
}.

(** ** Scene objects *)

(** Identity of a planet group: its index in the object store. *)
Definition ref : Type := nat.

Inductive Geometry : Type :=
| SphereGeometry (radius : R) (widthSegments heightSegments : nat)
| RingGeometry (innerRadius outerRadius : R) (thetaSegments : nat)
| IcosahedronGeometry (radius : R) (detail : nat)
| BufferGeometry.

Inductive Material : Type :=
| MeshStandardMaterial (gradientTop gradientBottom : string)
| AtmosphereShaderMaterial (uAtmosphereColor : string)
| MeshBasicMaterial (color : string) (scalar : R)
| EntityShaderMaterial
| LineBasicMaterial
| PointsMaterial.

Record Mesh : Type := mkMesh {
  geometry : Geometry;
  material : Material;
  mesh_rotation_x : R
}.

(** A planet group ([THREE.Group]) with its [userData]. *)
Record Group : Type := mkGroup {
  name : string;
  userData_id : string;
  userData_orbitalRadius : R;
  userData_orbitSpeed : R;
  position : Vector3;
  rotation_y : R;
  children : list Mesh
}.

(** The objects of the scene graph, by identity. *)
Inductive Object3D : Type :=
| OStarfield                       (* THREE.Points *)
| OStar                            (* THREE.Mesh *)
| OAiEntity                        (* THREE.Mesh *)
| ODataTrails                      (* THREE.Group, no children *)
| ONeuralNetwork                   (* THREE.LineSegments *)
| OPointLight
| OAmbientLight
| OGroup (r : ref)                 (* a planet group *)
| OMesh (r : ref) (i : nat).       (* child [i] of planet group [r] *)

Definition Object3D_eq_dec (a b : Object3D) : {a = b} + {a <> b}.
Proof. decide equality; apply Nat.eq_dec. Defined.

Arguments Object3D_eq_dec : simpl never.

(** Calls that leave the component. *)
Inductive Effect : Type :=
| GeometryDispose (o : Object3D)
| MaterialDispose (o : Object3D)
| DispatchPlanetSelected (planetId : string)
| RemoveWindowListener (type : string)
| RemoveEventListener (type : string)
| CancelAnimationFrame (id : nat)
| TrackStop (track : nat)
| AudioContextClose
| ControlsDispose
| RendererDispose
| RequestAnimationFrame
| ComposerRender.

(** ** [Map<string, THREE.Group>]

    A JavaScript [Map] iterates in insertion order; it is kept as an
    association list from keys to group identities. *)

Definition PlanetMap : Type := list (string * ref).

Fixpoint map_get (k : string) (m : PlanetMap) : option ref :=
  match m with
  | [] => None
  | (k', v) :: m' => if String.eqb k k' then Some v else map_get k m'
  end.

Definition map_has (k : string) (m : PlanetMap) : bool :=
  match map_get k m with Some _ => true | None => false end.

(** [Map.set]: an existing key keeps its place, a new key goes last. *)
Fixpoint map_set (k : string) (v : ref) (m : PlanetMap) : PlanetMap :=
  match m with
  | [] => [(k, v)]
  | (k', v') :: m' =>
      if String.eqb k k' then (k', v) :: m' else (k', v') :: map_set k v m'
  end.

Fixpoint map_delete (k : string) (m : PlanetMap) : PlanetMap :=
  match m with
  | [] => []
  | (k', v') :: m' =>
      if String.eqb k k' then m' else (k', v') :: map_delete k m'
  end.

Definition map_keys (m : PlanetMap) : list string := List.map fst m.
Definition map_values (m : PlanetMap) : list ref := List.map snd m.

(** [Array.prototype.includes] on strings. *)
Definition array_includes (l : list string) (k : string) : bool :=
  existsb (String.eqb k) l.

(** [Object3D.remove(child)]: the child leaves the [children] array. *)
Fixpoint scene_remove (o : Object3D) (l : list Object3D) : list Object3D :=
  match l with
  | [] => []
  | o' :: l' => if Object3D_eq_dec o o' then l' else o' :: scene_remove o l'
  end.

(** [Object3D.add(child)]: the child is detached from where it was and
    pushed last. *)
Definition scene_add (o : Object3D) (l : list Object3D) : list Object3D :=
  scene_remove o l ++ [o].

(** Writing field [f] of the object behind a reference. *)
Fixpoint store_update (r : ref) (f : Group -> Group) (s : list Group) : list Group :=
  match s, r with
  | [], _ => []
  | g :: s', O => f g :: s'
  | g :: s', S r' => g :: store_update r' f s'
  end.

(** ** The component [AxeeVisuals3D] *)

Record Tooltip : Type := mkTooltip {
  display : string;
  left : R;
  top : R;
  textContent : string
}.

(** Uniforms of the entity material that the frame loop writes. *)
Record EntityUniforms : Type := mkEntityUniforms { uTime : R; uState : Z }.

(** [camera.position], the controls' [target] and [autoRotate], and the
    commanded pose [targetPosition] / [targetLookAt]. *)
Record CameraRig : Type := mkCameraRig {
  camera_position : Vector3;
  controls_target : Vector3;
  controls_autoRotate : bool;
  targetPosition : Vector3;
  targetLookAt : Vector3
}.

(** [pointer], [hoveredPlanetId], the canvas' [style.cursor] and the
    tooltip element once [firstUpdated] has looked it up. *)
Record HoverState : Type := mkHoverState {
  pointer : Vector2;
  hoveredPlanetId : option string;
  cursor : string;
  tooltipElement : option Tooltip
}.

(** The reactive properties set by the host. A [MediaStream] is the list
    of its tracks. *)
Record Properties : Type := mkProperties {
  planetsData : list PlanetData;
  selectedPlanetId : option string;
  micStream : option (list nat);
  isListening : bool;
  isSpeaking : bool
}.

(** The fields typed without [| null] ([scene], [camera], [renderer],
    [composer], [controls]) are present: the record is the component once
    [init] has built them, so the guards [if (!this.renderer ...) return]
    of [_animate], [focusOnSelectedPlanet] and [onPointerMove] pass and
    the optional calls of [disconnectedCallback] are made. [objects] is
    the store of the planet groups ever created ([planets] and [scene]
    hold references into it), [random_calls] the number of [Math.random]
    draws so far. *)
Record AxeeVisuals3D : Type := mkAxeeVisuals3D {
  scene : list Object3D;
  objects : list Group;
  planets : PlanetMap;
  aiEntity : option EntityUniforms;
  rig : CameraRig;
  hover : HoverState;
  props : Properties;
  animationFrameId : nat;
  audioContext : bool;
  random_calls : nat
}.

Record Intersection : Type := mkIntersection {
  distance : R;
  object : Object3D
}.

(** What a frame reads from the browser: the clock, the handle returned
    by [requestAnimationFrame] and the window size. *)
Record FrameInput : Type := mkFrameInput {
  delta : R;
  elapsed : R;
  raf_handle : nat;
  innerWidth : R;
  innerHeight : R
}.

(** A pointer event together with the canvas' bounding rectangle. *)
Record PointerEvent : Type := mkPointerEvent {
  clientX : R;
  clientY : R;
  rect_left : R;
  rect_top : R;
  rect_width : R;
  rect_height : R
}.

(** [Raycaster.setFromCamera(pointer, camera)] followed by
    [intersectObjects(candidates, true)], nearest first: a function of
    the frame, the pointer, the camera and the candidates with their
    current state. *)
Definition Raycast : Type :=
  FrameInput -> Vector2 -> CameraRig -> list (ref * option Group)
  -> list Intersection.

(** [OrbitControls.update()]: the camera position and the controls'
    target it leaves. *)
Definition ControlsUpdate : Type := FrameInput -> CameraRig -> Vector3 * Vector3.

Definition baseRadius : R := 15.
Definition radiusStep : R := 8.

(** The parent of an object in the scene graph; the [Scene] itself is the
    parent of the top-level objects and has none. *)
Inductive Parent : Type :=
| ParentScene
| ParentGroup (r : ref).

Definition parent (o : Object3D) : option Parent :=
  match o with
  | OMesh r _ => Some (ParentGroup r)
  | _ => Some ParentScene
  end.

(** The meshes a traversal of planet group [r] visits after the group. *)
Fixpoint dispose_meshes (r : ref) (i : nat) (ms : list Mesh) : list Effect :=
  match ms with
  | [] => []
  | _ :: ms' =>
      GeometryDispose (OMesh r i) :: MaterialDispose (OMesh r i)
        :: dispose_meshes r (S i) ms'
  end.

Section Component.

(** [Math.random()]: the value of the n-th draw. *)
Variable Math_random : nat -> R.

(** [createPlanet(data, index)] *)
Definition createPlanet (data : PlanetData) (index : nat) (st : AxeeVisuals3D)
  : AxeeVisuals3D :=
  let isGasGiant := includes "gas" (toLowerCase (planetType data)) in
  let planetSize := if isGasGiant then 2.5 else 1.5 in
  let segments := 64%nat in
  let viz := visualization data in
  let planetMesh :=
    mkMesh (SphereGeometry planetSize segments segments)
           (MeshStandardMaterial (color1 viz) (color2 viz)) 0 in
  let atmosphereMesh :=
    mkMesh (SphereGeometry (planetSize + 0.1) segments segments)
           (AtmosphereShaderMaterial (atmosphereColor viz)) 0 in
  let rings :=
    if hasRings viz
    then [mkMesh (RingGeometry (planetSize + 0.5) (planetSize + 2.5) 128)
                 (MeshBasicMaterial (color2 viz) 0.5) (PI * 0.52)]
    else [] in
  let orbitalRadius := baseRadius + INR index * radiusStep in
  let planetGroup :=
    mkGroup (planetName data) (celestial_body_id data)
            orbitalRadius
            (0.1 + Math_random (random_calls st) * 0.1)
            (mkVector3 orbitalRadius 0 0)
            0
            (planetMesh :: atmosphereMesh :: rings) in
  let r := List.length (objects st) in
  mkAxeeVisuals3D
    (scene_add (OGroup r) (scene st))
    (objects st ++ [planetGroup])
    (map_set (celestial_body_id data) r (planets st))
    (aiEntity st) (rig st) (hover st) (props st)
    (animationFrameId st) (audioContext st)
    (S (random_calls st)).

(** [removePlanet(id)]: the group leaves the scene, the geometry and the
    material of each of its meshes are disposed, the key leaves the map.
    (A reference held by the map always leads to a stored group; the
    [None] case of the store is there for totality.) *)
Definition removePlanet (id : string) (st : AxeeVisuals3D)
  : AxeeVisuals3D * list Effect :=
  match map_get id (planets st) with
  | Some r =>
      let disposed :=
        match nth_error (objects st) r with
        | Some planetGroup => dispose_meshes r 0 (children planetGroup)
        | None => []
        end in
      (mkAxeeVisuals3D
         (scene_remove (OGroup r) (scene st))
         (objects st)
         (map_delete id (planets st))
         (aiEntity st) (rig st) (hover st) (props st)
         (animationFrameId st) (audioContext st) (random_calls st),
       disposed)
  | None => (st, [])
  end.

(** The loop [for (const id of this.planets.keys())] of [updatePlanets];
    only the key being visited is ever deleted, so the keys visited are
    those present when the loop starts. *)
Fixpoint remove_old (currentPlanetIds : list string) (keys : list string)
                    (st : AxeeVisuals3D) : AxeeVisuals3D * list Effect :=
  match keys with
  | [] => (st, [])
  | id :: keys' =>
      if negb (array_includes currentPlanetIds id)
      then let '(st1, e1) := removePlanet id st in
           let '(st2, e2) := remove_old currentPlanetIds keys' st1 in
           (st2, e1 ++ e2)
      else remove_old currentPlanetIds keys' st
  end.

(** The [forEach((planetData, index) => ...)] of [updatePlanets], from
    [index] on. *)
Fixpoint add_new (data : list PlanetData) (index : nat) (st : AxeeVisuals3D)
  : AxeeVisuals3D :=
  match data with
  | [] => st
  | planetData :: data' =>
      if negb (map_has (celestial_body_id planetData) (planets st))
      then add_new data' (S index) (createPlanet planetData index st)
      else add_new data' (S index) st
  end.

(** [updatePlanets()] *)
Definition updatePlanets (st : AxeeVisuals3D) : AxeeVisuals3D * list Effect :=
  let currentPlanetIds := List.map celestial_body_id (planetsData (props st)) in
  let '(st1, e) := remove_old currentPlanetIds (map_keys (planets st)) st in
  (add_new (planetsData (props st)) 0 st1, e).

End Component.

(** [focusOnSelectedPlanet()]; a selection is pursued when the id is a
    truthy string. *)
Definition focusOnSelectedPlanet (st : AxeeVisuals3D) : AxeeVisuals3D :=
  let selected :=
    match selectedPlanetId (props st) with
    | Some id => if truthy id then Some id else None
    | None => None
    end in
  let autoRotate := match selected with Some _ => false | None => true end in
  let '(tp, tl) :=
    match selected with
    | Some id =>
        match map_get id (planets st) with
        | Some r =>
            match nth_error (objects st) r with
            | Some planetGroup =>
                (vadd (position planetGroup) (mkVector3 0 3 10),
                 position planetGroup)
            | None => (targetPosition (rig st), targetLookAt (rig st))
            end
        | None => (targetPosition (rig st), targetLookAt (rig st))
        end
    | None => (mkVector3 0 15 40, mkVector3 0 0 0)
    end in
  mkAxeeVisuals3D
    (scene st) (objects st) (planets st) (aiEntity st)
    (mkCameraRig (camera_position (rig st)) (controls_target (rig st))
                 autoRotate tp tl)
    (hover st) (props st)
    (animationFrameId st) (audioContext st) (random_calls st).

(** [onPointerMove(event)] *)
Definition onPointerMove (event : PointerEvent) (st : AxeeVisuals3D)
  : AxeeVisuals3D :=
  let x := ((clientX event - rect_left event) / rect_width event) * 2 - 1 in
  let y := - ((clientY event - rect_top event) / rect_height event) * 2 + 1 in
  mkAxeeVisuals3D
    (scene st) (objects st) (planets st) (aiEntity st) (rig st)
    (mkHoverState (mkVector2 x y) (hoveredPlanetId (hover st))
                  (cursor (hover st)) (tooltipElement (hover st)))
    (props st)
    (animationFrameId st) (audioContext st) (random_calls st).

(** [onCanvasClick()] *)
Definition onCanvasClick (st : AxeeVisuals3D) : list Effect :=
  match hoveredPlanetId (hover st) with
  | Some id => if truthy id then [DispatchPlanetSelected id] else []
  | None => []
  end.

(** The body of the [planets.forEach] of [_animate]. *)
Definition animate_group (delta elapsed : R) (group : Group) : Group :=
  let radius := userData_orbitalRadius group in
  let speed := userData_orbitSpeed group in
  mkGroup (name group) (userData_id group)
          (userData_orbitalRadius group) (userData_orbitSpeed group)
          (mkVector3 (cos (elapsed * speed) * radius) 0
                     (sin (elapsed * speed) * radius))
          (rotation_y group + delta * 0.5)
          (children group).

Definition animate_planets (delta elapsed : R) (m : PlanetMap) (s : list Group)
  : list Group :=
  fold_left (fun s r => store_update r (animate_group delta elapsed) s)
            (map_values m) s.

(** The two [lerp] calls of [_animate]. *)
Definition camera_lerp (c : CameraRig) : CameraRig :=
  mkCameraRig (lerp (camera_position c) (targetPosition c) 0.05)
              (lerp (controls_target c) (targetLookAt c) 0.05)
              (controls_autoRotate c) (targetPosition c) (targetLookAt c).

(** The planet group the hover logic resolves the nearest intersection
    to, when it passes the three tests of the [if]. *)
Definition hovered_group (intersects : list Intersection) (st : AxeeVisuals3D)
  : option Group :=
  match intersects with
  | [] => None
  | first :: _ =>
      match parent (object first) with
      | Some (ParentGroup r) =>
          match nth_error (objects st) r with
          | Some intersectedObject =>
              if truthy (userData_id intersectedObject)
                 && map_has (userData_id intersectedObject) (planets st)
              then Some intersectedObject
              else None
          | None => None
          end
      | Some ParentScene => None   (* [scene.userData.id] is undefined *)
      | None => None
      end
  end.

Definition hover_update (fi : FrameInput) (hit : option Group) (h : HoverState)
  : HoverState :=
  match hit with
  | Some intersectedObject =>
      mkHoverState (pointer h) (Some (userData_id intersectedObject)) "pointer"
        (match tooltipElement h with
         | Some _ =>
             Some (mkTooltip "block"
                     (v2x (pointer h) * (innerWidth fi / 2) + innerWidth fi / 2 + 15)
                     (- v2y (pointer h) * (innerHeight fi / 2)
                      + innerHeight fi / 2 + 15)
                     (name intersectedObject))
         | None => None
         end)
  | None =>
      mkHoverState (pointer h) None "auto"
        (match tooltipElement h with
         | Some t => Some (mkTooltip "none" (left t) (top t) (textContent t))
         | None => None
         end)
  end.

Section FrameLoop.

Variable intersectObjects : Raycast.
Variable controls_update : ControlsUpdate.

(** The candidates handed to the raycaster:
    [Array.from(this.planets.values())]. *)
Definition hit_candidates (st : AxeeVisuals3D) : list (ref * option Group) :=
  List.map (fun r => (r, nth_error (objects st) r)) (map_values (planets st)).

(** [_animate()], up to the hover logic: the request of the next frame,
    the motion of the planets and of the camera. *)
Definition frame_motion (fi : FrameInput) (st : AxeeVisuals3D) : AxeeVisuals3D :=
  let objects1 := animate_planets (delta fi) (elapsed fi) (planets st) (objects st) in
  let rig1 := camera_lerp (rig st) in
  let rig2 := mkCameraRig (fst (controls_update fi rig1))
                          (snd (controls_update fi rig1))
                          (controls_autoRotate rig1)
                          (targetPosition rig1) (targetLookAt rig1) in
  mkAxeeVisuals3D
    (scene st) objects1 (planets st) (aiEntity st) rig2
    (hover st) (props st)
    (raf_handle fi) (audioContext st) (random_calls st).

(** The [intersects] array of the frame. *)
Definition frame_intersects (fi : FrameInput) (st : AxeeVisuals3D)
  : list Intersection :=
  let st1 := frame_motion fi st in
  intersectObjects fi (pointer (hover st1)) (rig st1) (hit_candidates st1).

(** [_animate()] *)
Definition _animate (fi : FrameInput) (st : AxeeVisuals3D)
  : AxeeVisuals3D * list Effect :=
  let st1 := frame_motion fi st in
  let intersects := frame_intersects fi st in
  let hover1 := hover_update fi (hovered_group intersects st1) (hover st1) in
  let aiEntity1 :=
    match aiEntity st1 with
    | Some _ =>
        let targetState :=
          if isListening (props st1) then 1%Z
          else if isSpeaking (props st1) then 2%Z
          else 0%Z in
        Some (mkEntityUniforms (elapsed fi) targetState)
    | None => None
    end in
  (mkAxeeVisuals3D
     (scene st1) (objects st1) (planets st1) aiEntity1 (rig st1)
     hover1 (props st1)
     (animationFrameId st1) (audioContext st1) (random_calls st1),
   [RequestAnimationFrame; ComposerRender]).

End FrameLoop.

(** The callback of [scene.traverse] in [disconnectedCallback], on one
    child of the scene and its descendants. [THREE.Points], lights and
    groups are neither [Mesh] nor [LineSegments]. *)
Definition teardown_object (s : list Group) (o : Object3D) : list Effect :=
  match o with
  | OStar | OAiEntity | ONeuralNetwork | OMesh _ _ =>
      [GeometryDispose o; MaterialDispose o]
  | OGroup r =>
      match nth_error s r with
      | Some planetGroup => dispose_meshes r 0 (children planetGroup)
      | None => []
      end
  | OStarfield | ODataTrails | OPointLight | OAmbientLight => []
  end.

(** [disconnectedCallback()] *)
Definition disconnectedCallback (st : AxeeVisuals3D) : list Effect :=
  [RemoveWindowListener "resize";
   RemoveEventListener "pointermove";
   RemoveEventListener "click";
   CancelAnimationFrame (animationFrameId st)]
  ++ match micStream (props st) with
     | Some tracks => List.map TrackStop tracks
     | None => []
     end
  ++ (if audioContext st then [AudioContextClose] else [])
  ++ [ControlsDispose]
  ++ flat_map (teardown_object (objects st)) (scene st)
  ++ [RendererDispose].

(** ** The life of the component *)

(** The scene as [init] leaves it: starfield, star, entity, data trails,
    network and the two lights. *)
Definition initial_scene : list Object3D :=
  [OStarfield; OStar; OAiEntity; ODataTrails; ONeuralNetwork;
   OPointLight; OAmbientLight].

Arguments initial_scene : simpl never.

(** The component after the field initialisers and the body of [init],
    before the first frame. *)
Definition init_state : AxeeVisuals3D :=
  mkAxeeVisuals3D
    initial_scene [] []
    (Some (mkEntityUniforms 0 0))
    (mkCameraRig (mkVector3 0 15 40) (mkVector3 0 0 0) true
                 (mkVector3 0 0 0) (mkVector3 0 0 0))
    (mkHoverState (mkVector2 0 0) None "" None)
    (mkProperties [] None None false false)
    0 false 0.

Definition set_props (p : Properties) (st : AxeeVisuals3D) : AxeeVisuals3D :=
  mkAxeeVisuals3D
    (scene st) (objects st) (planets st) (aiEntity st) (rig st) (hover st) p
    (animationFrameId st) (audioContext st) (random_calls st).

Definition set_planetsData (snapshot : list PlanetData) (st : AxeeVisuals3D)
  : AxeeVisuals3D :=
  let p := props st in
  set_props (mkProperties snapshot (selectedPlanetId p) (micStream p)
                          (isListening p) (isSpeaking p)) st.

Definition set_selectedPlanetId (sel : option string) (st : AxeeVisuals3D)
  : AxeeVisuals3D :=
  let p := props st in
  set_props (mkProperties (planetsData p) sel (micStream p)
                          (isListening p) (isSpeaking p)) st.

Definition set_micStream (s : option (list nat)) (st : AxeeVisuals3D)
  : AxeeVisuals3D :=
  let p := props st in
  set_props (mkProperties (planetsData p) (selectedPlanetId p) s
                          (isListening p) (isSpeaking p)) st.

Definition set_isListening (b : bool) (st : AxeeVisuals3D) : AxeeVisuals3D :=
  let p := props st in
  set_props (mkProperties (planetsData p) (selectedPlanetId p) (micStream p)
                          b (isSpeaking p)) st.

Definition set_isSpeaking (b : bool) (st : AxeeVisuals3D) : AxeeVisuals3D :=
  let p := props st in
  set_props (mkProperties (planetsData p) (selectedPlanetId p) (micStream p)
                          (isListening p) b) st.

(** The second statement of [firstUpdated]: the tooltip element, hidden
    by the style sheet, is looked up. *)
Definition bind_tooltip (st : AxeeVisuals3D) : AxeeVisuals3D :=
  mkAxeeVisuals3D
    (scene st) (objects st) (planets st) (aiEntity st) (rig st)
    (mkHoverState (pointer (hover st)) (hoveredPlanetId (hover st))
                  (cursor (hover st)) (Some (mkTooltip "none" 0 0 "")))
    (props st)
    (animationFrameId st) (audioContext st) (random_calls st).

(** The [display] of the tooltip as the page shows it. *)
Definition tooltip_display (st : AxeeVisuals3D) : string :=
  match tooltipElement (hover st) with
  | Some t => display t
  | None => "none"
  end.

(** What can happen to a live component: a property changes (and
    [willUpdate] runs the matching branch), the pointer moves, the canvas
    is clicked, the tooltip is bound, a frame is drawn. *)
Inductive Event : Type :=
| EvPlanetsData (snapshot : list PlanetData)
| EvSelectedPlanetId (sel : option string)
| EvMicStream (s : option (list nat))
| EvListening (b : bool)
| EvSpeaking (b : bool)
| EvPointerMove (event : PointerEvent)
| EvClick
| EvTooltip
| EvFrame (fi : FrameInput).

Section Run.

Variable Math_random : nat -> R.
Variable intersectObjects : Raycast.
Variable controls_update : ControlsUpdate.

(** [reconcile]: the host assigns [planetsData] and [willUpdate] calls
    [updatePlanets]. *)
Definition reconcile (snapshot : list PlanetData) (st : AxeeVisuals3D)
  : AxeeVisuals3D * list Effect :=
  updatePlanets Math_random (set_planetsData snapshot st).

Definition step (e : Event) (st : AxeeVisuals3D) : AxeeVisuals3D * list Effect :=
  match e with
  | EvPlanetsData snapshot => reconcile snapshot st
  | EvSelectedPlanetId sel =>
      (focusOnSelectedPlanet (set_selectedPlanetId sel st), [])
  | EvMicStream s => (set_micStream s st, [])
  | EvListening b => (set_isListening b st, [])
  | EvSpeaking b => (set_isSpeaking b st, [])
  | EvPointerMove event => (onPointerMove event st, [])
  | EvClick => (st, onCanvasClick st)
  | EvTooltip => (bind_tooltip st, [])
  | EvFrame fi => _animate intersectObjects controls_update fi st
  end.

Fixpoint run (evs : list Event) (st : AxeeVisuals3D)
  : AxeeVisuals3D * list Effect :=
  match evs with
  | [] => (st, [])
  | e :: evs' =>
      let '(st1, e1) := step e st in
      let '(st2, e2) := run evs' st1 in
      (st2, e1 ++ e2)
  end.

(** The planet [id] is live after every event of [evs], run from [st]. *)
Fixpoint live_along (id : string) (evs : list Event) (st : AxeeVisuals3D)
  : Prop :=
  match evs with
  | [] => True
  | e :: evs' =>
      map_has id (planets (fst (step e st))) = true
      /\ live_along id evs' (fst (step e st))
  end.

Inductive reachable : AxeeVisuals3D -> Prop :=
| reachable_init : reachable init_state
| reachable_step : forall e st,
    reachable st -> reachable (fst (step e st)).

End Run.

(** The invariant of the registry: keys and group identities are not
    repeated, every key leads to a stored group carrying that key as its
    [userData.id], the scene holds the initial objects followed by the
    live groups in the order of the map, and the hover id is never the
    empty string. *)
Record wf (st : AxeeVisuals3D) : Prop := mk_wf {
  wf_keys : NoDup (map_keys (planets st));
  wf_refs : NoDup (map_values (planets st));
  wf_store : forall k r, In (k, r) (planets st) ->
      exists g, nth_error (objects st) r = Some g /\ userData_id g = k;
  wf_scene : scene st = initial_scene ++ List.map OGroup (map_values (planets st));
  wf_hover : hoveredPlanetId (hover st) <> Some ""%string
}.

(** ** The teardown order *)

(** The order of the effects of [disconnectedCallback]: listeners, frame
    callback, audio, controls, scene resources, renderer. *)
Definition teardown_phase (e : Effect) : nat :=
  match e with
  | RemoveWindowListener _ | RemoveEventListener _ => 0
  | CancelAnimationFrame _ => 1
  | TrackStop _ | AudioContextClose => 2
  | ControlsDispose => 3
  | GeometryDispose _ | MaterialDispose _ => 4
  | RendererDispose => 5
  | DispatchPlanetSelected _ | RequestAnimationFrame | ComposerRender => 6
  end.

(** The order as the specification words it: frame callback, audio,
    interaction and pointer listeners, resources of the bodies, shared
    resources, renderer. Steps it does not mention carry no phase. *)
Definition spec_teardown_phase (e : Effect) : option nat :=
  match e with
  | CancelAnimationFrame _ => Some 0%nat
  | TrackStop _ | AudioContextClose => Some 1%nat
  | RemoveEventListener _ => Some 2%nat
  | GeometryDispose (OMesh _ _) | MaterialDispose (OMesh _ _) => Some 3%nat
  | GeometryDispose _ | MaterialDispose _ => Some 4%nat
  | RendererDispose => Some 5%nat
  | RemoveWindowListener _ | ControlsDispose
  | DispatchPlanetSelected _ | RequestAnimationFrame | ComposerRender => None
  end.

(** A trace follows the specification's order when no step comes before
    a step of an earlier phase. *)
Definition in_spec_order (trace : list Effect) : Prop :=
  forall l1 a l2 b l3 pa pb,
    trace = l1 ++ a :: l2 ++ b :: l3 ->
    spec_teardown_phase a = Some pa ->
    spec_teardown_phase b = Some pb ->
    (pa <= pb)%nat.

Definition in_order (phase : Effect -> nat) (trace : list Effect) : Prop :=
  StronglySorted (fun a b => (phase a <= phase b)%nat) trace.

(** ** The camera pose *)

(** Distance from the current pose (camera position, look-at) to the
    commanded one. *)
Definition pose_distance (c : CameraRig) : R :=
  distanceTo (camera_position c) (targetPosition c)
  + distanceTo (controls_target c) (targetLookAt c).

Definition Effect_eq_dec (a b : Effect) : {a = b} + {a <> b}.
Proof.
  decide equality;
    try apply Nat.eq_dec; try apply string_dec; try apply Object3D_eq_dec.
Defined.


(** ** Sample inputs *)

Definition earth : PlanetData :=
  mkPlanetData "earth" "Earth" "Terrestrial"
               (mkVisualization "#2a6fdb" "#1b8f3a" "#9fd0ff" false).

Definition saturn : PlanetData :=
  mkPlanetData "saturn" "Saturn" "Gas Giant"
               (mkVisualization "#e8d28a" "#b59b52" "#fff2c4" true).

Definition neptune : PlanetData :=
  mkPlanetData "neptune" "Neptune" "Ice Giant"
               (mkVisualization "#3f54ba" "#5b7fde" "#a8c4ff" false).

Definition half_random : nat -> R := fun _ => 0.5.

(** A raycaster that reports the first mesh of the first candidate. *)
Definition first_candidate_hit : Raycast :=
  fun _ _ _ candidates =>
    match candidates with
    | (r, _) :: _ => [mkIntersection 1 (OMesh r 0)]
    | [] => []
    end.

(** A raycaster that reports nothing. *)
Definition no_hit : Raycast := fun _ _ _ _ => [].

(** Controls that leave the camera where the interpolation put it. *)
Definition still_controls : ControlsUpdate :=
  fun _ c => (camera_position c, controls_target c).

Definition sample_frame : FrameInput := mkFrameInput 0.016 1 1 800 600.

(** The registry after a first snapshot holding [earth] and [saturn]. *)
Definition two_planets : AxeeVisuals3D :=
  fst (reconcile half_random [earth; saturn] init_state).


(** The position [_animate] gives a body at elapsed time [t]. *)
Definition orbit_position (t : R) (g : Group) : Vector3 :=
  mkVector3 (cos (t * userData_orbitSpeed g) * userData_orbitalRadius g)
            0
            (sin (t * userData_orbitSpeed g) * userData_orbitalRadius g).

(** Two values of a group that differ in position and rotation only. *)
Definition same_body (g g' : Group) : Prop :=
  name g' = name g
  /\ userData_id g' = userData_id g
  /\ userData_orbitalRadius g' = userData_orbitalRadius g
  /\ userData_orbitSpeed g' = userData_orbitSpeed g
  /\ children g' = children g.


(** A history through which [saturn] stays live while [earth] is
    removed. *)
Definition sample_history : list Event :=
  [EvFrame sample_frame;
   EvPlanetsData [saturn];
   EvSelectedPlanetId (Some "saturn"%string);
   EvFrame (mkFrameInput 0.02 2 2 800 600)].


Definition is_frame (e : Event) : bool :=
  match e with EvFrame _ => true | _ => false end.

(** No frame is drawn during [evs]. *)
Definition no_frame (evs : list Event) : Prop :=
  forallb (fun e => negb (is_frame e)) evs = true.

(** [earth] is hovered: one frame over [two_planets] with a raycaster
    that reports a mesh of the first live planet. *)
Definition earth_hovered : AxeeVisuals3D :=
  fst (_animate first_candidate_hit still_controls sample_frame
                (bind_tooltip two_planets)).

(** A frame hovers [earth], the next snapshot is empty, then the canvas
    is clicked. *)
Definition stale_hover_history : list Event :=
  [EvPlanetsData [earth]; EvFrame sample_frame; EvPlanetsData []; EvClick].


(** [two_planets] with a microphone stream of two tracks attached. *)
Definition two_planets_with_mic : AxeeVisuals3D :=
  set_micStream (Some [0%nat; 1%nat]) two_planets.

(** What teardown releases of the objects [init] put in the scene: the
    star, the entity and the network. *)
Definition shared_disposals : list Effect :=
  [GeometryDispose OStar; MaterialDispose OStar;
   GeometryDispose OAiEntity; MaterialDispose OAiEntity;
   GeometryDispose ONeuralNetwork; MaterialDispose ONeuralNetwork].

(** What teardown releases of the live bodies, in the order of the map. *)
Definition body_disposals (st : AxeeVisuals3D) : list Effect :=
  flat_map (teardown_object (objects st))
           (List.map OGroup (map_values (planets st))).

(** The audio part of teardown. *)
Definition audio_stops (st : AxeeVisuals3D) : list Effect :=
  match micStream (props st) with
  | Some tracks => List.map TrackStop tracks
  | None => []
  end
  ++ (if audioContext st then [AudioContextClose] else []).


(** The band [createPlanet] draws orbit speeds from, ends included, and
    the radii it hands out. *)
Definition in_band (g : Group) : Prop :=
  0.1 <= userData_orbitSpeed g <= 0.2
  /\ exists k : nat, userData_orbitalRadius g = baseRadius + INR k * radiusStep.

(** [Math.random()] returns a number in [0, 1). *)
Definition unit_random (Math_random : nat -> R) : Prop :=
  forall n, 0 <= Math_random n < 1.


(** The release of the geometry or of the material of mesh [i] of the
    planet group [r]. *)
Definition releases_mesh (e : Effect) (r : ref) (i : nat) : Prop :=
  e = GeometryDispose (OMesh r i) \/ e = MaterialDispose (OMesh r i).


(** Every record of [snapshot] has a live body whose orbital radius is
    the one of the record's position in [snapshot]. *)
Definition radii_by_position (st : AxeeVisuals3D) (snapshot : list PlanetData)
  : Prop :=
  forall i d,
    nth_error snapshot i = Some d ->
    exists r g,
      map_get (celestial_body_id d) (planets st) = Some r
      /\ nth_error (objects st) r = Some g
      /\ userData_orbitalRadius g = baseRadius + INR i * radiusStep.


(** ** The atmosphere fragment program ([fs] of atmosphere-shader.ts) *)

Definition dot3 (a b : Vector3) : R := vx a * vx b + vy a * vy b + vz a * vz b.

(** [gl_FragColor.a]. The fourth power stands for [pow(fresnel, 4.0)],
    which GLSL defines for a base that is not negative. *)
Definition atmosphere_alpha (vNormal vViewDirection : Vector3) : R :=
  let fresnel := 1 - dot3 vNormal vViewDirection in
  let fresnel := fresnel ^ 4 in
  smoothstep 0 1 fresnel.

(** [gl_FragColor] as colour and alpha. *)
Definition atmosphere_fragment (uAtmosphereColor vNormal vViewDirection : Vector3)
  : Vector3 * R :=
  (uAtmosphereColor, atmosphere_alpha vNormal vViewDirection).

(** Every sample of the audio texture lies in [0, 1], as the samples of
    a byte texture do. *)
Definition unit_field (uAudioData : R -> R -> R) : Prop :=
  forall u v, 0 <= uAudioData u v <= 1.

Definition nonneg3 (c : Vector3) : Prop := 0 <= vx c /\ 0 <= vy c /\ 0 <= vz c.


(** ** The single-planet scene (second component of ai-entity-shader.ts)

    An [AxeeVisuals3D] that shows at most one planet, given by the
    property [planetData]. *)

Module SinglePlanet.

Inductive Part : Type :=
| Surface (color1 color2 : string)         (* sphere 1, gradient texture *)
| AtmosphereShell (color : string)         (* sphere 1.05, opacity 0.3 *)
| Ring (color : string).                   (* ring 1.5 .. 2, turned by PI / 2 *)

(** The [uv] the ring loop gives a vertex at distance [len] from the
    centre. *)
Definition ring_uv (len : R) : R * R :=
  (if Rlt_dec len 1.75 then 0 else 1, 1).

Record PlanetGroup : Type := mkPlanetGroup {
  rotation_y : R;
  position : Vector3;
  parts : list Part
}.

(** The children of the scene, planet groups by identity. *)
Inductive SceneObject : Type :=
| Starfield
| Star
| PointLight
| AmbientLight
| Planet (n : nat).

Definition SceneObject_eq_dec (a b : SceneObject) : {a = b} + {a <> b}.
Proof. decide equality; apply Nat.eq_dec. Defined.

Arguments SceneObject_eq_dec : simpl never.

Record State : Type := mkState {
  scene : list SceneObject;
  planet : option (nat * PlanetGroup);
  starfield_rotation_y : R;
  star_rotation_y : R;
  star_scale : Vector3;
  created : nat;                 (* groups built so far *)
  planetData : option Visualization;
  isScanning : bool
}.

(** The component after [init], before the first frame. *)
Definition init_state : State :=
  mkState [Starfield; Star; PointLight; AmbientLight] None 0 0
          (mkVector3 1 1 1) 0 None false.

Fixpoint scene_remove (o : SceneObject) (l : list SceneObject) : list SceneObject :=
  match l with
  | [] => []
  | o' :: l' => if SceneObject_eq_dec o o' then l' else o' :: scene_remove o l'
  end.

(** [removePlanet()] *)
Definition removePlanet (st : State) : State :=
  match planet st with
  | Some (n, _) =>
      mkState (scene_remove (Planet n) (scene st)) None
              (starfield_rotation_y st) (star_rotation_y st) (star_scale st)
              (created st) (planetData st) (isScanning st)
  | None => st
  end.

(** How a call ends: it returns, or an exception leaves it; either way
    with the fields as the call left them. *)
Inductive Outcome : Type :=
| Returned (st : State)
| Thrown (st : State).

Definition state_of (o : Outcome) : State :=
  match o with
  | Returned st => st
  | Thrown st => st
  end.

Section Colours.

(** Whether the browser parses the string as a CSS colour:
    [CanvasGradient.addColorStop] throws a [SyntaxError] when it does
    not. *)
Variable parses_color : string -> bool.

(** [createPlanet(data)]: the old planet is removed and [this.planet] is
    a new, empty group before the gradient is built; the meshes are
    added and the group enters the scene after it. *)
Definition createPlanet (data : Visualization) (st : State) : Outcome :=
  let st := removePlanet st in
  let n := created st in
  if parses_color (color1 data) && parses_color (color2 data)
  then
    let group :=
      mkPlanetGroup 0 (mkVector3 10 0 0)
        (Surface (color1 data) (color2 data)
         :: AtmosphereShell (atmosphereColor data)
         :: (if hasRings data then [Ring (color2 data)] else [])) in
    Returned
      (mkState (scene_remove (Planet n) (scene st) ++ [Planet n])
               (Some (n, group))
               (starfield_rotation_y st) (star_rotation_y st) (star_scale st)
               (S n) (planetData st) (isScanning st))
  else
    Thrown
      (mkState (scene st)
               (Some (n, mkPlanetGroup 0 (mkVector3 0 0 0) []))
               (starfield_rotation_y st) (star_rotation_y st) (star_scale st)
               (S n) (planetData st) (isScanning st)).

(** The host assigns [planetData]; [willUpdate] creates or removes. *)
Definition willUpdate_planetData (d : option Visualization) (st : State)
  : Outcome :=
  let st := mkState (scene st) (planet st)
                    (starfield_rotation_y st) (star_rotation_y st) (star_scale st)
                    (created st) d (isScanning st) in
  match planetData st with
  | Some data => createPlanet data st
  | None => Returned (removePlanet st)
  end.

End Colours.

Definition set_isScanning (b : bool) (st : State) : State :=
  mkState (scene st) (planet st)
          (starfield_rotation_y st) (star_rotation_y st) (star_scale st)
          (created st) (planetData st) b.

(** [_animate()] *)
Definition _animate (delta elapsed : R) (st : State) : State * list Effect :=
  let planet1 :=
    match planet st with
    | Some (n, g) =>
        Some (n, mkPlanetGroup (rotation_y g + delta * 0.5)
                               (mkVector3 (cos (elapsed * 0.2) * 10) 0
                                          (sin (elapsed * 0.2) * 10))
                               (parts g))
    | None => None
    end in
  let scale :=
    if isScanning st
    then let pulse := sin (elapsed * 5) * 0.1 + 1 in mkVector3 pulse pulse pulse
    else mkVector3 1 1 1 in
  (mkState (scene st) planet1
           (starfield_rotation_y st + delta * 0.01)
           (star_rotation_y st + delta * 0.1)
           scale (created st) (planetData st) (isScanning st),
   [RequestAnimationFrame; ComposerRender]).

Inductive Event : Type :=
| EvPlanetData (d : option Visualization)
| EvScanning (b : bool)
| EvFrame (delta elapsed : R).

(** One event of the component's life. An exception out of [willUpdate]
    ends that update only: the fields stay as the throw left them and
    the frames go on. *)
Definition step (parses_color : string -> bool) (e : Event) (st : State)
  : State :=
  match e with
  | EvPlanetData d => state_of (willUpdate_planetData parses_color d st)
  | EvScanning b => set_isScanning b st
  | EvFrame delta elapsed => fst (_animate delta elapsed st)
  end.

Definition run (parses_color : string -> bool) (evs : list Event) (st : State)
  : State :=
  fold_left (fun st e => step parses_color e st) evs st.

(** The planet groups among the children of the scene. *)
Fixpoint planets_in (l : list SceneObject) : list nat :=
  match l with
  | [] => []
  | Planet n :: l' => n :: planets_in l'
  | _ :: l' => planets_in l'
  end.

(** The scene shows no planet or [this.planet] alone, and identities to
    come are not in use. *)
Definition wf (st : State) : Prop :=
  (planets_in (scene st) = []
   \/ exists n g, planet st = Some (n, g) /\ planets_in (scene st) = [n])
  /\ (forall n, In n (planets_in (scene st)) -> (n < created st)%nat).

(** A sample colour parser: it knows a few six-digit colours and takes
    every other string, the empty one among them, as unparsable. *)
Definition sample_parser (c : string) : bool :=
  existsb (String.eqb c)
          ["#2a6fdb"; "#1b8f3a"; "#9fd0ff"; "#e8d28a"; "#b59b52"; "#fff2c4"]%string.

(** A planet is shown and a frame is drawn. *)
Definition sample_events : list Event :=
  [EvPlanetData (Some (mkVisualization "#2a6fdb" "#1b8f3a" "#9fd0ff" false));
   EvFrame 0.016 1].

(** A record whose first gradient colour is the empty string. *)
Definition colourless : Visualization :=
  mkVisualization "" "#1b8f3a" "#9fd0ff" false.

End SinglePlanet.



(** ** The host: the JSON object in the model's reply (part_001,
    [synthesizeExoplanet])

    [indexOf] and [lastIndexOf] answer [-1] when the character is
    absent: [None] here. *)

Fixpoint indexOf (c : ascii) (s : string) : option nat :=
  match s with
  | EmptyString => None
  | String a s' =>
      if Ascii.eqb a c then Some 0%nat else option_map S (indexOf c s')
  end.

Fixpoint lastIndexOf (c : ascii) (s : string) : option nat :=
  match s with
  | EmptyString => None
  | String a s' =>
      match lastIndexOf c s' with
      | Some i => Some (S i)
      | None => if Ascii.eqb a c then Some 0%nat else None
      end
  end.

(** [s.substring(a, b)]: the arguments are swapped when [a > b] and cut
    at the length of [s]. *)
Definition js_substring (a b : nat) (s : string) : string :=
  String.substring (Nat.min a b) (Nat.max a b - Nat.min a b) s.

(** The text between the first opening and the last closing brace of
    the trimmed reply, or [None] where the code throws
    "AI response did not contain a valid JSON object." *)
Definition extract_json (jsonString : string) : option string :=
  match indexOf "{"%char jsonString with
  | None => None                                   (* firstBrace === -1 *)
  | Some firstBrace =>
      match lastIndexOf "}"%char jsonString with
      | None => None                               (* -1 <= firstBrace *)
      | Some lastBrace =>
          if (lastBrace <=? firstBrace)%nat then None
          else Some (js_substring firstBrace (lastBrace + 1) jsonString)
      end
  end.

(** The character occurs in the string. *)
Fixpoint occurs (c : ascii) (s : string) : bool :=
  match s with
  | EmptyString => false
  | String a s' => Ascii.eqb a c || occurs c s'
  end.

(** The string is an object's text [{ body }] inside other text. *)
Definition braced (pre body post : string) : string :=
  (pre ++ String "{"%char body ++ String "}"%char post)%string.

Definition reply_sample : string :=
  "Here is the planet: {a: {b: 1}} Enjoy!"%string.


(** ** Controls that keep their distance limits

    [OrbitControls.update()] when the user does nothing: the offset of
    the camera from the target is turned about the vertical axis while
    [autoRotate] is set, by the angle [turn] that auto-rotation and its
    damping give in that frame; its length is brought within
    [minDistance] and [maxDistance] (5 and 100, set by [init]); the
    target stays where the interpolation put it. A camera on the target
    itself is sent straight up. *)




Definition vlength (a : Vector3) : R :=
  sqrt (vx a * vx a + vy a * vy a + vz a * vz a).







(* ================================================================== *)
(** * Part II. Properties                                               *)
(* ================================================================== *)

(** ** The entity fragment program *)

Lemma pulse_speaking_bounds (t : R) : 0.85 <= pulse 2 t <= 1.15.
Proof.
  unfold pulse; simpl.
  pose proof (SIN_bound (t * 8)) as [Hlo Hhi]. lra.
Qed.

Lemma vscale_one (v : Vector3) : vscale v 1 = v.
Proof. destruct v as [a b c]; unfold vscale; simpl; f_equal; lra. Qed.

(** C7. In the entity fragment program, whatever the time, the UV
    coordinate and the audio field: with [uState = 0] the base colour is
    the idle palette, the pulse factor is 1 and the final colour is the
    combined colour itself plus the dither; with [uState = 2] the base
    colour is the speaking palette and the pulse factor is
    [1 + sin(8 t) * 0.15], which stays within [0.85, 1.15]. *)
Theorem entity_state_selection :
  forall (uAudioData : R -> R -> R) (t : R) (vUv : Vector2) (fresnel : R),
    baseColor 0 = idle_color
    /\ pulse 0 t = 1
    /\ finalColor uAudioData 0 t vUv fresnel
       = vadd (combinedColor uAudioData 0 t vUv fresnel)
              (let noise := rand (mkVector2 (v2x vUv + t * 0.01)
                                            (v2y vUv + t * 0.01)) * 0.05 in
               mkVector3 noise noise noise)
    /\ baseColor 2 = speaking_color
    /\ pulse 2 t = 1 + sin (8 * t) * 0.15
    /\ 0.85 <= pulse 2 t <= 1.15
    /\ finalColor uAudioData 2 t vUv fresnel
       = vadd (vscale (combinedColor uAudioData 2 t vUv fresnel)
                      (1 + sin (8 * t) * 0.15))
              (let noise := rand (mkVector2 (v2x vUv + t * 0.01)
                                            (v2y vUv + t * 0.01)) * 0.05 in
               mkVector3 noise noise noise).
Proof.
  intros tex t vUv fresnel.
  assert (Hp2 : pulse 2 t = 1 + sin (8 * t) * 0.15).
  { unfold pulse; simpl. replace (t * 8) with (8 * t) by lra. reflexivity. }
  repeat split.
  - unfold finalColor. cbv zeta.
    replace (pulse 0 t) with 1 by reflexivity.
    now rewrite vscale_one.
  - exact Hp2.
  - apply pulse_speaking_bounds.
  - apply pulse_speaking_bounds.
  - unfold finalColor. cbv zeta. now rewrite Hp2.
Qed.

(** ** Camera interpolation *)

Lemma lerp_offset (p q : Vector3) (a : R) :
  (vx (lerp p q a) - vx q = (1 - a) * (vx p - vx q))
  /\ (vy (lerp p q a) - vy q = (1 - a) * (vy p - vy q))
  /\ (vz (lerp p q a) - vz q = (1 - a) * (vz p - vz q)).
Proof. unfold lerp; simpl; repeat split; lra. Qed.

Lemma distanceTo_lerp (p q : Vector3) (a : R) :
  0 <= a <= 1 ->
  distanceTo (lerp p q a) q = (1 - a) * distanceTo p q.
Proof.
  intros Ha. unfold distanceTo.
  destruct (lerp_offset p q a) as (Hx & Hy & Hz).
  rewrite Hx, Hy, Hz.
  set (dx := vx p - vx q). set (dy := vy p - vy q). set (dz := vz p - vz q).
  replace ((1 - a) * dx * ((1 - a) * dx) + (1 - a) * dy * ((1 - a) * dy)
           + (1 - a) * dz * ((1 - a) * dz))
    with (((1 - a) * (1 - a)) * (dx * dx + dy * dy + dz * dz)) by ring.
  rewrite sqrt_mult_alt by nra.
  rewrite sqrt_square by lra. reflexivity.
Qed.

Lemma distanceTo_nonneg (p q : Vector3) : 0 <= distanceTo p q.
Proof. unfold distanceTo. apply sqrt_pos. Qed.

Lemma distanceTo_zero (p q : Vector3) : distanceTo p q = 0 <-> p = q.
Proof.
  unfold distanceTo. split.
  - intros H.
    destruct p as [a b c], q as [a' b' c']; simpl in *.
    pose proof (Rle_0_sqr (a - a')) as Ha.
    pose proof (Rle_0_sqr (b - b')) as Hb.
    pose proof (Rle_0_sqr (c - c')) as Hc.
    unfold Rsqr in Ha, Hb, Hc.
    apply sqrt_eq_0 in H; [| lra].
    assert (Ea : (a - a') * (a - a') = 0) by lra.
    assert (Eb : (b - b') * (b - b') = 0) by lra.
    assert (Ec : (c - c') * (c - c') = 0) by lra.
    apply Rsqr_0_uniq in Ea, Eb, Ec.
    f_equal; lra.
  - intros ->.
    replace ((vx q - vx q) * (vx q - vx q) + (vy q - vy q) * (vy q - vy q)
             + (vz q - vz q) * (vz q - vz q)) with 0 by ring.
    apply sqrt_0.
Qed.

Lemma pose_distance_lerp (c : CameraRig) :
  pose_distance (camera_lerp c) = 0.95 * pose_distance c.
Proof.
  unfold pose_distance, camera_lerp; simpl.
  rewrite !distanceTo_lerp by lra. lra.
Qed.

Lemma pose_distance_nonneg (c : CameraRig) : 0 <= pose_distance c.
Proof.
  unfold pose_distance.
  pose proof (distanceTo_nonneg (camera_position c) (targetPosition c)).
  pose proof (distanceTo_nonneg (controls_target c) (targetLookAt c)). lra.
Qed.

Lemma pose_distance_zero (c : CameraRig) :
  pose_distance c = 0 <->
  camera_position c = targetPosition c /\ controls_target c = targetLookAt c.
Proof.
  unfold pose_distance.
  pose proof (distanceTo_nonneg (camera_position c) (targetPosition c)).
  pose proof (distanceTo_nonneg (controls_target c) (targetLookAt c)).
  rewrite <- !distanceTo_zero. lra.
Qed.

Lemma camera_lerp_commanded (c : CameraRig) :
  targetPosition (camera_lerp c) = targetPosition c
  /\ targetLookAt (camera_lerp c) = targetLookAt c.
Proof. split; reflexivity. Qed.


(** ** The map of live planets *)

Lemma array_includes_In (l : list string) (k : string) :
  array_includes l k = true <-> In k l.
Proof.
  unfold array_includes. rewrite existsb_exists. split.
  - intros (x & Hx & E). apply String.eqb_eq in E. now subst.
  - intros H. exists k. split; [exact H | apply String.eqb_refl].
Qed.

Lemma array_includes_false (l : list string) (k : string) :
  array_includes l k = false <-> ~ In k l.
Proof.
  rewrite <- array_includes_In. destruct (array_includes l k); split; congruence.
Qed.

Lemma map_get_In (k : string) (r : ref) (m : PlanetMap) :
  map_get k m = Some r -> In (k, r) m.
Proof.
  induction m as [| [k' v] m IH]; simpl; [discriminate |].
  destruct (String.eqb_spec k k') as [-> | Hne].
  - intros [= ->]. now left.
  - intros H. right. now apply IH.
Qed.

Lemma map_get_None (k : string) (m : PlanetMap) :
  map_get k m = None <-> ~ In k (map_keys m).
Proof.
  induction m as [| [k' v] m IH]; simpl.
  - tauto.
  - destruct (String.eqb_spec k k') as [-> | Hne].
    + split; [discriminate | intros H; exfalso; apply H; now left].
    + rewrite IH. split; intros H; [intros [E | E]; [congruence | tauto] | tauto].
Qed.

Lemma map_has_In (k : string) (m : PlanetMap) :
  map_has k m = true <-> In k (map_keys m).
Proof.
  unfold map_has. destruct (map_get k m) eqn:E.
  - split; [intros _ | reflexivity].
    apply map_get_In in E. unfold map_keys. apply in_map_iff.
    exists (k, r). now split.
  - apply map_get_None in E. split; [discriminate | tauto].
Qed.

Lemma map_has_false (k : string) (m : PlanetMap) :
  map_has k m = false <-> ~ In k (map_keys m).
Proof.
  rewrite <- map_has_In. destruct (map_has k m); split; congruence.
Qed.

Lemma In_map_get (k : string) (r : ref) (m : PlanetMap) :
  NoDup (map_keys m) -> In (k, r) m -> map_get k m = Some r.
Proof.
  induction m as [| [k' v] m IH]; simpl; [tauto |].
  intros Hnd [E | Hin].
  - inversion E; subst. now rewrite String.eqb_refl.
  - inversion Hnd as [| ? ? Hnotin Hnd']; subst.
    destruct (String.eqb_spec k k') as [-> | Hne].
    + exfalso. apply Hnotin. unfold map_keys. apply in_map_iff.
      exists (k', r). now split.
    + now apply IH.
Qed.

Lemma map_get_value (k : string) (r : ref) (m : PlanetMap) :
  map_get k m = Some r -> In r (map_values m).
Proof.
  intros H. apply map_get_In in H. unfold map_values.
  apply in_map_iff. exists (k, r). now split.
Qed.

Lemma map_get_delete_other (k k' : string) (m : PlanetMap) :
  k <> k' -> map_get k (map_delete k' m) = map_get k m.
Proof.
  intros Hne. induction m as [| [k0 v] m IH]; simpl; [reflexivity |].
  destruct (String.eqb_spec k' k0) as [-> | Hne'].
  - destruct (String.eqb_spec k k0); [congruence | reflexivity].
  - simpl. now rewrite IH.
Qed.

Lemma map_delete_incl (k : string) (m : PlanetMap) :
  incl (map_delete k m) m.
Proof.
  induction m as [| [k0 v] m IH]; simpl; [apply incl_refl |].
  destruct (String.eqb k k0).
  - apply incl_tl, incl_refl.
  - intros x [E | Hin]; [now left | right; now apply IH].
Qed.

Lemma map_delete_keys_NoDup (k : string) (m : PlanetMap) :
  NoDup (map_keys m) -> NoDup (map_keys (map_delete k m)).
Proof.
  induction m as [| [k0 v] m IH]; simpl; [trivial |].
  intros Hnd. inversion Hnd as [| ? ? Hnotin Hnd']; subst.
  destruct (String.eqb k k0); [exact Hnd' |].
  simpl. constructor; [| now apply IH].
  intros Hin. apply Hnotin. unfold map_keys in *.
  apply in_map_iff in Hin as ([k1 v1] & E & Hin). simpl in E; subst.
  apply in_map_iff. exists (k0, v1). split; [reflexivity |].
  now apply (map_delete_incl k m).
Qed.

Lemma map_delete_values_NoDup (k : string) (m : PlanetMap) :
  NoDup (map_values m) -> NoDup (map_values (map_delete k m)).
Proof.
  induction m as [| [k0 v] m IH]; simpl; [trivial |].
  intros Hnd. inversion Hnd as [| ? ? Hnotin Hnd']; subst.
  destruct (String.eqb k k0); [exact Hnd' |].
  simpl. constructor; [| now apply IH].
  intros Hin. apply Hnotin. unfold map_values in *.
  apply in_map_iff in Hin as ([k1 v1] & E & Hin). simpl in E; subst.
  apply in_map_iff. exists (k1, v). split; [reflexivity |].
  now apply (map_delete_incl k m).
Qed.

Lemma map_get_delete_same (k : string) (m : PlanetMap) :
  NoDup (map_keys m) -> map_get k (map_delete k m) = None.
Proof.
  induction m as [| [k0 v] m IH]; simpl; [reflexivity |].
  intros Hnd. inversion Hnd as [| ? ? Hnotin Hnd']; subst.
  destruct (String.eqb_spec k k0) as [-> | Hne].
  - now apply map_get_None.
  - simpl. destruct (String.eqb_spec k k0); [congruence | now apply IH].
Qed.

Lemma map_set_fresh (k : string) (v : ref) (m : PlanetMap) :
  map_has k m = false -> map_set k v m = m ++ [(k, v)].
Proof.
  unfold map_has. induction m as [| [k0 v0] m IH]; simpl; [reflexivity |].
  destruct (String.eqb k k0); [discriminate |].
  intros H. now rewrite IH.
Qed.

Lemma map_get_set_same (k : string) (v : ref) (m : PlanetMap) :
  map_get k (map_set k v m) = Some v.
Proof.
  induction m as [| [k0 v0] m IH]; simpl.
  - now rewrite String.eqb_refl.
  - destruct (String.eqb_spec k k0) as [-> | Hne]; simpl.
    + now rewrite String.eqb_refl.
    + destruct (String.eqb_spec k k0); [congruence | exact IH].
Qed.

Lemma map_get_set_other (k k' : string) (v : ref) (m : PlanetMap) :
  k <> k' -> map_get k (map_set k' v m) = map_get k m.
Proof.
  intros Hne. induction m as [| [k0 v0] m IH]; simpl.
  - destruct (String.eqb_spec k k'); [congruence | reflexivity].
  - destruct (String.eqb_spec k' k0) as [-> | Hne']; simpl.
    + destruct (String.eqb_spec k k0); [congruence | reflexivity].
    + now rewrite IH.
Qed.

(** ** The scene graph *)

Lemma scene_remove_notin (o : Object3D) (l : list Object3D) :
  ~ In o l -> scene_remove o l = l.
Proof.
  induction l as [| o' l IH]; simpl; [reflexivity |].
  intros H. destruct (Object3D_eq_dec o o') as [-> | Hne].
  - exfalso. apply H. now left.
  - rewrite IH; [reflexivity | tauto].
Qed.

Lemma scene_remove_app_notin (o : Object3D) (l1 l2 : list Object3D) :
  ~ In o l1 -> scene_remove o (l1 ++ l2) = l1 ++ scene_remove o l2.
Proof.
  induction l1 as [| o' l1 IH]; simpl; [reflexivity |].
  intros H. destruct (Object3D_eq_dec o o') as [-> | Hne].
  - exfalso. apply H. now left.
  - rewrite IH; [reflexivity | tauto].
Qed.

Lemma group_not_initial (r : ref) : ~ In (OGroup r) initial_scene.
Proof. unfold initial_scene. simpl. intuition discriminate. Qed.

Lemma scene_remove_group (id : string) (r : ref) (m : PlanetMap) :
  NoDup (map_values m) ->
  map_get id m = Some r ->
  scene_remove (OGroup r) (List.map OGroup (map_values m))
  = List.map OGroup (map_values (map_delete id m)).
Proof.
  induction m as [| [k0 v0] m IH]; simpl; [discriminate |].
  intros Hnd Hget. inversion Hnd as [| ? ? Hnotin Hnd']; subst.
  destruct (String.eqb_spec id k0) as [-> | Hne].
  - injection Hget as ->.
    destruct (Object3D_eq_dec (OGroup r) (OGroup r)); [reflexivity | congruence].
  - destruct (Object3D_eq_dec (OGroup r) (OGroup v0)) as [E | _].
    + injection E as ->. exfalso. apply Hnotin.
      now apply map_get_value with (k := id).
    + simpl. f_equal. now apply IH.
Qed.

(** ** [removePlanet] and [createPlanet] keep the registry well formed *)

(** Reduce the projections of a component written out as a record. *)
Ltac fields :=
  cbn [fst snd scene objects planets aiEntity rig hover props
       animationFrameId audioContext random_calls
       hoveredPlanetId pointer cursor tooltipElement
       planetsData selectedPlanetId micStream isListening isSpeaking
       camera_position controls_target controls_autoRotate
       targetPosition targetLookAt] in *.

Lemma removePlanet_wf (id : string) (st : AxeeVisuals3D) :
  wf st -> wf (fst (removePlanet id st)).
Proof.
  intros [Hk Hv Hs Hsc Hh]. unfold removePlanet.
  destruct (map_get id (planets st)) as [r |] eqn:Hget; fields;
    [| now constructor].
  constructor; fields.
  - now apply map_delete_keys_NoDup.
  - now apply map_delete_values_NoDup.
  - intros k r' Hin. apply Hs. now apply (map_delete_incl id).
  - rewrite Hsc.
    rewrite scene_remove_app_notin by apply group_not_initial.
    f_equal. now apply scene_remove_group.
  - exact Hh.
Qed.

Lemma wf_ref_bound (st : AxeeVisuals3D) (r : ref) :
  wf st -> In r (map_values (planets st)) -> (r < List.length (objects st))%nat.
Proof.
  intros Hwf Hin. unfold map_values in Hin.
  apply in_map_iff in Hin as ([k r'] & E & Hin). simpl in E; subst.
  destruct (wf_store st Hwf _ _ Hin) as (g & Hg & _).
  apply nth_error_Some. congruence.
Qed.

Lemma wf_get (st : AxeeVisuals3D) (k : string) (r : ref) :
  wf st -> map_get k (planets st) = Some r ->
  exists g, nth_error (objects st) r = Some g /\ userData_id g = k.
Proof.
  intros Hwf Hget. apply (wf_store st Hwf). now apply map_get_In.
Qed.

Section RegistryInvariant.

Variable Math_random : nat -> R.

Lemma createPlanet_wf (data : PlanetData) (index : nat) (st : AxeeVisuals3D) :
  wf st ->
  map_has (celestial_body_id data) (planets st) = false ->
  wf (createPlanet Math_random data index st).
Proof.
  intros Hwf Hnew. pose proof Hwf as [Hk Hv Hs Hsc Hh].
  assert (Hfresh : ~ In (List.length (objects st)) (map_values (planets st))).
  { intros Hin. apply (wf_ref_bound st _ Hwf) in Hin. lia. }
  unfold createPlanet. constructor; fields.
  - rewrite map_set_fresh by exact Hnew.
    unfold map_keys. rewrite map_app. simpl.
    apply NoDup_app; [exact Hk | repeat constructor; simpl; tauto |].
    intros k Hin [E | []]. subst.
    now apply map_has_false in Hnew.
  - rewrite map_set_fresh by exact Hnew.
    unfold map_values. rewrite map_app. simpl.
    apply NoDup_app; [exact Hv | repeat constructor; simpl; tauto |].
    intros r Hin [E | []]. subst. now apply Hfresh.
  - rewrite map_set_fresh by exact Hnew.
    intros k r Hin. apply in_app_or in Hin as [Hin | [E | []]].
    + destruct (Hs _ _ Hin) as (g & Hg & Hid).
      exists g. split; [| exact Hid].
      rewrite nth_error_app1; [exact Hg |].
      apply nth_error_Some. congruence.
    + injection E as <- <-.
      eexists. split.
      * rewrite nth_error_app2 by lia. rewrite Nat.sub_diag. reflexivity.
      * reflexivity.
  - rewrite map_set_fresh by exact Hnew.
    unfold scene_add. rewrite scene_remove_notin.
    + rewrite Hsc. unfold map_values. rewrite map_app, map_app, <- app_assoc.
      reflexivity.
    + rewrite Hsc. intros Hin. apply in_app_or in Hin as [Hin | Hin].
      * now apply group_not_initial in Hin.
      * apply in_map_iff in Hin as (r & E & Hin). injection E as ->.
        now apply Hfresh.
  - exact Hh.
Qed.

Lemma remove_old_wf (ids keys : list string) (st : AxeeVisuals3D) :
  wf st -> wf (fst (remove_old ids keys st)).
Proof.
  revert st. induction keys as [| id keys IH]; intros st Hwf; simpl;
    [exact Hwf |].
  destruct (negb (array_includes ids id)).
  - pose proof (removePlanet_wf id st Hwf) as Hwf1.
    destruct (removePlanet id st) as [st1 e1]. simpl in Hwf1.
    specialize (IH st1 Hwf1).
    destruct (remove_old ids keys st1) as [st2 e2]. exact IH.
  - now apply IH.
Qed.

Lemma add_new_wf (data : list PlanetData) (index : nat) (st : AxeeVisuals3D) :
  wf st -> wf (add_new Math_random data index st).
Proof.
  revert index st. induction data as [| d data IH]; intros index st Hwf; simpl;
    [exact Hwf |].
  destruct (map_has (celestial_body_id d) (planets st)) eqn:Hhas; simpl.
  - now apply IH.
  - apply IH. now apply createPlanet_wf.
Qed.

Lemma set_props_wf (p : Properties) (st : AxeeVisuals3D) :
  wf st -> wf (set_props p st).
Proof. intros [Hk Hv Hs Hsc Hh]. now constructor. Qed.

Lemma updatePlanets_wf (st : AxeeVisuals3D) :
  wf st -> wf (fst (updatePlanets Math_random st)).
Proof.
  intros Hwf. unfold updatePlanets.
  pose proof (remove_old_wf
                (List.map celestial_body_id (planetsData (props st)))
                (map_keys (planets st)) st Hwf) as H1.
  destruct (remove_old _ _ st) as [st1 e]. simpl in *.
  now apply add_new_wf.
Qed.

Lemma reconcile_wf (snapshot : list PlanetData) (st : AxeeVisuals3D) :
  wf st -> wf (fst (reconcile Math_random snapshot st)).
Proof.
  intros Hwf. unfold reconcile. apply updatePlanets_wf.
  now apply set_props_wf.
Qed.

End RegistryInvariant.

Lemma init_state_wf : wf init_state.
Proof.
  constructor; simpl.
  - constructor.
  - constructor.
  - intros k r [].
  - reflexivity.
  - discriminate.
Qed.

(** ** What [updatePlanets] removes *)

Lemma removePlanet_objects (id : string) (st : AxeeVisuals3D) :
  objects (fst (removePlanet id st)) = objects st.
Proof. unfold removePlanet. now destruct (map_get id (planets st)). Qed.

Lemma removePlanet_get (id k : string) (st : AxeeVisuals3D) :
  NoDup (map_keys (planets st)) ->
  map_get k (planets (fst (removePlanet id st)))
  = if String.eqb k id then None else map_get k (planets st).
Proof.
  intros Hnd. unfold removePlanet.
  destruct (map_get id (planets st)) as [r |] eqn:Hget; fields.
  - destruct (String.eqb_spec k id) as [-> | Hne].
    + now apply map_get_delete_same.
    + now apply map_get_delete_other.
  - destruct (String.eqb_spec k id) as [-> | Hne]; [exact Hget | reflexivity].
Qed.

Lemma removePlanet_keys_NoDup (id : string) (st : AxeeVisuals3D) :
  NoDup (map_keys (planets st)) ->
  NoDup (map_keys (planets (fst (removePlanet id st)))).
Proof.
  intros Hnd. unfold removePlanet.
  destruct (map_get id (planets st)); fields; [| exact Hnd].
  now apply map_delete_keys_NoDup.
Qed.

Lemma removePlanet_rest (id : string) (st : AxeeVisuals3D) :
  let st' := fst (removePlanet id st) in
  aiEntity st' = aiEntity st /\ rig st' = rig st /\ hover st' = hover st
  /\ props st' = props st /\ animationFrameId st' = animationFrameId st
  /\ audioContext st' = audioContext st /\ random_calls st' = random_calls st.
Proof.
  unfold removePlanet. destruct (map_get id (planets st)); fields; tauto.
Qed.

Lemma remove_old_objects (ids keys : list string) (st : AxeeVisuals3D) :
  objects (fst (remove_old ids keys st)) = objects st.
Proof.
  revert st. induction keys as [| id keys IH]; intros st; simpl; [reflexivity |].
  destruct (negb (array_includes ids id)); [| apply IH].
  pose proof (removePlanet_objects id st) as H1.
  destruct (removePlanet id st) as [st1 e1]. simpl in H1.
  specialize (IH st1). destruct (remove_old ids keys st1) as [st2 e2].
  simpl in *. congruence.
Qed.

Lemma remove_old_rest (ids keys : list string) (st : AxeeVisuals3D) :
  let st' := fst (remove_old ids keys st) in
  aiEntity st' = aiEntity st /\ rig st' = rig st /\ hover st' = hover st
  /\ props st' = props st /\ animationFrameId st' = animationFrameId st
  /\ audioContext st' = audioContext st /\ random_calls st' = random_calls st.
Proof.
  revert st. induction keys as [| id keys IH]; intros st; simpl; [tauto |].
  destruct (negb (array_includes ids id)); [| apply IH].
  pose proof (removePlanet_rest id st) as H1.
  destruct (removePlanet id st) as [st1 e1]. simpl in H1.
  specialize (IH st1). destruct (remove_old ids keys st1) as [st2 e2].
  simpl in *. intuition congruence.
Qed.

Lemma remove_old_get (ids keys : list string) (k : string) (st : AxeeVisuals3D) :
  NoDup (map_keys (planets st)) ->
  map_get k (planets (fst (remove_old ids keys st)))
  = if array_includes keys k && negb (array_includes ids k)
    then None else map_get k (planets st).
Proof.
  revert st. induction keys as [| id keys IH]; intros st Hnd; simpl;
    [reflexivity |].
  destruct (array_includes ids id) eqn:Hid; simpl.
  - rewrite IH by exact Hnd.
    destruct (String.eqb_spec k id) as [-> | Hne]; simpl; [| reflexivity].
    rewrite Hid. simpl. now rewrite andb_false_r.
  - pose proof (removePlanet_get id k st Hnd) as Hg.
    pose proof (removePlanet_keys_NoDup id st Hnd) as Hnd1.
    destruct (removePlanet id st) as [st1 e1]. simpl in Hg, Hnd1.
    specialize (IH st1 Hnd1).
    destruct (remove_old ids keys st1) as [st2 e2]. simpl in *.
    rewrite IH, Hg.
    destruct (String.eqb_spec k id) as [-> | Hne]; simpl.
    + rewrite Hid. simpl. now destruct (array_includes keys id).
    + reflexivity.
Qed.

Lemma flat_map_ext_in {A B : Type} (f g : A -> list B) (l : list A) :
  (forall a, In a l -> f a = g a) -> flat_map f l = flat_map g l.
Proof.
  induction l as [| a l IH]; simpl; [reflexivity |].
  intros H. rewrite (H a) by now left. f_equal. apply IH.
  intros b Hb. apply H. now right.
Qed.

Lemma removePlanet_effects_other (id k : string) (st : AxeeVisuals3D) :
  k <> id ->
  snd (removePlanet k (fst (removePlanet id st))) = snd (removePlanet k st).
Proof.
  intros Hne. unfold removePlanet at 1 3.
  assert (Hg : map_get k (planets (fst (removePlanet id st)))
               = map_get k (planets st)).
  { unfold removePlanet. destruct (map_get id (planets st)); fields;
      [now apply map_get_delete_other | reflexivity]. }
  rewrite Hg, removePlanet_objects.
  now destruct (map_get k (planets st)).
Qed.

Lemma remove_old_effects (ids keys : list string) (st : AxeeVisuals3D) :
  NoDup keys ->
  snd (remove_old ids keys st)
  = flat_map (fun k => if negb (array_includes ids k)
                       then snd (removePlanet k st) else []) keys.
Proof.
  revert st. induction keys as [| id keys IH]; intros st Hnd; simpl;
    [reflexivity |].
  inversion Hnd as [| ? ? Hnotin Hnd']; subst.
  destruct (negb (array_includes ids id)) eqn:Hid.
  - pose proof (fun k => removePlanet_effects_other id k st) as Ho.
    destruct (removePlanet id st) as [st1 e1]. simpl in Ho.
    specialize (IH st1 Hnd').
    destruct (remove_old ids keys st1) as [st2 e2]. simpl in *.
    rewrite IH. f_equal. apply flat_map_ext_in.
    intros k Hk. destruct (negb (array_includes ids k)); [| reflexivity].
    apply Ho. intros ->. contradiction.
  - simpl. now apply IH.
Qed.

Lemma remove_old_noop (ids keys : list string) (st : AxeeVisuals3D) :
  (forall k, In k keys -> In k ids) ->
  remove_old ids keys st = (st, []).
Proof.
  induction keys as [| id keys IH]; intros H; simpl; [reflexivity |].
  assert (Hid : array_includes ids id = true).
  { apply array_includes_In, H. now left. }
  rewrite Hid. simpl. apply IH. intros k Hk. apply H. now right.
Qed.

(** ** What [updatePlanets] adds *)

Section Additions.

Variable Math_random : nat -> R.

Lemma createPlanet_rest (d : PlanetData) (index : nat) (st : AxeeVisuals3D) :
  let st' := createPlanet Math_random d index st in
  aiEntity st' = aiEntity st /\ rig st' = rig st /\ hover st' = hover st
  /\ props st' = props st /\ animationFrameId st' = animationFrameId st
  /\ audioContext st' = audioContext st.
Proof. unfold createPlanet; fields; tauto. Qed.

Lemma createPlanet_new (d : PlanetData) (index : nat) (st : AxeeVisuals3D) :
  let st' := createPlanet Math_random d index st in
  exists g,
    map_get (celestial_body_id d) (planets st') = Some (List.length (objects st))
    /\ nth_error (objects st') (List.length (objects st)) = Some g
    /\ userData_id g = celestial_body_id d
    /\ userData_orbitalRadius g = baseRadius + INR index * radiusStep
    /\ userData_orbitSpeed g = 0.1 + Math_random (random_calls st) * 0.1.
Proof.
  unfold createPlanet; fields. eexists. split; [apply map_get_set_same |].
  split.
  - rewrite nth_error_app2 by lia. rewrite Nat.sub_diag. reflexivity.
  - repeat split.
Qed.

Lemma createPlanet_get_other (d : PlanetData) (index : nat) (st : AxeeVisuals3D)
      (k : string) :
  k <> celestial_body_id d ->
  map_get k (planets (createPlanet Math_random d index st))
  = map_get k (planets st).
Proof. intros Hne. unfold createPlanet; fields. now apply map_get_set_other. Qed.

Lemma createPlanet_objects (d : PlanetData) (index : nat) (st : AxeeVisuals3D) :
  exists g, objects (createPlanet Math_random d index st) = objects st ++ [g].
Proof. unfold createPlanet; fields. eexists. reflexivity. Qed.

Lemma add_new_rest (data : list PlanetData) (index : nat) (st : AxeeVisuals3D) :
  let st' := add_new Math_random data index st in
  aiEntity st' = aiEntity st /\ rig st' = rig st /\ hover st' = hover st
  /\ props st' = props st /\ animationFrameId st' = animationFrameId st
  /\ audioContext st' = audioContext st.
Proof.
  revert index st. induction data as [| d data IH]; intros index st; simpl;
    [tauto |].
  destruct (negb (map_has (celestial_body_id d) (planets st))); [| apply IH].
  pose proof (createPlanet_rest d index st) as H1.
  specialize (IH (S index) (createPlanet Math_random d index st)).
  simpl in *. intuition congruence.
Qed.

Lemma add_new_objects (data : list PlanetData) (index : nat) (st : AxeeVisuals3D) :
  exists ext, objects (add_new Math_random data index st) = objects st ++ ext.
Proof.
  revert index st. induction data as [| d data IH]; intros index st; simpl.
  - exists []. now rewrite app_nil_r.
  - destruct (negb (map_has (celestial_body_id d) (planets st))); [| apply IH].
    destruct (createPlanet_objects d index st) as [g Hg].
    destruct (IH (S index) (createPlanet Math_random d index st)) as [ext Hext].
    exists (g :: ext). rewrite Hext, Hg, <- app_assoc. reflexivity.
Qed.

Lemma add_new_nth_old (data : list PlanetData) (index : nat) (st : AxeeVisuals3D)
      (r : ref) (g : Group) :
  nth_error (objects st) r = Some g ->
  nth_error (objects (add_new Math_random data index st)) r = Some g.
Proof.
  intros H. destruct (add_new_objects data index st) as [ext ->].
  rewrite nth_error_app1; [exact H |]. apply nth_error_Some. congruence.
Qed.

Lemma add_new_get_old (data : list PlanetData) (index : nat) (st : AxeeVisuals3D)
      (k : string) (r : ref) :
  map_get k (planets st) = Some r ->
  map_get k (planets (add_new Math_random data index st)) = Some r.
Proof.
  revert index st. induction data as [| d data IH]; intros index st Hget; simpl;
    [exact Hget |].
  destruct (map_has (celestial_body_id d) (planets st)) eqn:Hhas; simpl.
  - now apply IH.
  - apply IH. rewrite createPlanet_get_other; [exact Hget |].
    intros ->. unfold map_has in Hhas. now rewrite Hget in Hhas.
Qed.

Lemma add_new_has (data : list PlanetData) (index : nat) (st : AxeeVisuals3D)
      (k : string) :
  map_has k (planets (add_new Math_random data index st)) = true
  <-> map_has k (planets st) = true \/ In k (List.map celestial_body_id data).
Proof.
  revert index st. induction data as [| d data IH]; intros index st; simpl;
    [tauto |].
  destruct (map_has (celestial_body_id d) (planets st)) eqn:Hhas; simpl.
  - rewrite IH. split; [tauto |].
    intros [H | [E | H]]; [tauto | subst; tauto | tauto].
  - rewrite IH.
    assert (Hk : map_has k (planets (createPlanet Math_random d index st)) = true
                 <-> map_has k (planets st) = true \/ celestial_body_id d = k).
    { unfold map_has.
      destruct (string_dec k (celestial_body_id d)) as [-> | Hne].
      - destruct (createPlanet_new d index st) as (g & Hg & _).
        rewrite Hg. tauto.
      - rewrite createPlanet_get_other by exact Hne.
        split; [tauto | intros [H | E]; [exact H | congruence]]. }
    rewrite Hk. tauto.
Qed.

Lemma add_new_noop (data : list PlanetData) (index : nat) (st : AxeeVisuals3D) :
  (forall d, In d data -> map_has (celestial_body_id d) (planets st) = true) ->
  add_new Math_random data index st = st.
Proof.
  revert index. induction data as [| d data IH]; intros index H; simpl;
    [reflexivity |].
  rewrite (H d) by now left. simpl. apply IH.
  intros d' Hd'. apply H. now right.
Qed.

(** The record at position [i] of the list, when its id is neither live
    nor carried by an earlier record, is created with index
    [index + i]. *)
Lemma add_new_created (data : list PlanetData) (index : nat) (st : AxeeVisuals3D)
      (i : nat) (d : PlanetData) :
  nth_error data i = Some d ->
  map_has (celestial_body_id d) (planets st) = false ->
  (forall j d', (j < i)%nat -> nth_error data j = Some d' ->
                celestial_body_id d' <> celestial_body_id d) ->
  exists r g,
    map_get (celestial_body_id d) (planets (add_new Math_random data index st))
    = Some r
    /\ nth_error (objects (add_new Math_random data index st)) r = Some g
    /\ (List.length (objects st) <= r)%nat
    /\ userData_id g = celestial_body_id d
    /\ userData_orbitalRadius g = baseRadius + INR (index + i) * radiusStep.
Proof.
  revert index st i.
  induction data as [| d0 data IH]; intros index st i Hnth Hnew Hfirst.
  - destruct i; discriminate.
  - destruct i as [| i]; simpl in Hnth.
    + injection Hnth as ->. simpl. rewrite Hnew. simpl.
      destruct (createPlanet_new d index st) as (g & Hg & Ho & Hid & Hr & _).
      exists (List.length (objects st)), g.
      split; [now apply add_new_get_old |].
      split; [now apply add_new_nth_old |].
      split; [lia |]. split; [exact Hid |].
      rewrite Nat.add_0_r. exact Hr.
    + assert (Hne : celestial_body_id d0 <> celestial_body_id d).
      { apply (Hfirst 0%nat d0); [lia | reflexivity]. }
      assert (Hfirst' : forall j d', (j < i)%nat -> nth_error data j = Some d' ->
                          celestial_body_id d' <> celestial_body_id d).
      { intros j d' Hj Hd'. apply (Hfirst (S j) d'); [lia | exact Hd']. }
      simpl.
      destruct (map_has (celestial_body_id d0) (planets st)) eqn:Hhas; simpl.
      * destruct (IH (S index) st i Hnth Hnew Hfirst')
          as (r & g & H1 & H2 & H3 & H4 & H5).
        exists r, g. repeat split; try assumption.
        rewrite H5. now replace (S index + i)%nat with (index + S i)%nat by lia.
      * set (st1 := createPlanet Math_random d0 index st).
        assert (Hnew1 : map_has (celestial_body_id d) (planets st1) = false).
        { unfold map_has, st1. rewrite createPlanet_get_other by congruence.
          exact Hnew. }
        destruct (IH (S index) st1 i Hnth Hnew1 Hfirst')
          as (r & g & H1 & H2 & H3 & H4 & H5).
        exists r, g. repeat split; try assumption.
        -- destruct (createPlanet_objects d0 index st) as [g0 Hg0].
           fold st1 in Hg0. rewrite Hg0, length_app in H3. simpl in H3. lia.
        -- rewrite H5.
           now replace (S index + i)%nat with (index + S i)%nat by lia.
Qed.

End Additions.

(** ** Counting resource releases *)

Lemma dispose_meshes_In (r : ref) (j : nat) (ms : list Mesh) (e : Effect) :
  In e (dispose_meshes r j ms) ->
  exists i, (j <= i < j + List.length ms)%nat
            /\ (e = GeometryDispose (OMesh r i) \/ e = MaterialDispose (OMesh r i)).
Proof.
  revert j. induction ms as [| m ms IH]; intros j; simpl; [tauto |].
  intros [E | [E | Hin]].
  - exists j. split; [lia | now left].
  - exists j. split; [lia | now right].
  - destruct (IH _ Hin) as (i & Hi & He). exists i. split; [lia | exact He].
Qed.

Lemma dispose_meshes_once (r : ref) (j : nat) (ms : list Mesh) (i : nat) :
  (j <= i < j + List.length ms)%nat ->
  count_occ Effect_eq_dec (dispose_meshes r j ms) (GeometryDispose (OMesh r i)) = 1%nat
  /\ count_occ Effect_eq_dec (dispose_meshes r j ms) (MaterialDispose (OMesh r i)) = 1%nat.
Proof.
  revert j. induction ms as [| m ms IH]; intros j Hi; simpl in Hi; [lia |].
  cbn [dispose_meshes].
  destruct (Nat.eq_dec i j) as [-> | Hne].
  - assert (Hrest : forall e, (e = GeometryDispose (OMesh r j)
                               \/ e = MaterialDispose (OMesh r j)) ->
                              count_occ Effect_eq_dec (dispose_meshes r (S j) ms) e = 0%nat).
    { intros e He. apply count_occ_not_In. intros Hin.
      apply dispose_meshes_In in Hin as (i' & Hi' & He').
      destruct He as [-> | ->], He' as [E | E]; inversion E; lia. }
    split.
    + rewrite count_occ_cons_eq by reflexivity.
      rewrite count_occ_cons_neq by discriminate.
      rewrite Hrest by now left. reflexivity.
    + rewrite count_occ_cons_neq by discriminate.
      rewrite count_occ_cons_eq by reflexivity.
      rewrite Hrest by now right. reflexivity.
  - assert (Hi' : (S j <= i < S j + List.length ms)%nat) by lia.
    destruct (IH (S j) Hi') as [Hg Hm].
    split.
    + rewrite !count_occ_cons_neq; [exact Hg | discriminate | congruence].
    + rewrite !count_occ_cons_neq; [exact Hm | congruence | discriminate].
Qed.

Lemma count_flat_map_one {A : Type} (f : A -> list Effect) (l : list A)
      (x : A) (e : Effect) :
  NoDup l -> In x l ->
  (forall y, In y l -> y <> x -> ~ In e (f y)) ->
  count_occ Effect_eq_dec (flat_map f l) e = count_occ Effect_eq_dec (f x) e.
Proof.
  induction l as [| a l IH]; intros Hnd Hin Hother; [destruct Hin |].
  inversion Hnd as [| ? ? Hnotin Hnd']; subst.
  simpl. rewrite count_occ_app.
  destruct Hin as [-> | Hin].
  - assert (Hz : count_occ Effect_eq_dec (flat_map f l) e = 0%nat).
    { apply count_occ_not_In. intros H. apply in_flat_map in H as (y & Hy & He).
      apply (Hother y); [now right | intros ->; contradiction | exact He]. }
    rewrite Hz. lia.
  - assert (Hz : count_occ Effect_eq_dec (f a) e = 0%nat).
    { apply count_occ_not_In. apply Hother; [now left | intros ->; contradiction]. }
    rewrite Hz. simpl. apply IH; [exact Hnd' | exact Hin |].
    intros y Hy. apply Hother. now right.
Qed.

Lemma first_occurrence (data : list PlanetData) (id : string) :
  In id (List.map celestial_body_id data) ->
  exists i d, nth_error data i = Some d /\ celestial_body_id d = id
              /\ forall j d', (j < i)%nat -> nth_error data j = Some d' ->
                              celestial_body_id d' <> id.
Proof.
  induction data as [| d0 data IH]; simpl; [tauto |].
  intros Hin.
  destruct (string_dec (celestial_body_id d0) id) as [E | Hne].
  - exists 0%nat, d0. repeat split; [exact E |]. intros j d' Hj. lia.
  - destruct Hin as [E | Hin]; [contradiction |].
    destruct (IH Hin) as (i & d & Hnth & Hid & Hfirst).
    exists (S i), d. repeat split; [exact Hnth | exact Hid |].
    intros [| j] d' Hj Hd'; simpl in Hd'.
    + injection Hd' as <-. exact Hne.
    + apply (Hfirst j d'); [lia | exact Hd'].
Qed.

Lemma wf_ref_key (st : AxeeVisuals3D) (k k' : string) (r : ref) :
  wf st ->
  map_get k (planets st) = Some r -> map_get k' (planets st) = Some r -> k = k'.
Proof.
  intros Hwf H1 H2.
  destruct (wf_get st k r Hwf H1) as (g & Hg & <-).
  destruct (wf_get st k' r Hwf H2) as (g' & Hg' & <-).
  congruence.
Qed.

Lemma wf_group_in_scene (st : AxeeVisuals3D) (r : ref) :
  wf st -> (In (OGroup r) (scene st) <-> In r (map_values (planets st))).
Proof.
  intros Hwf. rewrite (wf_scene st Hwf), in_app_iff, in_map_iff. split.
  - intros [H | (r' & E & H)]; [now apply group_not_initial in H |].
    injection E as ->. exact H.
  - intros H. right. now exists r.
Qed.

Lemma updatePlanets_unfold (Math_random : nat -> R) (st : AxeeVisuals3D) :
  updatePlanets Math_random st
  = (add_new Math_random (planetsData (props st)) 0
       (fst (remove_old (List.map celestial_body_id (planetsData (props st)))
                        (map_keys (planets st)) st)),
     snd (remove_old (List.map celestial_body_id (planetsData (props st)))
                     (map_keys (planets st)) st)).
Proof. unfold updatePlanets. now destruct (remove_old _ _ st). Qed.

Lemma removePlanet_effect_In (id : string) (st : AxeeVisuals3D) (e : Effect) :
  In e (snd (removePlanet id st)) ->
  exists r g i,
    map_get id (planets st) = Some r /\ nth_error (objects st) r = Some g
    /\ (i < List.length (children g))%nat
    /\ (e = GeometryDispose (OMesh r i) \/ e = MaterialDispose (OMesh r i)).
Proof.
  unfold removePlanet.
  destruct (map_get id (planets st)) as [r |]; [| intros []].
  cbn [snd]. destruct (nth_error (objects st) r) as [g |] eqn:Hg; [| intros []].
  intros Hin. apply dispose_meshes_In in Hin as (i & Hi & He).
  exists r, g, i.
  split; [reflexivity |]. split; [exact Hg |]. split; [lia | exact He].
Qed.

Lemma removePlanet_effects_live (id : string) (st : AxeeVisuals3D)
      (r : ref) (g : Group) :
  map_get id (planets st) = Some r -> nth_error (objects st) r = Some g ->
  snd (removePlanet id st) = dispose_meshes r 0 (children g).
Proof. intros H1 H2. unfold removePlanet. now rewrite H1, H2. Qed.

Lemma remove_old_effect_In (ids keys : list string) (st : AxeeVisuals3D)
      (e : Effect) :
  NoDup keys ->
  In e (snd (remove_old ids keys st)) ->
  exists id r g i,
    In id keys /\ ~ In id ids
    /\ map_get id (planets st) = Some r /\ nth_error (objects st) r = Some g
    /\ (i < List.length (children g))%nat
    /\ (e = GeometryDispose (OMesh r i) \/ e = MaterialDispose (OMesh r i)).
Proof.
  intros Hnd. rewrite remove_old_effects by exact Hnd.
  intros Hin. apply in_flat_map in Hin as (id & Hid & He).
  destruct (array_includes ids id) eqn:Hinc; simpl in He; [destruct He |].
  apply removePlanet_effect_In in He as (r & g & i & H1 & H2 & H3 & H4).
  exists id, r, g, i. repeat split; try assumption.
  now apply array_includes_false.
Qed.

(** ** Reconciliation *)

(** C1. For every well-formed registry and every snapshot, after
    [reconcile] the live ids are exactly the ids of the snapshot. A body
    whose id is absent from the snapshot leaves the map and the scene,
    and the geometry and the material of each of its meshes are released
    exactly once; an id of the snapshot that was not live gets a freshly
    created body; a body whose id stays in the snapshot is kept as it is
    and nothing of it is released; and nothing is released but meshes of
    removed bodies. *)
Theorem reconcile_live_ids :
  forall (Math_random : nat -> R) (st : AxeeVisuals3D)
         (snapshot : list PlanetData),
    wf st ->
    let ids := List.map celestial_body_id snapshot in
    let st' := fst (reconcile Math_random snapshot st) in
    let released := snd (reconcile Math_random snapshot st) in
    (forall id, map_has id (planets st') = true <-> In id ids)
    /\ (forall id r g,
          map_get id (planets st) = Some r ->
          nth_error (objects st) r = Some g ->
          ~ In id ids ->
          map_has id (planets st') = false
          /\ ~ In (OGroup r) (scene st')
          /\ forall i, (i < List.length (children g))%nat ->
               count_occ Effect_eq_dec released (GeometryDispose (OMesh r i)) = 1%nat
               /\ count_occ Effect_eq_dec released (MaterialDispose (OMesh r i)) = 1%nat)
    /\ (forall id,
          In id ids -> map_has id (planets st) = false ->
          exists r g,
            map_get id (planets st') = Some r
            /\ nth_error (objects st') r = Some g
            /\ userData_id g = id
            /\ (List.length (objects st) <= r)%nat
            /\ In (OGroup r) (scene st'))
    /\ (forall id r,
          map_get id (planets st) = Some r -> In id ids ->
          map_get id (planets st') = Some r
          /\ nth_error (objects st') r = nth_error (objects st) r
          /\ In (OGroup r) (scene st')
          /\ forall i, ~ In (GeometryDispose (OMesh r i)) released
                       /\ ~ In (MaterialDispose (OMesh r i)) released)
    /\ (forall e, In e released ->
          exists id r g i,
            map_get id (planets st) = Some r /\ nth_error (objects st) r = Some g
            /\ ~ In id ids /\ (i < List.length (children g))%nat
            /\ (e = GeometryDispose (OMesh r i) \/ e = MaterialDispose (OMesh r i))).
Proof.
  intros rnd st snapshot Hwf.
  pose proof (reconcile_wf rnd snapshot st Hwf) as Hwf'.
  cbv zeta. unfold reconcile in *. rewrite updatePlanets_unfold in *.
  cbn [fst snd] in *.
  set (st0 := set_planetsData snapshot st) in *.
  assert (Hwf0 : wf st0) by now apply set_props_wf.
  change (planetsData (props st0)) with snapshot in *.
  change (planets st0) with (planets st) in *.
  set (ids := List.map celestial_body_id snapshot) in *.
  set (keys := map_keys (planets st)) in *.
  set (st1 := fst (remove_old ids keys st0)) in *.
  set (st' := add_new rnd snapshot 0 st1) in *.
  set (released := snd (remove_old ids keys st0)) in *.
  assert (Hkeys : NoDup keys) by apply (wf_keys st Hwf).
  assert (F1 : forall k, map_get k (planets st1)
                         = if array_includes ids k then map_get k (planets st)
                           else None).
  { intros k. unfold st1. rewrite remove_old_get by apply (wf_keys st0 Hwf0).
    change (planets st0) with (planets st).
    destruct (array_includes ids k); [now rewrite andb_false_r |].
    rewrite andb_true_r. destruct (array_includes keys k) eqn:Hk; [reflexivity |].
    apply array_includes_false in Hk. now apply map_get_None. }
  assert (F2 : objects st1 = objects st)
    by exact (remove_old_objects ids keys st0).
  assert (Hold : forall r g, nth_error (objects st) r = Some g ->
                             nth_error (objects st') r = Some g).
  { intros r g Hg. apply add_new_nth_old. now rewrite F2. }
  assert (Hrel : forall e, In e released ->
            exists id r g i,
              map_get id (planets st) = Some r /\ nth_error (objects st) r = Some g
              /\ ~ In id ids /\ (i < List.length (children g))%nat
              /\ (e = GeometryDispose (OMesh r i) \/ e = MaterialDispose (OMesh r i))).
  { intros e He. apply remove_old_effect_In in He; [| exact Hkeys].
    destruct He as (id & r & g & i & _ & H2 & H3 & H4 & H5 & H6).
    exists id, r, g, i. repeat split; assumption. }
  assert (P1 : forall id, map_has id (planets st') = true <-> In id ids).
  { intros id. unfold st'. rewrite add_new_has. fold ids. split; [| tauto].
    intros [H | H]; [| exact H]. unfold map_has in H. rewrite F1 in H.
    destruct (array_includes ids id) eqn:Hinc; [| discriminate].
    now apply array_includes_In. }
  split; [exact P1 |]. split; [| split; [| split; [| exact Hrel]]].
  - (* bodies whose id left the snapshot *)
    intros id r g Hget Hg Hout.
    assert (Hdead : map_has id (planets st') = false).
    { destruct (map_has id (planets st')) eqn:E; [| reflexivity].
      apply P1 in E. contradiction. }
    split; [exact Hdead |]. split.
    + intros Hin. apply (wf_group_in_scene st' r Hwf') in Hin.
      unfold map_values in Hin. apply in_map_iff in Hin as ([k r'] & E & Hin).
      simpl in E; subst r'.
      destruct (wf_store st' Hwf' _ _ Hin) as (g' & Hg' & Hid').
      rewrite (Hold r g Hg) in Hg'. injection Hg' as <-.
      destruct (wf_get st id r Hwf Hget) as (g0 & Hg0 & Hid0).
      assert (Ek : k = id) by congruence.
      rewrite Ek in Hin.
      apply In_map_get in Hin; [| apply (wf_keys st' Hwf')].
      unfold map_has in Hdead. rewrite Hin in Hdead. discriminate.
    + intros i Hi. unfold released.
      rewrite remove_old_effects by exact Hkeys.
      assert (Hinc : array_includes ids id = false)
        by now apply array_includes_false.
      assert (Hone : forall e,
                 (e = GeometryDispose (OMesh r i) \/ e = MaterialDispose (OMesh r i)) ->
                 count_occ Effect_eq_dec
                   (flat_map (fun k => if negb (array_includes ids k)
                                       then snd (removePlanet k st0) else []) keys) e
                 = count_occ Effect_eq_dec (dispose_meshes r 0 (children g)) e).
      { intros e He.
        rewrite (count_flat_map_one _ keys id e Hkeys).
        - rewrite Hinc. cbn [negb].
          now rewrite (removePlanet_effects_live id st0 r g Hget Hg).
        - apply map_has_In. unfold map_has. now rewrite Hget.
        - intros y Hy Hne Hin.
          destruct (array_includes ids y); simpl in Hin; [destruct Hin |].
          apply removePlanet_effect_In in Hin
            as (r' & g' & i' & H1 & H2 & H3 & H4).
          change (planets st0) with (planets st) in H1.
          assert (r' = r) by (destruct He as [-> | ->], H4 as [E | E];
                              inversion E; reflexivity).
          subst r'. apply Hne. now apply (wf_ref_key st y id r Hwf). }
      destruct (dispose_meshes_once r 0 (children g) i ltac:(lia)) as [Hg1 Hm1].
      split; (rewrite Hone; [assumption | tauto]).
  - (* ids of the snapshot that were not live *)
    intros id Hin Hnew.
    destruct (first_occurrence snapshot id Hin) as (i & d & Hnth & Hid & Hfirst).
    subst id.
    assert (Hnew1 : map_has (celestial_body_id d) (planets st1) = false).
    { unfold map_has in *. rewrite F1.
      destruct (array_includes ids (celestial_body_id d)); [exact Hnew | reflexivity]. }
    destruct (add_new_created rnd snapshot 0 st1 i d Hnth Hnew1 Hfirst)
      as (r & g & H1 & H2 & H3 & H4 & _).
    exists r, g. repeat split; try assumption.
    + now rewrite <- F2.
    + apply (wf_group_in_scene st' r Hwf'). now apply map_get_value in H1.
  - (* bodies whose id stays in the snapshot *)
    intros id r Hget Hin.
    assert (Hget' : map_get id (planets st') = Some r).
    { apply add_new_get_old. rewrite F1.
      apply array_includes_In in Hin. now rewrite Hin. }
    split; [exact Hget' |].
    destruct (wf_get st id r Hwf Hget) as (g & Hg & _).
    split; [rewrite Hg; now apply Hold |].
    split; [apply (wf_group_in_scene st' r Hwf'); now apply map_get_value in Hget' |].
    intros i.
    assert (Hno : forall e,
               (e = GeometryDispose (OMesh r i) \/ e = MaterialDispose (OMesh r i)) ->
               ~ In e released).
    { intros e He Hrelin.
      destruct (Hrel e Hrelin) as (id' & r' & g' & i' & H1 & H2 & H3 & H4 & H5).
      assert (r' = r) by (destruct He as [-> | ->], H5 as [E | E];
                          inversion E; reflexivity).
      subst r'. apply H3.
      now rewrite (wf_ref_key st id' id r Hwf H1 Hget). }
    split; apply Hno; tauto.
Qed.

Lemma two_planets_wf : wf two_planets.
Proof. apply reconcile_wf, init_state_wf. Qed.

(** C1, at a concrete registry: [earth] and [saturn] are live and the
    next snapshot holds [saturn] only. *)
Lemma reconcile_live_ids_witness :
  wf two_planets
  /\ (forall id,
        map_has id (planets (fst (reconcile half_random [saturn] two_planets))) = true
        <-> In id ["saturn"%string]).
Proof.
  split; [exact two_planets_wf |].
  exact (proj1 (reconcile_live_ids half_random two_planets [saturn] two_planets_wf)).
Defined.

Lemma remove_old_has_false (ids keys : list string) (k : string)
      (st : AxeeVisuals3D) :
  map_has k (planets st) = false ->
  map_has k (planets (fst (remove_old ids keys st))) = false.
Proof.
  revert st. induction keys as [| id keys IH]; intros st H; simpl; [exact H |].
  destruct (negb (array_includes ids id)); [| now apply IH].
  assert (H1 : map_has k (planets (fst (removePlanet id st))) = false).
  { unfold removePlanet. destruct (map_get id (planets st)); fields; [| exact H].
    apply map_has_false. apply map_has_false in H. intros Hin. apply H.
    unfold map_keys in *. apply in_map_iff in Hin as (kv & E & Hin).
    apply in_map_iff. exists kv. split; [exact E |].
    now apply (map_delete_incl id). }
  destruct (removePlanet id st) as [st1 e1]. simpl in H1.
  specialize (IH st1 H1). now destruct (remove_old ids keys st1).
Qed.

(** C5. When the ids of the snapshot are exactly the live ids,
    [reconcile] creates nothing and releases nothing: the map, the object
    store, the scene and the count of random draws are unchanged, only
    [planetsData] now holds the snapshot. *)
Theorem reconcile_same_ids :
  forall (Math_random : nat -> R) (st : AxeeVisuals3D)
         (snapshot : list PlanetData),
    (forall id, In id (List.map celestial_body_id snapshot)
                <-> map_has id (planets st) = true) ->
    reconcile Math_random snapshot st = (set_planetsData snapshot st, [])
    /\ planets (fst (reconcile Math_random snapshot st)) = planets st
    /\ objects (fst (reconcile Math_random snapshot st)) = objects st
    /\ scene (fst (reconcile Math_random snapshot st)) = scene st
    /\ random_calls (fst (reconcile Math_random snapshot st)) = random_calls st
    /\ snd (reconcile Math_random snapshot st) = [].
Proof.
  intros rnd st snapshot Hsame.
  assert (E : reconcile rnd snapshot st = (set_planetsData snapshot st, [])).
  { unfold reconcile, updatePlanets.
    set (st0 := set_planetsData snapshot st).
    change (planetsData (props st0)) with snapshot.
    rewrite remove_old_noop.
    - f_equal. apply add_new_noop. intros d Hd.
      change (planets st0) with (planets st). apply Hsame.
      now apply in_map.
    - intros k Hk. apply Hsame. now apply map_has_In. }
  rewrite E. repeat split.
Qed.

Lemma reconcile_same_ids_witness :
  (forall id, In id (List.map celestial_body_id [saturn; earth; saturn])
              <-> map_has id (planets two_planets) = true)
  /\ reconcile half_random [saturn; earth; saturn] two_planets
     = (set_planetsData [saturn; earth; saturn] two_planets, []).
Proof.
  assert (H : forall id, In id (List.map celestial_body_id [saturn; earth; saturn])
                         <-> map_has id (planets two_planets) = true).
  { intros id. rewrite map_has_In. simpl. tauto. }
  split; [exact H |].
  exact (proj1 (reconcile_same_ids half_random two_planets
                  [saturn; earth; saturn] H)).
Defined.

(** ** Orbit radii *)

Lemma reconcile_created (Math_random : nat -> R) (st : AxeeVisuals3D)
      (snapshot : list PlanetData) (i : nat) (d : PlanetData) :
  nth_error snapshot i = Some d ->
  map_has (celestial_body_id d) (planets st) = false ->
  (forall j d', (j < i)%nat -> nth_error snapshot j = Some d' ->
                celestial_body_id d' <> celestial_body_id d) ->
  exists r g,
    map_get (celestial_body_id d)
            (planets (fst (reconcile Math_random snapshot st))) = Some r
    /\ nth_error (objects (fst (reconcile Math_random snapshot st))) r = Some g
    /\ userData_id g = celestial_body_id d
    /\ userData_orbitalRadius g = baseRadius + INR i * radiusStep.
Proof.
  intros Hnth Hnew Hfirst.
  unfold reconcile. rewrite updatePlanets_unfold. cbn [fst].
  set (st0 := set_planetsData snapshot st).
  change (planetsData (props st0)) with snapshot.
  set (st1 := fst (remove_old _ _ st0)).
  assert (Hnew1 : map_has (celestial_body_id d) (planets st1) = false)
    by now apply remove_old_has_false.
  destruct (add_new_created Math_random snapshot 0 st1 i d Hnth Hnew1 Hfirst)
    as (r & g & H1 & H2 & _ & H4 & H5).
  exists r, g. repeat split; assumption.
Qed.

(** C4. [createPlanet(data, index)] gives the body the orbital radius
    [baseRadius + index * radiusStep], with [baseRadius = 15] and
    [radiusStep = 8]; under [reconcile] the index is the position of the
    record in the snapshot being applied; and for a snapshot of two
    bodies that are both new, the second body's radius exceeds the
    first's by exactly one [radiusStep]. *)
Theorem orbitalRadius_by_index :
  forall (Math_random : nat -> R),
    (baseRadius = 15 /\ radiusStep = 8)
    /\ (forall data index st,
          exists g,
            map_get (celestial_body_id data)
                    (planets (createPlanet Math_random data index st))
            = Some (List.length (objects st))
            /\ nth_error (objects (createPlanet Math_random data index st))
                         (List.length (objects st)) = Some g
            /\ userData_orbitalRadius g = baseRadius + INR index * radiusStep)
    /\ (forall st snapshot i d,
          nth_error snapshot i = Some d ->
          map_has (celestial_body_id d) (planets st) = false ->
          (forall j d', (j < i)%nat -> nth_error snapshot j = Some d' ->
                        celestial_body_id d' <> celestial_body_id d) ->
          exists r g,
            map_get (celestial_body_id d)
                    (planets (fst (reconcile Math_random snapshot st))) = Some r
            /\ nth_error (objects (fst (reconcile Math_random snapshot st))) r
               = Some g
            /\ userData_orbitalRadius g = baseRadius + INR i * radiusStep)
    /\ (forall st A B,
          celestial_body_id A <> celestial_body_id B ->
          map_has (celestial_body_id A) (planets st) = false ->
          map_has (celestial_body_id B) (planets st) = false ->
          exists rA gA rB gB,
            map_get (celestial_body_id A)
                    (planets (fst (reconcile Math_random [A; B] st))) = Some rA
            /\ nth_error (objects (fst (reconcile Math_random [A; B] st))) rA
               = Some gA
            /\ map_get (celestial_body_id B)
                       (planets (fst (reconcile Math_random [A; B] st))) = Some rB
            /\ nth_error (objects (fst (reconcile Math_random [A; B] st))) rB
               = Some gB
            /\ userData_orbitalRadius gA = baseRadius
            /\ userData_orbitalRadius gB = userData_orbitalRadius gA + radiusStep).
Proof.
  intros rnd. split; [split; reflexivity |]. split; [| split].
  - intros data index st.
    destruct (createPlanet_new rnd data index st) as (g & H1 & H2 & _ & H4 & _).
    exists g. repeat split; assumption.
  - intros st snapshot i d Hnth Hnew Hfirst.
    destruct (reconcile_created rnd st snapshot i d Hnth Hnew Hfirst)
      as (r & g & H1 & H2 & _ & H4).
    exists r, g. repeat split; assumption.
  - intros st A B Hne HA HB.
    destruct (reconcile_created rnd st [A; B] 0 A eq_refl HA)
      as (rA & gA & A1 & A2 & _ & A4).
    { intros j d' Hj. lia. }
    destruct (reconcile_created rnd st [A; B] 1 B eq_refl HB)
      as (rB & gB & B1 & B2 & _ & B4).
    { intros [| [| j]] d' Hj Hd'; [| lia | lia].
      injection Hd' as <-. exact Hne. }
    exists rA, gA, rB, gB.
    repeat split; try assumption.
    + rewrite A4. simpl. lra.
    + rewrite A4, B4. simpl. lra.
Qed.

Lemma orbitalRadius_by_index_witness :
  (celestial_body_id earth <> celestial_body_id saturn
   /\ map_has (celestial_body_id earth) (planets init_state) = false
   /\ map_has (celestial_body_id saturn) (planets init_state) = false)
  /\ exists rA gA rB gB,
       map_get "earth" (planets two_planets) = Some rA
       /\ nth_error (objects two_planets) rA = Some gA
       /\ map_get "saturn" (planets two_planets) = Some rB
       /\ nth_error (objects two_planets) rB = Some gB
       /\ userData_orbitalRadius gA = baseRadius
       /\ userData_orbitalRadius gB = userData_orbitalRadius gA + radiusStep.
Proof.
  assert (Hne : celestial_body_id earth <> celestial_body_id saturn)
    by (simpl; discriminate).
  split; [repeat split; [exact Hne] |].
  exact (proj2 (proj2 (proj2 (orbitalRadius_by_index half_random)))
           init_state earth saturn Hne eq_refl eq_refl).
Defined.

(** ** The frame: motion of the planets *)

Lemma same_body_refl (g : Group) : same_body g g.
Proof. repeat split. Qed.

Lemma same_body_trans (g1 g2 g3 : Group) :
  same_body g1 g2 -> same_body g2 g3 -> same_body g1 g3.
Proof. unfold same_body. intuition congruence. Qed.

Lemma animate_group_same_body (delta elapsed : R) (g : Group) :
  same_body g (animate_group delta elapsed g).
Proof. repeat split. Qed.

Lemma animate_group_position (delta elapsed : R) (g : Group) :
  position (animate_group delta elapsed g) = orbit_position elapsed g.
Proof. reflexivity. Qed.

Lemma iter_animate_same_body (n : nat) (delta elapsed : R) (g : Group) :
  same_body g (Nat.iter n (animate_group delta elapsed) g).
Proof.
  induction n as [| n IH]; simpl; [apply same_body_refl |].
  eapply same_body_trans; [exact IH | apply animate_group_same_body].
Qed.

Lemma iter_animate_position (n : nat) (delta elapsed : R) (g : Group) :
  position (Nat.iter (S n) (animate_group delta elapsed) g)
  = orbit_position elapsed g.
Proof.
  rewrite Nat.iter_succ, animate_group_position.
  destruct (iter_animate_same_body n delta elapsed g) as (_ & _ & Hr & Hs & _).
  unfold orbit_position. now rewrite Hr, Hs.
Qed.

Lemma nth_error_store_update (r r' : ref) (f : Group -> Group) (s : list Group) :
  nth_error (store_update r f s) r'
  = if Nat.eqb r' r then option_map f (nth_error s r') else nth_error s r'.
Proof.
  revert r r'. induction s as [| g s IH]; intros r r'.
  - destruct r; simpl; destruct r'; simpl; try reflexivity;
      now destruct (Nat.eqb _ _).
  - destruct r as [| r]; destruct r' as [| r']; simpl; try reflexivity.
    apply IH.
Qed.

Lemma nth_error_animate_planets (delta elapsed : R) (m : PlanetMap)
      (s : list Group) (r : ref) :
  nth_error (animate_planets delta elapsed m s) r
  = option_map (Nat.iter (count_occ Nat.eq_dec (map_values m) r)
                         (animate_group delta elapsed))
               (nth_error s r).
Proof.
  unfold animate_planets. generalize (map_values m) as l. intros l.
  revert s. induction l as [| v l IH]; intros s.
  - simpl. now destruct (nth_error s r).
  - cbn [fold_left]. rewrite IH, nth_error_store_update.
    destruct (Nat.eq_dec v r) as [-> | Hne].
    + rewrite count_occ_cons_eq by reflexivity. rewrite Nat.eqb_refl.
      destruct (nth_error s r) as [g |]; cbn [option_map]; [| reflexivity].
      f_equal. symmetry. apply Nat.iter_succ_r.
    + rewrite count_occ_cons_neq by exact Hne.
      destruct (Nat.eqb_spec r v); [congruence | reflexivity].
Qed.

Section FrameFacts.

Variable intersectObjects : Raycast.
Variable controls_update : ControlsUpdate.

Let animate := _animate intersectObjects controls_update.

Lemma animate_registry (fi : FrameInput) (st : AxeeVisuals3D) :
  planets (fst (animate fi st)) = planets st
  /\ scene (fst (animate fi st)) = scene st
  /\ objects (fst (animate fi st))
     = animate_planets (delta fi) (elapsed fi) (planets st) (objects st)
  /\ props (fst (animate fi st)) = props st
  /\ random_calls (fst (animate fi st)) = random_calls st.
Proof. repeat split. Qed.

(** A live body keeps its identity and constants through a frame and is
    placed on its orbit. *)
Lemma animate_body (fi : FrameInput) (st : AxeeVisuals3D)
      (id : string) (r : ref) (g : Group) :
  map_get id (planets st) = Some r ->
  nth_error (objects st) r = Some g ->
  exists g',
    nth_error (objects (fst (animate fi st))) r = Some g'
    /\ same_body g g'
    /\ position g' = orbit_position (elapsed fi) g.
Proof.
  intros Hget Hg.
  destruct (animate_registry fi st) as (_ & _ & -> & _).
  rewrite nth_error_animate_planets, Hg. simpl.
  eexists. split; [reflexivity |].
  split; [apply iter_animate_same_body |].
  assert (Hin : In r (map_values (planets st))) by now apply map_get_value in Hget.
  apply (count_occ_In Nat.eq_dec) in Hin.
  destruct (count_occ Nat.eq_dec (map_values (planets st)) r) as [| n]; [lia |].
  apply iter_animate_position.
Qed.

(** Any stored group, live or not, keeps its constants through a frame. *)
Lemma animate_stored (fi : FrameInput) (st : AxeeVisuals3D)
      (r : ref) (g : Group) :
  nth_error (objects st) r = Some g ->
  exists g', nth_error (objects (fst (animate fi st))) r = Some g'
             /\ same_body g g'.
Proof.
  intros Hg.
  destruct (animate_registry fi st) as (_ & _ & -> & _).
  rewrite nth_error_animate_planets, Hg. simpl.
  eexists. split; [reflexivity | apply iter_animate_same_body].
Qed.

Lemma hovered_group_live (ints : list Intersection) (st : AxeeVisuals3D)
      (g : Group) :
  hovered_group ints st = Some g ->
  truthy (userData_id g) = true
  /\ map_has (userData_id g) (planets st) = true.
Proof.
  unfold hovered_group. destruct ints as [| first _]; [discriminate |].
  destruct (parent (object first)) as [[| r] |]; try discriminate.
  destruct (nth_error (objects st) r) as [g0 |]; [| discriminate].
  destruct (truthy (userData_id g0) && map_has (userData_id g0) (planets st))
    eqn:E; [| discriminate].
  intros [= <-]. now apply andb_true_iff in E.
Qed.

Lemma animate_hover (fi : FrameInput) (st : AxeeVisuals3D) :
  hover (fst (animate fi st))
  = hover_update fi
      (hovered_group (frame_intersects intersectObjects controls_update fi st)
                     (frame_motion controls_update fi st))
      (hover st).
Proof. reflexivity. Qed.

(** After a frame the hover id is either unset or the non-empty id of a
    live body. *)
Lemma animate_hover_live (fi : FrameInput) (st : AxeeVisuals3D) :
  hoveredPlanetId (hover (fst (animate fi st))) = None
  \/ exists id,
       hoveredPlanetId (hover (fst (animate fi st))) = Some id
       /\ truthy id = true
       /\ map_has id (planets (fst (animate fi st))) = true.
Proof.
  rewrite animate_hover.
  destruct (hovered_group _ _) as [g |] eqn:E; simpl; [| now left].
  right. exists (userData_id g). split; [reflexivity |].
  apply hovered_group_live in E. exact E.
Qed.

Lemma truthy_nonempty (s : string) : truthy s = true <-> s <> ""%string.
Proof.
  unfold truthy. destruct (String.eqb_spec s ""); simpl; split; congruence.
Qed.

Lemma animate_wf (fi : FrameInput) (st : AxeeVisuals3D) :
  wf st -> wf (fst (animate fi st)).
Proof.
  intros Hwf. pose proof Hwf as [Hk Hv Hs Hsc Hh].
  constructor.
  - exact Hk.
  - exact Hv.
  - intros k r Hin. destruct (Hs k r Hin) as (g & Hg & Hid).
    destruct (animate_stored fi st r g Hg) as (g' & Hg' & Hsame).
    exists g'. split; [exact Hg' |].
    destruct Hsame as (_ & Hid' & _). congruence.
  - exact Hsc.
  - destruct (animate_hover_live fi st) as [-> | (id & -> & Ht & _)];
      [discriminate |].
    apply truthy_nonempty in Ht. congruence.
Qed.

End FrameFacts.

(** ** Runs of the component *)

Section Runs.

Variable Math_random : nat -> R.
Variable intersectObjects : Raycast.
Variable controls_update : ControlsUpdate.

Let do_step := step Math_random intersectObjects controls_update.
Let do_run := run Math_random intersectObjects controls_update.
Let stays_live := live_along Math_random intersectObjects controls_update.

Lemma focusOnSelectedPlanet_wf (st : AxeeVisuals3D) :
  wf st -> wf (focusOnSelectedPlanet st).
Proof.
  intros [Hk Hv Hs Hsc Hh]. unfold focusOnSelectedPlanet.
  destruct (match match selectedPlanetId (props st) with
                  | Some id => if truthy id then Some id else None
                  | None => None
                  end with
            | Some id => _
            | None => _
            end) as [tp tl].
  now constructor.
Qed.

Lemma step_wf (e : Event) (st : AxeeVisuals3D) :
  wf st -> wf (fst (do_step e st)).
Proof.
  intros Hwf. destruct e; unfold do_step; cbn [step fst].
  - now apply reconcile_wf.
  - apply focusOnSelectedPlanet_wf. now apply set_props_wf.
  - now apply set_props_wf.
  - now apply set_props_wf.
  - now apply set_props_wf.
  - destruct Hwf as [Hk Hv Hs Hsc Hh]. now constructor.
  - exact Hwf.
  - destruct Hwf as [Hk Hv Hs Hsc Hh]. now constructor.
  - now apply animate_wf.
Qed.

Lemma run_cons (e : Event) (evs : list Event) (st : AxeeVisuals3D) :
  do_run (e :: evs) st
  = (fst (do_run evs (fst (do_step e st))),
     snd (do_step e st) ++ snd (do_run evs (fst (do_step e st)))).
Proof.
  unfold do_run, do_step. cbn [run].
  destruct (step _ _ _ e st) as [st1 e1]. cbn [fst snd].
  now destruct (run _ _ _ evs st1).
Qed.

Lemma run_app (evs1 evs2 : list Event) (st : AxeeVisuals3D) :
  do_run (evs1 ++ evs2) st
  = (fst (do_run evs2 (fst (do_run evs1 st))),
     snd (do_run evs1 st) ++ snd (do_run evs2 (fst (do_run evs1 st)))).
Proof.
  revert st. induction evs1 as [| e evs1 IH]; intros st.
  - cbn [app]. change (do_run [] st) with (st, @nil Effect). cbn [fst snd app].
    now destruct (do_run evs2 st).
  - rewrite <- app_comm_cons, !run_cons, IH. cbn [fst snd].
    now rewrite app_assoc.
Qed.

Lemma run_snoc (evs : list Event) (e : Event) (st : AxeeVisuals3D) :
  fst (do_run (evs ++ [e]) st) = fst (do_step e (fst (do_run evs st)))
  /\ snd (do_run (evs ++ [e]) st)
     = snd (do_run evs st) ++ snd (do_step e (fst (do_run evs st))).
Proof.
  rewrite run_app, run_cons. cbn [fst snd].
  change (do_run [] (fst (do_step e (fst (do_run evs st)))))
    with (fst (do_step e (fst (do_run evs st))), @nil Effect).
  cbn [fst snd]. now rewrite app_nil_r.
Qed.

Lemma run_wf (evs : list Event) (st : AxeeVisuals3D) :
  wf st -> wf (fst (do_run evs st)).
Proof.
  revert st. induction evs as [| e evs IH]; intros st Hwf; [exact Hwf |].
  rewrite run_cons. cbn [fst]. apply IH. now apply step_wf.
Qed.

Lemma reachable_wf (st : AxeeVisuals3D) :
  reachable Math_random intersectObjects controls_update st -> wf st.
Proof.
  induction 1 as [| e st _ IH]; [apply init_state_wf | now apply step_wf].
Qed.

(** What [reconcile] does to a body whose id is in the snapshot. *)
Lemma reconcile_retained (snapshot : list PlanetData) (st : AxeeVisuals3D)
      (id : string) (r : ref) :
  wf st ->
  map_get id (planets st) = Some r ->
  In id (List.map celestial_body_id snapshot) ->
  map_get id (planets (fst (reconcile Math_random snapshot st))) = Some r
  /\ forall r' g, nth_error (objects st) r' = Some g ->
       nth_error (objects (fst (reconcile Math_random snapshot st))) r' = Some g.
Proof.
  intros Hwf Hget Hin.
  unfold reconcile. rewrite updatePlanets_unfold. cbn [fst].
  set (st0 := set_planetsData snapshot st).
  change (planetsData (props st0)) with snapshot.
  split.
  - apply add_new_get_old.
    rewrite remove_old_get by apply (wf_keys st Hwf).
    apply array_includes_In in Hin. rewrite Hin, andb_false_r. exact Hget.
  - intros r' g Hg. apply add_new_nth_old.
    now rewrite remove_old_objects.
Qed.

Lemma reconcile_live (snapshot : list PlanetData) (st : AxeeVisuals3D)
      (id : string) :
  wf st ->
  map_has id (planets st) = true ->
  map_has id (planets (fst (reconcile Math_random snapshot st))) = true ->
  In id (List.map celestial_body_id snapshot).
Proof.
  intros Hwf Hlive Hlive'.
  unfold reconcile in Hlive'. rewrite updatePlanets_unfold in Hlive'.
  cbn [fst] in Hlive'.
  set (st0 := set_planetsData snapshot st) in *.
  change (planetsData (props st0)) with snapshot in *.
  apply add_new_has in Hlive' as [H | H]; [| exact H].
  unfold map_has in H. rewrite remove_old_get in H by apply (wf_keys st Hwf).
  destruct (array_includes (List.map celestial_body_id snapshot) id) eqn:E.
  - now apply array_includes_In.
  - rewrite andb_true_r in H.
    change (planets st0) with (planets st) in H.
    assert (Hk : array_includes (map_keys (planets st)) id = true)
      by now apply array_includes_In, map_has_In.
    rewrite Hk in H. discriminate.
Qed.

(** One event leaves a body that stays live with its identity and its
    constants. *)
Lemma step_keeps_body (e : Event) (st : AxeeVisuals3D)
      (id : string) (r : ref) (g : Group) :
  wf st ->
  map_get id (planets st) = Some r ->
  nth_error (objects st) r = Some g ->
  map_has id (planets (fst (do_step e st))) = true ->
  map_get id (planets (fst (do_step e st))) = Some r
  /\ exists g', nth_error (objects (fst (do_step e st))) r = Some g'
                /\ same_body g g'.
Proof.
  intros Hwf Hget Hg Hlive.
  assert (Hsame : map_get id (planets st) = Some r
                  /\ exists g', nth_error (objects st) r = Some g'
                                /\ same_body g g').
  { split; [exact Hget |]. exists g. split; [exact Hg | apply same_body_refl]. }
  destruct e; unfold do_step; cbn [step fst] in *;
    try exact Hsame.
  - assert (Hin : In id (List.map celestial_body_id snapshot)).
    { apply (reconcile_live snapshot st id Hwf); [| exact Hlive].
      unfold map_has. now rewrite Hget. }
    destruct (reconcile_retained snapshot st id r Hwf Hget Hin) as [H1 H2].
    split; [exact H1 |]. exists g. split; [now apply H2 | apply same_body_refl].
  - unfold focusOnSelectedPlanet.
    destruct (match match selectedPlanetId (props (set_selectedPlanetId sel st)) with
                    | Some id => if truthy id then Some id else None
                    | None => None
                    end with
              | Some id => _
              | None => _
              end) as [tp tl].
    exact Hsame.
  - split; [exact Hget |].
    destruct (animate_body intersectObjects controls_update fi st id r g Hget Hg)
      as (g' & Hg' & Hs & _).
    exists g'. now split.
Qed.

Lemma run_keeps_body (evs : list Event) (st : AxeeVisuals3D)
      (id : string) (r : ref) (g : Group) :
  wf st ->
  map_get id (planets st) = Some r ->
  nth_error (objects st) r = Some g ->
  stays_live id evs st ->
  map_get id (planets (fst (do_run evs st))) = Some r
  /\ exists g', nth_error (objects (fst (do_run evs st))) r = Some g'
                /\ same_body g g'.
Proof.
  revert st g. induction evs as [| e evs IH]; intros st g Hwf Hget Hg Hlive.
  - split; [exact Hget |]. exists g. split; [exact Hg | apply same_body_refl].
  - destruct Hlive as [Hlive1 Hlive2]. fold do_step in Hlive1, Hlive2.
    fold stays_live in Hlive2.
    destruct (step_keeps_body e st id r g Hwf Hget Hg Hlive1)
      as (Hget1 & g1 & Hg1 & Hs1).
    rewrite run_cons. cbn [fst].
    destruct (IH (fst (do_step e st)) g1 (step_wf e st Hwf) Hget1 Hg1 Hlive2)
      as (Hget2 & g2 & Hg2 & Hs2).
    split; [exact Hget2 |]. exists g2. split; [exact Hg2 |].
    eapply same_body_trans; eassumption.
Qed.

End Runs.

(** ** Orbital constants and positions *)

Lemma run_frame_position
      (Math_random : nat -> R)
      (intersectObjects : Raycast) (controls_update : ControlsUpdate)
      (st : AxeeVisuals3D) (evs : list Event) (fi : FrameInput)
      (id : string) (r : ref) (g : Group) :
  wf st ->
  map_get id (planets st) = Some r ->
  nth_error (objects st) r = Some g ->
  live_along Math_random intersectObjects controls_update id evs st ->
  exists g',
    nth_error (objects (fst (run Math_random intersectObjects controls_update
                                 (evs ++ [EvFrame fi]) st))) r = Some g'
    /\ map_get id (planets (fst (run Math_random intersectObjects controls_update
                                     (evs ++ [EvFrame fi]) st))) = Some r
    /\ same_body g g'
    /\ position g' = orbit_position (elapsed fi) g.
Proof.
  intros Hwf Hget Hg Hlive.
  destruct (run_keeps_body Math_random intersectObjects controls_update
              evs st id r g Hwf Hget Hg Hlive) as (Hget1 & g1 & Hg1 & Hs1).
  rewrite run_app. cbn [fst].
  set (st1 := fst (run Math_random intersectObjects controls_update evs st)) in *.
  rewrite run_cons. cbn [fst run step].
  destruct (animate_body intersectObjects controls_update fi st1 id r g1 Hget1 Hg1)
    as (g' & Hg' & Hs' & Hpos).
  exists g'. split; [exact Hg' |]. split; [exact Hget1 |].
  split; [eapply same_body_trans; eassumption |].
  rewrite Hpos. unfold orbit_position.
  destruct Hs1 as (_ & _ & -> & -> & _). reflexivity.
Qed.

(** C2. A body that is live, and stays live through a sequence of
    reconcile calls, frames and other events, keeps the [orbitalRadius]
    and [orbitSpeed] it has: the same group object is still registered
    under its id and both fields hold the same values, whatever bodies
    were added or removed meanwhile. The two fields are written by
    [createPlanet] ([baseRadius + index * radiusStep] and
    [0.1 + Math.random() * 0.1]) and the per-frame update of a group
    leaves them as they are. *)
Theorem orbit_constants_fixed :
  forall (Math_random : nat -> R)
         (intersectObjects : Raycast) (controls_update : ControlsUpdate)
         (st : AxeeVisuals3D) (evs : list Event)
         (id : string) (r : ref) (g : Group),
    wf st ->
    map_get id (planets st) = Some r ->
    nth_error (objects st) r = Some g ->
    live_along Math_random intersectObjects controls_update id evs st ->
    map_get id (planets (fst (run Math_random intersectObjects controls_update
                                  evs st))) = Some r
    /\ (exists g',
          nth_error (objects (fst (run Math_random intersectObjects
                                       controls_update evs st))) r = Some g'
          /\ userData_orbitalRadius g' = userData_orbitalRadius g
          /\ userData_orbitSpeed g' = userData_orbitSpeed g)
    /\ (forall delta elapsed g0,
          userData_orbitalRadius (animate_group delta elapsed g0)
          = userData_orbitalRadius g0
          /\ userData_orbitSpeed (animate_group delta elapsed g0)
             = userData_orbitSpeed g0)
    /\ (forall data index st0,
          exists g0,
            nth_error (objects (createPlanet Math_random data index st0))
                      (List.length (objects st0)) = Some g0
            /\ userData_orbitalRadius g0 = baseRadius + INR index * radiusStep
            /\ userData_orbitSpeed g0
               = 0.1 + Math_random (random_calls st0) * 0.1).
Proof.
  intros rnd io cu st evs id r g Hwf Hget Hg Hlive.
  destruct (run_keeps_body rnd io cu evs st id r g Hwf Hget Hg Hlive)
    as (Hget' & g' & Hg' & Hs).
  split; [exact Hget' |]. split; [| split].
  - exists g'. destruct Hs as (_ & _ & Hr & Hsp & _). now repeat split.
  - intros delta elapsed g0. split; reflexivity.
  - intros data index st0.
    destruct (createPlanet_new rnd data index st0) as (g0 & _ & H2 & _ & H4 & H5).
    exists g0. now repeat split.
Qed.

(** C3. A frame at elapsed time [t] sets the position of every live body
    to [(cos (t * s) * r, 0, sin (t * s) * r)], where [r] and [s] are the
    body's [orbitalRadius] and [orbitSpeed]; this holds after any history
    of events through which the body stayed live, so two histories that
    end with a frame at the same elapsed time leave the body at the same
    position. *)
Theorem orbit_position_closed_form :
  forall (Math_random : nat -> R)
         (intersectObjects : Raycast) (controls_update : ControlsUpdate)
         (st : AxeeVisuals3D) (evs : list Event) (fi : FrameInput)
         (id : string) (r : ref) (g : Group),
    wf st ->
    map_get id (planets st) = Some r ->
    nth_error (objects st) r = Some g ->
    live_along Math_random intersectObjects controls_update id evs st ->
    exists g',
      map_get id (planets (fst (run Math_random intersectObjects controls_update
                                    (evs ++ [EvFrame fi]) st))) = Some r
      /\ nth_error (objects (fst (run Math_random intersectObjects controls_update
                                      (evs ++ [EvFrame fi]) st))) r = Some g'
      /\ position g'
         = mkVector3
             (cos (elapsed fi * userData_orbitSpeed g) * userData_orbitalRadius g)
             0
             (sin (elapsed fi * userData_orbitSpeed g) * userData_orbitalRadius g)
      /\ forall evs2 fi2,
           live_along Math_random intersectObjects controls_update id evs2 st ->
           elapsed fi2 = elapsed fi ->
           exists g2,
             nth_error (objects (fst (run Math_random intersectObjects
                                          controls_update
                                          (evs2 ++ [EvFrame fi2]) st))) r = Some g2
             /\ position g2 = position g'.
Proof.
  intros rnd io cu st evs fi id r g Hwf Hget Hg Hlive.
  destruct (run_frame_position rnd io cu st evs fi id r g Hwf Hget Hg Hlive)
    as (g' & Hg' & Hget' & _ & Hpos).
  exists g'. split; [exact Hget' |]. split; [exact Hg' |].
  split; [exact Hpos |].
  intros evs2 fi2 Hlive2 Ht.
  destruct (run_frame_position rnd io cu st evs2 fi2 id r g Hwf Hget Hg Hlive2)
    as (g2 & Hg2 & _ & _ & Hpos2).
  exists g2. split; [exact Hg2 |]. rewrite Hpos, Hpos2, Ht. reflexivity.
Qed.

Lemma sample_history_live :
  live_along half_random first_candidate_hit still_controls
             "saturn" sample_history two_planets.
Proof. repeat split; reflexivity. Qed.

Lemma orbit_constants_fixed_witness :
  exists g : Group,
    (wf two_planets
     /\ map_get "saturn" (planets two_planets) = Some 1%nat
     /\ nth_error (objects two_planets) 1 = Some g
     /\ live_along half_random first_candidate_hit still_controls
                   "saturn" sample_history two_planets)
    /\ exists g',
         nth_error (objects (fst (run half_random first_candidate_hit
                                      still_controls sample_history two_planets)))
                   1 = Some g'
         /\ userData_orbitalRadius g' = userData_orbitalRadius g
         /\ userData_orbitSpeed g' = userData_orbitSpeed g.
Proof.
  eexists. split.
  - split; [exact two_planets_wf |].
    split; [reflexivity |]. split; [reflexivity | exact sample_history_live].
  - exact (proj1 (proj2 (orbit_constants_fixed
                           half_random first_candidate_hit still_controls
                           two_planets sample_history "saturn" 1%nat _
                           two_planets_wf eq_refl eq_refl sample_history_live))).
Defined.

Lemma orbit_position_closed_form_witness :
  exists g : Group,
    (wf two_planets
     /\ map_get "saturn" (planets two_planets) = Some 1%nat
     /\ nth_error (objects two_planets) 1 = Some g
     /\ live_along half_random first_candidate_hit still_controls
                   "saturn" sample_history two_planets)
    /\ exists g',
         nth_error (objects (fst (run half_random first_candidate_hit
                                      still_controls
                                      (sample_history ++ [EvFrame sample_frame])
                                      two_planets)))
                   1 = Some g'
         /\ position g'
            = mkVector3
                (cos (elapsed sample_frame * userData_orbitSpeed g)
                 * userData_orbitalRadius g)
                0
                (sin (elapsed sample_frame * userData_orbitSpeed g)
                 * userData_orbitalRadius g).
Proof.
  eexists. split.
  - split; [exact two_planets_wf |].
    split; [reflexivity |]. split; [reflexivity | exact sample_history_live].
  - destruct (orbit_position_closed_form
                half_random first_candidate_hit still_controls
                two_planets sample_history sample_frame "saturn" 1%nat _
                two_planets_wf eq_refl eq_refl sample_history_live)
      as (g' & _ & Hg' & Hpos & _).
    exists g'. split; [exact Hg' | exact Hpos].
Defined.

(** ** Hover and selection *)

Lemma onCanvasClick_wf (st : AxeeVisuals3D) :
  wf st ->
  onCanvasClick st
  = match hoveredPlanetId (hover st) with
    | Some id => [DispatchPlanetSelected id]
    | None => []
    end.
Proof.
  intros Hwf. unfold onCanvasClick.
  destruct (hoveredPlanetId (hover st)) as [id |] eqn:E; [| reflexivity].
  assert (Ht : truthy id = true).
  { apply truthy_nonempty. intros ->. now apply (wf_hover st Hwf). }
  now rewrite Ht.
Qed.

Lemma onCanvasClick_In (st : AxeeVisuals3D) (e : Effect) :
  In e (onCanvasClick st) ->
  exists id, hoveredPlanetId (hover st) = Some id /\ e = DispatchPlanetSelected id.
Proof.
  unfold onCanvasClick.
  destruct (hoveredPlanetId (hover st)) as [id |]; [| intros []].
  destruct (truthy id); [| intros []].
  intros [<- | []]. now exists id.
Qed.

(** C9. In a frame whose raycast returns no intersection the hover id is
    cleared, the cursor is set back to [auto] and the tooltip is hidden;
    a click emits a selection event exactly when a hover id is set, and
    the one event emitted carries that id. *)
Theorem hover_cleared_and_click :
  forall (intersectObjects : Raycast) (controls_update : ControlsUpdate)
         (fi : FrameInput) (st : AxeeVisuals3D),
    wf st ->
    (frame_intersects intersectObjects controls_update fi st = [] ->
       hoveredPlanetId (hover (fst (_animate intersectObjects controls_update fi st)))
       = None
       /\ cursor (hover (fst (_animate intersectObjects controls_update fi st)))
          = "auto"%string
       /\ tooltip_display (fst (_animate intersectObjects controls_update fi st))
          = "none"%string)
    /\ (forall id, hoveredPlanetId (hover st) = Some id ->
                   onCanvasClick st = [DispatchPlanetSelected id])
    /\ (hoveredPlanetId (hover st) = None -> onCanvasClick st = [])
    /\ (forall e, In e (onCanvasClick st)
                  <-> exists id, hoveredPlanetId (hover st) = Some id
                                 /\ e = DispatchPlanetSelected id).
Proof.
  intros io cu fi st Hwf.
  pose proof (onCanvasClick_wf st Hwf) as Hclick.
  split; [| split; [| split]].
  - intros Hnone. unfold tooltip_display.
    rewrite (animate_hover io cu fi st), Hnone. cbn [hovered_group hover_update].
    repeat split.
    cbn [tooltipElement]. now destruct (tooltipElement (hover st)).
  - intros id Hid. now rewrite Hclick, Hid.
  - intros Hnone. now rewrite Hclick, Hnone.
  - intros e. split; [apply onCanvasClick_In |].
    intros (id & Hid & ->). rewrite Hclick, Hid. now left.
Qed.

Lemma earth_hovered_wf : wf earth_hovered.
Proof.
  apply animate_wf. pose proof two_planets_wf as [Hk Hv Hs Hsc Hh].
  now constructor.
Qed.

Lemma hover_cleared_and_click_witness :
  (wf earth_hovered
   /\ frame_intersects no_hit still_controls sample_frame earth_hovered = []
   /\ hoveredPlanetId (hover earth_hovered) = Some "earth"%string)
  /\ hoveredPlanetId
       (hover (fst (_animate no_hit still_controls sample_frame earth_hovered)))
     = None
  /\ tooltip_display earth_hovered = "block"%string
  /\ tooltip_display (fst (_animate no_hit still_controls sample_frame earth_hovered))
     = "none"%string
  /\ onCanvasClick earth_hovered = [DispatchPlanetSelected "earth"].
Proof.
  pose proof (hover_cleared_and_click no_hit still_controls sample_frame
                earth_hovered earth_hovered_wf) as (Hclear & Hclick & _).
  split; [split; [exact earth_hovered_wf | split; reflexivity] |].
  destruct (Hclear eq_refl) as (H1 & _ & H3).
  split; [exact H1 |]. split; [reflexivity |]. split; [exact H3 |].
  exact (Hclick "earth"%string eq_refl).
Defined.

Section Selection.

Variable Math_random : nat -> R.
Variable intersectObjects : Raycast.
Variable controls_update : ControlsUpdate.

Let do_step := step Math_random intersectObjects controls_update.
Let do_run := run Math_random intersectObjects controls_update.

Lemma reconcile_hover (snapshot : list PlanetData) (st : AxeeVisuals3D) :
  hover (fst (reconcile Math_random snapshot st)) = hover st.
Proof.
  unfold reconcile. rewrite updatePlanets_unfold. cbn [fst].
  destruct (add_new_rest Math_random
              (planetsData (props (set_planetsData snapshot st))) 0
              (fst (remove_old
                      (List.map celestial_body_id
                                (planetsData (props (set_planetsData snapshot st))))
                      (map_keys (planets (set_planetsData snapshot st)))
                      (set_planetsData snapshot st))))
    as (_ & _ & -> & _).
  destruct (remove_old_rest
              (List.map celestial_body_id
                        (planetsData (props (set_planetsData snapshot st))))
              (map_keys (planets (set_planetsData snapshot st)))
              (set_planetsData snapshot st))
    as (_ & _ & -> & _).
  reflexivity.
Qed.

Lemma step_hover_nonframe (e : Event) (st : AxeeVisuals3D) :
  is_frame e = false ->
  hoveredPlanetId (hover (fst (do_step e st))) = hoveredPlanetId (hover st).
Proof.
  intros Hnf. destruct e; try discriminate; unfold do_step; cbn [step fst];
    try reflexivity.
  - now rewrite reconcile_hover.
  - unfold focusOnSelectedPlanet.
    destruct (match match selectedPlanetId (props (set_selectedPlanetId sel st)) with
                    | Some id => if truthy id then Some id else None
                    | None => None
                    end with
              | Some id => _
              | None => _
              end) as [tp tl].
    reflexivity.
Qed.

Lemma step_dispatch (e : Event) (st : AxeeVisuals3D) (id : string) :
  wf st ->
  In (DispatchPlanetSelected id) (snd (do_step e st)) ->
  e = EvClick /\ hoveredPlanetId (hover st) = Some id.
Proof.
  intros Hwf Hin. destruct e; unfold do_step in Hin; cbn [step snd] in Hin;
    try (now destruct Hin).
  - unfold reconcile, updatePlanets in Hin.
    destruct (remove_old _ _ _) as [st1 e1] eqn:E. cbn [snd] in Hin.
    assert (He1 : e1 = snd (remove_old
                              (List.map celestial_body_id
                                 (planetsData (props (set_planetsData snapshot st))))
                              (map_keys (planets (set_planetsData snapshot st)))
                              (set_planetsData snapshot st)))
      by now rewrite E.
    rewrite He1 in Hin.
    apply remove_old_effect_In in Hin; [| apply (wf_keys st Hwf)].
    destruct Hin as (? & ? & ? & ? & _ & _ & _ & _ & _ & [H | H]); discriminate.
  - split; [reflexivity |].
    apply onCanvasClick_In in Hin as (id' & Hid & E). now injection E as <-.
  - cbn [_animate snd] in Hin.
    destruct Hin as [H | [H | []]]; discriminate.
Qed.

Lemma no_frame_app (l1 l2 : list Event) :
  no_frame l1 -> no_frame l2 -> no_frame (l1 ++ l2).
Proof.
  unfold no_frame. intros H1 H2. rewrite forallb_app, H1, H2. reflexivity.
Qed.

(** A hover id was set by the most recent frame, at the end of which
    its body was live. *)
Lemma hover_origin (evs : list Event) (id : string) :
  hoveredPlanetId (hover (fst (do_run evs init_state))) = Some id ->
  exists evs1 fi evs2,
    evs = evs1 ++ EvFrame fi :: evs2
    /\ no_frame evs2
    /\ map_has id (planets (fst (do_run (evs1 ++ [EvFrame fi]) init_state))) = true.
Proof.
  induction evs as [| e evs IH] using rev_ind; [discriminate |].
  destruct (run_snoc Math_random intersectObjects controls_update
              evs e init_state) as [Hfst _].
  fold do_run do_step in Hfst. rewrite Hfst.
  set (st := fst (do_run evs init_state)) in *.
  intros Hhov. destruct (is_frame e) eqn:Hf.
  - destruct e; try discriminate.
    exists evs, fi, []. split; [reflexivity |]. split; [reflexivity |].
    rewrite Hfst.
    unfold do_step in *. cbn [step] in *.
    destruct (animate_hover_live intersectObjects controls_update fi st)
      as [Hn | (id' & Hs & _ & Hl)]; [congruence |].
    rewrite Hs in Hhov. now injection Hhov as <-.
  - rewrite step_hover_nonframe in Hhov by exact Hf.
    destruct (IH Hhov) as (evs1 & fi & evs2 & -> & Hnf & Hlive).
    exists evs1, fi, (evs2 ++ [e]).
    split; [now rewrite <- app_assoc, <- app_comm_cons |].
    split; [| exact Hlive].
    apply no_frame_app; [exact Hnf |].
    unfold no_frame. simpl. now rewrite Hf.
Qed.

(** A selection event was emitted by a click, with the id hovered at
    that moment. *)
Lemma dispatch_origin (evs : list Event) (id : string) :
  In (DispatchPlanetSelected id) (snd (do_run evs init_state)) ->
  exists evs1 evs3,
    evs = evs1 ++ EvClick :: evs3
    /\ hoveredPlanetId (hover (fst (do_run evs1 init_state))) = Some id.
Proof.
  induction evs as [| e evs IH] using rev_ind; [intros [] |].
  destruct (run_snoc Math_random intersectObjects controls_update
              evs e init_state) as [_ Hsnd].
  fold do_run do_step in Hsnd. rewrite Hsnd.
  set (st := fst (do_run evs init_state)) in *.
  intros Hin. apply in_app_or in Hin as [Hin | Hin].
  - destruct (IH Hin) as (evs1 & evs3 & -> & Hhov).
    exists evs1, (evs3 ++ [e]).
    split; [now rewrite <- app_assoc, <- app_comm_cons | exact Hhov].
  - assert (Hwf : wf st) by (apply run_wf, init_state_wf).
    destruct (step_dispatch e st id Hwf Hin) as [-> Hhov].
    exists evs, []. split; [reflexivity | exact Hhov].
Qed.

Lemma hit_candidates_live (fi : FrameInput) (st : AxeeVisuals3D)
      (c : ref * option Group) :
  wf st ->
  In c (hit_candidates (frame_motion controls_update fi st)) ->
  exists id g,
    map_get id (planets st) = Some (fst c)
    /\ snd c = Some g
    /\ userData_id g = id.
Proof.
  intros Hwf Hin. unfold hit_candidates in Hin.
  apply in_map_iff in Hin as (r & <- & Hr).
  change (planets (frame_motion controls_update fi st)) with (planets st) in Hr.
  unfold map_values in Hr. apply in_map_iff in Hr as ([id r'] & E & Hin).
  simpl in E; subst r'.
  destruct (wf_store st Hwf id r Hin) as (g & Hg & Hid).
  destruct (animate_stored intersectObjects controls_update fi st r g Hg)
    as (g' & Hg' & Hsame).
  exists id, g'. cbn [fst snd].
  split; [apply In_map_get; [apply (wf_keys st Hwf) | exact Hin] |].
  split; [exact Hg' |].
  destruct Hsame as (_ & Hid' & _). congruence.
Qed.

End Selection.

(** C10, as stated, fails: between a frame and a click the host may
    remove the hovered body. A frame hovers [earth], the next snapshot is
    empty, and the click that follows emits a selection event for
    [earth], which is not live any more; the hover id still names it. *)
Lemma selection_event_names_removed_body :
  let res := run half_random first_candidate_hit still_controls
                 stale_hover_history init_state in
  hoveredPlanetId (hover (fst res)) = Some "earth"%string
  /\ map_has "earth" (planets (fst res)) = false
  /\ snd res = [RequestAnimationFrame; ComposerRender;
                GeometryDispose (OMesh 0%nat 0%nat);
                MaterialDispose (OMesh 0%nat 0%nat);
                GeometryDispose (OMesh 0%nat 1%nat);
                MaterialDispose (OMesh 0%nat 1%nat);
                DispatchPlanetSelected "earth"].
Proof. cbv zeta. repeat split; reflexivity. Qed.

(** C10 (amended). Along every run of the component: the candidates of
    the hit test of a frame are the live planet groups and nothing else
    (each is registered under the id it carries); at the end of a frame
    the hover id is unset or the id of a body live at that moment; a
    hover id was set by the most recent frame, at the end of which its
    body was live; and every selection event emitted comes from a click
    and names the body hovered at the most recent frame before that
    click, live at the end of that frame. *)
Theorem hit_test_and_selection :
  forall (Math_random : nat -> R)
         (intersectObjects : Raycast) (controls_update : ControlsUpdate)
         (evs : list Event),
    let run := run Math_random intersectObjects controls_update in
    let st := fst (run evs init_state) in
    (forall fi c,
        In c (hit_candidates (frame_motion controls_update fi st)) ->
        exists id g,
          map_get id (planets st) = Some (fst c)
          /\ snd c = Some g /\ userData_id g = id)
    /\ (forall fi,
          let st' := fst (_animate intersectObjects controls_update fi st) in
          hoveredPlanetId (hover st') = None
          \/ exists id, hoveredPlanetId (hover st') = Some id
                        /\ map_has id (planets st') = true)
    /\ (forall id,
          hoveredPlanetId (hover st) = Some id ->
          exists evs1 fi evs2,
            evs = evs1 ++ EvFrame fi :: evs2
            /\ no_frame evs2
            /\ map_has id (planets (fst (run (evs1 ++ [EvFrame fi]) init_state)))
               = true)
    /\ (forall id,
          In (DispatchPlanetSelected id) (snd (run evs init_state)) ->
          exists evs1 fi evs2 evs3,
            evs = evs1 ++ EvFrame fi :: evs2 ++ EvClick :: evs3
            /\ no_frame evs2
            /\ map_has id (planets (fst (run (evs1 ++ [EvFrame fi]) init_state)))
               = true).
Proof.
  intros rnd io cu evs run0 st.
  assert (Hwf : wf st) by (apply run_wf, init_state_wf).
  split; [| split; [| split]].
  - intros fi c Hc. now apply (hit_candidates_live io cu fi st c Hwf).
  - intros fi st'.
    destruct (animate_hover_live io cu fi st) as [H | (id & H1 & _ & H2)];
      [now left | right; now exists id].
  - intros id Hid. now apply hover_origin.
  - intros id Hin.
    destruct (dispatch_origin rnd io cu evs id Hin) as (evsA & evs3 & -> & Hhov).
    destruct (hover_origin rnd io cu evsA id Hhov) as (evs1 & fi & evs2 & -> & Hnf & Hl).
    exists evs1, fi, evs2, evs3.
    split; [now rewrite <- app_assoc, <- app_comm_cons |].
    split; [exact Hnf | exact Hl].
Qed.

(** ** Teardown *)

Lemma in_order_app (phase : Effect -> nat) (k : nat) (l1 l2 : list Effect) :
  in_order phase l1 -> in_order phase l2 ->
  (forall e, In e l1 -> (phase e <= k)%nat) ->
  (forall e, In e l2 -> (k <= phase e)%nat) ->
  in_order phase (l1 ++ l2).
Proof.
  unfold in_order. intros H1 H2 Hlo Hhi.
  induction l1 as [| a l1 IH]; simpl; [exact H2 |].
  inversion H1 as [| ? ? Hs Hf]; subst.
  constructor.
  - apply IH; [exact Hs |]. intros e He. apply Hlo. now right.
  - apply Forall_app. split; [exact Hf |].
    apply Forall_forall. intros b Hb.
    specialize (Hlo a (or_introl eq_refl)). specialize (Hhi b Hb). lia.
Qed.

Lemma in_order_const (phase : Effect -> nat) (k : nat) (l : list Effect) :
  (forall e, In e l -> phase e = k) -> in_order phase l.
Proof.
  unfold in_order. induction l as [| a l IH]; intros H; constructor.
  - apply IH. intros e He. apply H. now right.
  - apply Forall_forall. intros b Hb.
    rewrite (H a (or_introl eq_refl)), (H b (or_intror Hb)). lia.
Qed.

Lemma disconnectedCallback_shape (st : AxeeVisuals3D) :
  wf st ->
  disconnectedCallback st
  = [RemoveWindowListener "resize";
     RemoveEventListener "pointermove";
     RemoveEventListener "click";
     CancelAnimationFrame (animationFrameId st)]
    ++ audio_stops st
    ++ [ControlsDispose]
    ++ shared_disposals
    ++ body_disposals st
    ++ [RendererDispose].
Proof.
  intros Hwf. unfold disconnectedCallback, audio_stops, body_disposals.
  rewrite (wf_scene st Hwf), flat_map_app.
  change (flat_map (teardown_object (objects st)) initial_scene)
    with shared_disposals.
  now rewrite <- !app_assoc.
Qed.

Lemma audio_stops_phase (st : AxeeVisuals3D) (e : Effect) :
  In e (audio_stops st) -> teardown_phase e = 2%nat.
Proof.
  unfold audio_stops. intros Hin. apply in_app_or in Hin as [Hin | Hin].
  - destruct (micStream (props st)) as [tracks |]; [| destruct Hin].
    apply in_map_iff in Hin as (t & <- & _). reflexivity.
  - destruct (audioContext st); [| destruct Hin].
    destruct Hin as [<- | []]. reflexivity.
Qed.

Lemma body_disposals_In (st : AxeeVisuals3D) (e : Effect) :
  wf st ->
  In e (body_disposals st) ->
  exists id r g i,
    map_get id (planets st) = Some r /\ nth_error (objects st) r = Some g
    /\ (i < List.length (children g))%nat
    /\ (e = GeometryDispose (OMesh r i) \/ e = MaterialDispose (OMesh r i)).
Proof.
  intros Hwf Hin. unfold body_disposals in Hin.
  apply in_flat_map in Hin as (o & Ho & He).
  apply in_map_iff in Ho as (r & <- & Hr).
  unfold map_values in Hr. apply in_map_iff in Hr as ([id r'] & E & Hr).
  simpl in E; subst r'.
  destruct (wf_store st Hwf id r Hr) as (g & Hg & _).
  cbn [teardown_object] in He. rewrite Hg in He.
  apply dispose_meshes_In in He as (i & Hi & He).
  exists id, r, g, i.
  split; [apply In_map_get; [apply (wf_keys st Hwf) | exact Hr] |].
  split; [exact Hg |]. split; [lia | exact He].
Qed.

Lemma body_disposals_once (st : AxeeVisuals3D) (id : string) (r : ref)
      (g : Group) (i : nat) :
  wf st ->
  map_get id (planets st) = Some r ->
  nth_error (objects st) r = Some g ->
  (i < List.length (children g))%nat ->
  count_occ Effect_eq_dec (body_disposals st) (GeometryDispose (OMesh r i)) = 1%nat
  /\ count_occ Effect_eq_dec (body_disposals st) (MaterialDispose (OMesh r i)) = 1%nat.
Proof.
  intros Hwf Hget Hg Hi. unfold body_disposals.
  assert (Hnd : NoDup (List.map OGroup (map_values (planets st)))).
  { apply Injective_map_NoDup; [| apply (wf_refs st Hwf)].
    intros a b E. now injection E. }
  assert (Hin : In (OGroup r) (List.map OGroup (map_values (planets st)))).
  { apply in_map. now apply map_get_value in Hget. }
  assert (Hone : forall e,
             (e = GeometryDispose (OMesh r i) \/ e = MaterialDispose (OMesh r i)) ->
             count_occ Effect_eq_dec
               (flat_map (teardown_object (objects st))
                         (List.map OGroup (map_values (planets st)))) e
             = count_occ Effect_eq_dec (dispose_meshes r 0 (children g)) e).
  { intros e He.
    rewrite (count_flat_map_one _ _ (OGroup r) e Hnd Hin).
    - cbn [teardown_object]. now rewrite Hg.
    - intros y Hy Hne Hiny.
      apply in_map_iff in Hy as (r' & <- & _).
      cbn [teardown_object] in Hiny.
      destruct (nth_error (objects st) r') as [g' |]; [| destruct Hiny].
      apply dispose_meshes_In in Hiny as (i' & _ & He').
      apply Hne.
      destruct He as [-> | ->], He' as [E | E]; inversion E; reflexivity. }
  destruct (dispose_meshes_once r 0 (children g) i ltac:(lia)) as [Hg1 Hm1].
  split; (rewrite Hone; [assumption | tauto]).
Qed.

Lemma disconnectedCallback_in_order (st : AxeeVisuals3D) :
  wf st -> in_order teardown_phase (disconnectedCallback st).
Proof.
  intros Hwf. rewrite (disconnectedCallback_shape st Hwf).
  assert (Hbody : forall e, In e (body_disposals st) -> teardown_phase e = 4%nat).
  { intros e He.
    apply (body_disposals_In st e Hwf) in He
      as (_ & r & _ & i & _ & _ & _ & [-> | ->]); reflexivity. }
  assert (Hshared : forall e, In e shared_disposals -> teardown_phase e = 4%nat).
  { intros e He. simpl in He. intuition (subst; reflexivity). }
  apply (in_order_app _ 1%nat).
  - repeat constructor; simpl; lia.
  - apply (in_order_app _ 2%nat).
    + apply (in_order_const _ 2%nat), audio_stops_phase.
    + apply (in_order_app _ 3%nat).
      * repeat constructor.
      * apply (in_order_app _ 4%nat).
        -- apply (in_order_const _ 4%nat), Hshared.
        -- apply (in_order_app _ 4%nat).
           ++ apply (in_order_const _ 4%nat), Hbody.
           ++ repeat constructor.
           ++ intros e He. rewrite (Hbody e He). lia.
           ++ intros e [<- | []]. simpl. lia.
        -- intros e He. rewrite (Hshared e He). lia.
        -- intros e He. apply in_app_or in He as [He | [<- | []]].
           ++ rewrite (Hbody e He). lia.
           ++ simpl. lia.
      * intros e [<- | []]. simpl. lia.
      * intros e He. apply in_app_or in He as [He | He].
        -- rewrite (Hshared e He). lia.
        -- apply in_app_or in He as [He | [<- | []]];
             [rewrite (Hbody e He) | simpl]; lia.
    + intros e He. rewrite (audio_stops_phase st e He). lia.
    + intros e He. apply in_app_or in He as [[<- | []] | He]; [simpl; lia |].
      apply in_app_or in He as [He | He]; [rewrite (Hshared e He); lia |].
      apply in_app_or in He as [He | [<- | []]];
        [rewrite (Hbody e He) | simpl]; lia.
  - intros e He. simpl in He. intuition (subst; simpl; lia).
  - intros e He. apply in_app_or in He as [He | He];
      [rewrite (audio_stops_phase st e He); lia |].
    apply in_app_or in He as [[<- | []] | He]; [simpl; lia |].
    apply in_app_or in He as [He | He]; [rewrite (Hshared e He); lia |].
    apply in_app_or in He as [He | [<- | []]];
      [rewrite (Hbody e He) | simpl]; lia.
Qed.

Lemma two_planets_with_mic_wf : wf two_planets_with_mic.
Proof. apply set_props_wf, two_planets_wf. Qed.

Lemma teardown_of_two_planets :
  disconnectedCallback two_planets_with_mic
  = [RemoveWindowListener "resize";
     RemoveEventListener "pointermove";
     RemoveEventListener "click";
     CancelAnimationFrame 0;
     TrackStop 0; TrackStop 1;
     ControlsDispose;
     GeometryDispose OStar; MaterialDispose OStar;
     GeometryDispose OAiEntity; MaterialDispose OAiEntity;
     GeometryDispose ONeuralNetwork; MaterialDispose ONeuralNetwork;
     GeometryDispose (OMesh 0 0); MaterialDispose (OMesh 0 0);
     GeometryDispose (OMesh 0 1); MaterialDispose (OMesh 0 1);
     GeometryDispose (OMesh 1 0); MaterialDispose (OMesh 1 0);
     GeometryDispose (OMesh 1 1); MaterialDispose (OMesh 1 1);
     GeometryDispose (OMesh 1 2); MaterialDispose (OMesh 1 2);
     RendererDispose]%nat.
Proof. reflexivity. Qed.

(** C8, as stated, fails on the teardown of a scene with two planets and
    a microphone: the pointer listeners are released before the frame
    callback is cancelled, not after the audio is stopped, and the
    star's resources are released before those of the bodies; the trace
    is not in the order the specification gives. *)
Lemma teardown_not_in_spec_order :
  ~ in_spec_order (disconnectedCallback two_planets_with_mic)
  /\ (exists l1 l2 l3,
        disconnectedCallback two_planets_with_mic
        = l1 ++ RemoveEventListener "pointermove"
             :: l2 ++ CancelAnimationFrame 0%nat :: l3)
  /\ (exists l1 l2 l3,
        disconnectedCallback two_planets_with_mic
        = l1 ++ GeometryDispose OStar
             :: l2 ++ GeometryDispose (OMesh 0%nat 0%nat) :: l3).
Proof.
  rewrite teardown_of_two_planets. split; [| split].
  - intros H.
    specialize (H [RemoveWindowListener "resize"]
                  (RemoveEventListener "pointermove")
                  [RemoveEventListener "click"]
                  (CancelAnimationFrame 0%nat)
                  _ 2%nat 0%nat eq_refl eq_refl eq_refl).
    lia.
  - exists [RemoveWindowListener "resize"], [RemoveEventListener "click"].
    eexists. reflexivity.
  - exists [RemoveWindowListener "resize"; RemoveEventListener "pointermove";
            RemoveEventListener "click"; CancelAnimationFrame 0%nat;
            TrackStop 0%nat; TrackStop 1%nat; ControlsDispose].
    exists [MaterialDispose OStar;
            GeometryDispose OAiEntity; MaterialDispose OAiEntity;
            GeometryDispose ONeuralNetwork; MaterialDispose ONeuralNetwork].
    eexists. reflexivity.
Qed.

(** C8 (amended). Teardown performs its steps in this order: it releases
    the resize, pointermove and click listeners, cancels the scheduled
    frame callback, stops the audio capture (every track of the stream,
    then the audio context), disposes the controls, releases the
    geometry and material of the star, the entity and the network, then
    of every mesh of every live body (each exactly once), and last
    releases the renderer. *)
Theorem teardown_order :
  forall st : AxeeVisuals3D,
    wf st ->
    in_order teardown_phase (disconnectedCallback st)
    /\ disconnectedCallback st
       = [RemoveWindowListener "resize";
          RemoveEventListener "pointermove";
          RemoveEventListener "click";
          CancelAnimationFrame (animationFrameId st)]
         ++ audio_stops st
         ++ [ControlsDispose]
         ++ shared_disposals
         ++ body_disposals st
         ++ [RendererDispose]
    /\ (forall e, In e (audio_stops st) ->
          e = AudioContextClose \/ exists t, e = TrackStop t)
    /\ (forall e, In e (body_disposals st) ->
          exists id r g i,
            map_get id (planets st) = Some r /\ nth_error (objects st) r = Some g
            /\ (i < List.length (children g))%nat
            /\ (e = GeometryDispose (OMesh r i) \/ e = MaterialDispose (OMesh r i)))
    /\ (forall id r g i,
          map_get id (planets st) = Some r ->
          nth_error (objects st) r = Some g ->
          (i < List.length (children g))%nat ->
          count_occ Effect_eq_dec (disconnectedCallback st)
                    (GeometryDispose (OMesh r i)) = 1%nat
          /\ count_occ Effect_eq_dec (disconnectedCallback st)
                       (MaterialDispose (OMesh r i)) = 1%nat).
Proof.
  intros st Hwf.
  pose proof (disconnectedCallback_shape st Hwf) as Hshape.
  split; [now apply disconnectedCallback_in_order |].
  split; [exact Hshape |]. split; [| split].
  - intros e He. unfold audio_stops in He. apply in_app_or in He as [He | He].
    + destruct (micStream (props st)) as [tracks |]; [| destruct He].
      apply in_map_iff in He as (t & <- & _). right. now exists t.
    + destruct (audioContext st); [| destruct He].
      destruct He as [<- | []]. now left.
  - intros e He. now apply body_disposals_In.
  - intros id r g i Hget Hg Hi.
    destruct (body_disposals_once st id r g i Hwf Hget Hg Hi) as [Hg1 Hm1].
    assert (Hrest : forall e,
               (e = GeometryDispose (OMesh r i) \/ e = MaterialDispose (OMesh r i)) ->
               count_occ Effect_eq_dec (disconnectedCallback st) e
               = count_occ Effect_eq_dec (body_disposals st) e).
    { intros e He. rewrite Hshape. rewrite !count_occ_app.
      assert (Ha : count_occ Effect_eq_dec (audio_stops st) e = 0%nat).
      { apply count_occ_not_In. intros Hin.
        apply audio_stops_phase in Hin. destruct He as [-> | ->]; discriminate. }
      rewrite Ha.
      destruct He as [-> | ->]; cbn [count_occ shared_disposals];
        repeat (destruct (Effect_eq_dec _ _) as [E | _];
                [discriminate E |]); lia. }
    split; (rewrite Hrest; [assumption | tauto]).
Qed.

Lemma teardown_order_witness :
  wf two_planets_with_mic
  /\ in_order teardown_phase (disconnectedCallback two_planets_with_mic).
Proof.
  split; [exact two_planets_with_mic_wf |].
  exact (proj1 (teardown_order two_planets_with_mic two_planets_with_mic_wf)).
Defined.

(** ** The camera over frames *)

Lemma vlength_nonneg (v : Vector3) : 0 <= vlength v.
Proof. unfold vlength. apply sqrt_pos. Qed.













(* ================================================================== *)
(** * Part III. Further properties of the code                          *)
(* ================================================================== *)

(** ** Creating and removing one planet *)

Lemma map_delete_last (k : string) (v : ref) (m : PlanetMap) :
  map_has k m = false -> map_delete k (m ++ [(k, v)]) = m.
Proof.
  unfold map_has. induction m as [| [k0 v0] m IH]; simpl.
  - now rewrite String.eqb_refl.
  - destruct (String.eqb k k0); [discriminate |].
    intros H. now rewrite IH.
Qed.

Lemma scene_remove_last (o : Object3D) (l : list Object3D) :
  ~ In o l -> scene_remove o (l ++ [o]) = l.
Proof.
  intros H. rewrite scene_remove_app_notin by exact H.
  simpl. destruct (Object3D_eq_dec o o); [apply app_nil_r | congruence].
Qed.

Lemma dispose_meshes_length (r : ref) (j : nat) (ms : list Mesh) :
  List.length (dispose_meshes r j ms) = (2 * List.length ms)%nat.
Proof.
  revert j. induction ms as [| m ms IH]; intros j; simpl; [reflexivity |].
  rewrite IH. lia.
Qed.

Lemma dispose_meshes_seq (r : ref) (j : nat) (ms : list Mesh) :
  dispose_meshes r j ms
  = flat_map (fun i => [GeometryDispose (OMesh r i); MaterialDispose (OMesh r i)])
             (seq j (List.length ms)).
Proof.
  revert j. induction ms as [| m ms IH]; intros j; simpl; [reflexivity |].
  now rewrite IH.
Qed.

(** Creating a planet under a fresh id and removing it again gives back
    the map and the scene graph as they were; the store keeps the
    discarded group; what is released is exactly the geometry and then
    the material of each mesh of that group, mesh after mesh in the
    order they were added (surface, atmosphere and, if there is one, the
    ring), each once: four releases for a planet without rings and six
    for one with rings. *)
Theorem createPlanet_removePlanet_round_trip :
  forall (Math_random : nat -> R) (data : PlanetData) (index : nat)
         (st : AxeeVisuals3D),
    wf st ->
    map_has (celestial_body_id data) (planets st) = false ->
    let st1 := createPlanet Math_random data index st in
    let res := removePlanet (celestial_body_id data) st1 in
    planets (fst res) = planets st
    /\ scene (fst res) = scene st
    /\ objects (fst res) = objects st1
    /\ List.length (objects (fst res)) = S (List.length (objects st))
    /\ snd res
       = flat_map (fun i => [GeometryDispose (OMesh (List.length (objects st)) i);
                             MaterialDispose (OMesh (List.length (objects st)) i)])
                  (seq 0 (if hasRings (visualization data) then 3 else 2))
    /\ List.length (snd res)
       = (if hasRings (visualization data) then 6 else 4)%nat.
Proof.
  intros rnd data index st Hwf Hnew st1 res.
  assert (Hfresh : ~ In (OGroup (List.length (objects st))) (scene st)).
  { intros Hin. apply (wf_group_in_scene st _ Hwf) in Hin.
    apply (wf_ref_bound st _ Hwf) in Hin. lia. }
  assert (Hget : map_get (celestial_body_id data) (planets st1)
                 = Some (List.length (objects st)))
    by apply map_get_set_same.
  unfold res, removePlanet. rewrite Hget. cbn [fst snd]. fields.
  unfold st1, createPlanet. fields.
  rewrite map_set_fresh by exact Hnew.
  rewrite nth_error_app2 by lia. rewrite Nat.sub_diag. cbn [nth_error].
  unfold scene_add. rewrite (scene_remove_notin _ _ Hfresh).
  split; [now apply map_delete_last |].
  split; [now apply scene_remove_last |].
  split; [reflexivity |].
  split; [rewrite length_app; simpl; lia |].
  split.
  - rewrite dispose_meshes_seq. cbn [children].
    destruct (hasRings (visualization data)); reflexivity.
  - rewrite dispose_meshes_length. cbn [children].
    destruct (hasRings (visualization data)); reflexivity.
Qed.

Lemma createPlanet_removePlanet_round_trip_witness :
  (wf two_planets
   /\ map_has "titan" (planets two_planets) = false)
  /\ planets (fst (removePlanet "titan"
                     (createPlanet half_random
                        (mkPlanetData "titan" "Titan" "Icy moon"
                                      (mkVisualization "#aaa" "#bbb" "#ccc" true))
                        2 two_planets)))
     = planets two_planets
  /\ snd (removePlanet "titan"
            (createPlanet half_random
               (mkPlanetData "titan" "Titan" "Icy moon"
                             (mkVisualization "#aaa" "#bbb" "#ccc" true))
               2 two_planets))
     = [GeometryDispose (OMesh 2 0); MaterialDispose (OMesh 2 0);
        GeometryDispose (OMesh 2 1); MaterialDispose (OMesh 2 1);
        GeometryDispose (OMesh 2 2); MaterialDispose (OMesh 2 2)]%nat.
Proof.
  split; [split; [exact two_planets_wf | reflexivity] |].
  pose proof (createPlanet_removePlanet_round_trip half_random
                (mkPlanetData "titan" "Titan" "Icy moon"
                              (mkVisualization "#aaa" "#bbb" "#ccc" true))
                2 two_planets two_planets_wf eq_refl) as (H1 & _ & _ & _ & H5 & _).
  split; [exact H1 | exact H5].
Defined.

(** ** The size tier of a planet *)

Lemma toLowerCase_app (a b : string) :
  toLowerCase (a ++ b) = (toLowerCase a ++ toLowerCase b)%string.
Proof. induction a as [| c a IH]; simpl; [reflexivity | now rewrite IH]. Qed.

Lemma prefix_app (a b : string) : String.prefix a (a ++ b) = true.
Proof.
  induction a as [| c a IH]; simpl; [now destruct b |].
  destruct (ascii_dec c c); [exact IH | congruence].
Qed.

Lemma includes_prefix (sub s : string) :
  String.prefix sub s = true -> includes sub s = true.
Proof. destruct s; simpl; intros ->; reflexivity. Qed.

Lemma includes_app (sub a b : string) :
  includes sub (a ++ sub ++ b) = true.
Proof.
  induction a as [| c a IH].
  - change ("" ++ sub ++ b)%string with (sub ++ b)%string.
    apply includes_prefix, prefix_app.
  - simpl. rewrite IH. apply orb_true_r.
Qed.

(** A planet type that contains the word "gas" in any mix of upper and
    lower case gives the enlarged tier: surface sphere of radius 2.5,
    atmosphere shell of radius 2.6 and, when the record asks for rings,
    one ring from 3.0 to 5.0 as third and last mesh; the group has two
    meshes without rings and three with. *)
Theorem createPlanet_gas_tier :
  forall (Math_random : nat -> R) (data : PlanetData) (index : nat)
         (st : AxeeVisuals3D) (before word after : string),
    planetType data = (before ++ word ++ after)%string ->
    toLowerCase word = "gas"%string ->
    exists g,
      nth_error (objects (createPlanet Math_random data index st))
                (List.length (objects st)) = Some g
      /\ List.map geometry (children g)
         = SphereGeometry 2.5 64 64
           :: SphereGeometry (2.5 + 0.1) 64 64
           :: (if hasRings (visualization data)
               then [RingGeometry (2.5 + 0.5) (2.5 + 2.5) 128] else [])
      /\ List.length (children g)
         = (if hasRings (visualization data) then 3 else 2)%nat.
Proof.
  intros rnd data index st before word after Htype Hword.
  unfold createPlanet; fields.
  rewrite nth_error_app2 by lia. rewrite Nat.sub_diag. cbn [nth_error].
  eexists. split; [reflexivity |]. cbn [children].
  assert (Hgas : includes "gas" (toLowerCase (planetType data)) = true).
  { rewrite Htype, !toLowerCase_app, Hword. apply includes_app. }
  rewrite Hgas.
  destruct (hasRings (visualization data)); split; reflexivity.
Qed.

Lemma createPlanet_gas_tier_witness :
  (planetType saturn = ("" ++ "Gas" ++ " Giant")%string
   /\ toLowerCase "Gas" = "gas"%string)
  /\ exists g,
       nth_error (objects two_planets) 1 = Some g
       /\ List.length (children g) = 3%nat.
Proof.
  split; [split; reflexivity |].
  destruct (createPlanet_gas_tier half_random saturn 1
              (createPlanet half_random earth 0 init_state)
              "" "Gas" " Giant" eq_refl eq_refl) as (g & Hg & _ & Hlen).
  exists g. split; [exact Hg | exact Hlen].
Defined.

(** ** Orbit speeds and radii of every body ever created *)

Section Band.

Variable Math_random : nat -> R.
Variable intersectObjects : Raycast.
Variable controls_update : ControlsUpdate.
Hypothesis random_range : unit_random Math_random.

Let stored_in_band (st : AxeeVisuals3D) : Prop :=
  forall r g, nth_error (objects st) r = Some g -> in_band g.

Lemma createPlanet_band (d : PlanetData) (index : nat) (st : AxeeVisuals3D) :
  stored_in_band st -> stored_in_band (createPlanet Math_random d index st).
Proof.
  intros H r g. unfold createPlanet; fields. intros Hg.
  destruct (Nat.lt_ge_cases r (List.length (objects st))) as [Hlt | Hge].
  - rewrite nth_error_app1 in Hg by exact Hlt. now apply (H r).
  - rewrite nth_error_app2 in Hg by exact Hge.
    destruct (r - List.length (objects st))%nat as [| n]; simpl in Hg.
    + injection Hg as <-. unfold in_band. cbn [userData_orbitSpeed userData_orbitalRadius].
      pose proof (random_range (random_calls st)). split; [lra |].
      now exists index.
    + destruct n; discriminate.
Qed.

Lemma add_new_band (data : list PlanetData) (index : nat) (st : AxeeVisuals3D) :
  stored_in_band st -> stored_in_band (add_new Math_random data index st).
Proof.
  revert index st. induction data as [| d data IH]; intros index st H; simpl;
    [exact H |].
  destruct (negb (map_has (celestial_body_id d) (planets st))).
  - apply IH. now apply createPlanet_band.
  - now apply IH.
Qed.

Lemma step_band (e : Event) (st : AxeeVisuals3D) :
  stored_in_band st ->
  stored_in_band (fst (step Math_random intersectObjects controls_update e st)).
Proof.
  intros H. destruct e; cbn [step fst]; try exact H.
  - unfold reconcile. rewrite updatePlanets_unfold. cbn [fst].
    apply add_new_band. intros r g. rewrite remove_old_objects. apply H.
  - unfold focusOnSelectedPlanet.
    destruct (match match selectedPlanetId (props (set_selectedPlanetId sel st)) with
                    | Some id => if truthy id then Some id else None
                    | None => None
                    end with
              | Some id => _
              | None => _
              end) as [tp tl].
    exact H.
  - intros r g Hg.
    destruct (animate_registry intersectObjects controls_update fi st)
      as (_ & _ & Ho & _).
    rewrite Ho, nth_error_animate_planets in Hg.
    destruct (nth_error (objects st) r) as [g0 |] eqn:Hg0; [| discriminate].
    injection Hg as <-.
    destruct (iter_animate_same_body
                (count_occ Nat.eq_dec (map_values (planets st)) r)
                (delta fi) (elapsed fi) g0) as (_ & _ & Hr & Hs & _).
    destruct (H r g0 Hg0) as [Hb [k Hk]].
    split; [now rewrite Hs | exists k; now rewrite Hr].
Qed.

Lemma run_band (evs : list Event) (st : AxeeVisuals3D) :
  stored_in_band st ->
  stored_in_band (fst (run Math_random intersectObjects controls_update evs st)).
Proof.
  revert st. induction evs as [| e evs IH]; intros st H; [exact H |].
  rewrite run_cons. cbn [fst]. apply IH. now apply step_band.
Qed.

End Band.

(** As long as [Math.random] returns numbers in [0, 1), every planet
    group the component ever builds, at any point of any run, has an
    orbit speed from 0.1 to 0.2, ends included, and an orbital radius of
    the form [15 + 8 k], hence at least 15. *)
Theorem orbit_speed_band :
  forall (Math_random : nat -> R) (intersectObjects : Raycast)
         (controls_update : ControlsUpdate) (evs : list Event)
         (r : ref) (g : Group),
    unit_random Math_random ->
    nth_error (objects (fst (run Math_random intersectObjects controls_update
                                 evs init_state))) r = Some g ->
    0.1 <= userData_orbitSpeed g <= 0.2
    /\ (exists k : nat, userData_orbitalRadius g = 15 + INR k * 8)
    /\ 15 <= userData_orbitalRadius g.
Proof.
  intros rnd io cu evs r g Hrnd Hg.
  assert (Hinit : forall r g, nth_error (objects init_state) r = Some g -> in_band g).
  { intros r0 g0 H. destruct r0; discriminate. }
  destruct (run_band rnd io cu Hrnd evs init_state Hinit r g Hg) as [Hs [k Hk]].
  split; [exact Hs |]. split; [now exists k |].
  rewrite Hk. unfold baseRadius, radiusStep.
  pose proof (pos_INR k). lra.
Qed.

Lemma half_random_unit : unit_random half_random.
Proof. intros n. unfold half_random. lra. Qed.

Lemma orbit_speed_band_witness :
  exists g,
    (unit_random half_random
     /\ nth_error (objects (fst (run half_random first_candidate_hit still_controls
                                     (EvPlanetsData [earth; saturn] :: sample_history)
                                     init_state))) 1 = Some g)
    /\ 0.1 <= userData_orbitSpeed g <= 0.2.
Proof.
  eexists. split.
  - split; [exact half_random_unit | reflexivity].
  - exact (proj1 (orbit_speed_band half_random first_candidate_hit still_controls
                    (EvPlanetsData [earth; saturn] :: sample_history)
                    1%nat _ half_random_unit eq_refl)).
Defined.

(** ** Where a frame puts the bodies *)

Lemma orbit_position_on_circle (t : R) (g : Group) :
  vy (orbit_position t g) = 0
  /\ vx (orbit_position t g) * vx (orbit_position t g)
     + vz (orbit_position t g) * vz (orbit_position t g)
     = userData_orbitalRadius g * userData_orbitalRadius g.
Proof.
  unfold orbit_position; simpl. split; [reflexivity |].
  pose proof (sin2_cos2 (t * userData_orbitSpeed g)) as H.
  unfold Rsqr in H.
  set (c := cos (t * userData_orbitSpeed g)) in *.
  set (s := sin (t * userData_orbitSpeed g)) in *.
  replace (c * userData_orbitalRadius g * (c * userData_orbitalRadius g)
           + s * userData_orbitalRadius g * (s * userData_orbitalRadius g))
    with ((s * s + c * c)
          * (userData_orbitalRadius g * userData_orbitalRadius g)) by ring.
  rewrite H. ring.
Qed.

Lemma orbit_position_within (t : R) (g : Group) :
  0 <= userData_orbitalRadius g ->
  - userData_orbitalRadius g <= vx (orbit_position t g) <= userData_orbitalRadius g
  /\ - userData_orbitalRadius g <= vz (orbit_position t g) <= userData_orbitalRadius g.
Proof.
  intros Hr. unfold orbit_position. cbn [vx vz].
  pose proof (COS_bound (t * userData_orbitSpeed g)) as [Hc1 Hc2].
  pose proof (SIN_bound (t * userData_orbitSpeed g)) as [Hs1 Hs2].
  split; split; nra.
Qed.

(** After a frame every live body whose orbital radius is one of those
    [createPlanet] hands out lies in the plane [y = 0], with [x] and [z]
    no farther from the star than its orbital radius, whatever the
    elapsed time; the frame changes nothing of the body but its position
    and its rotation; and two live bodies on different orbital radii are
    not at the same place. *)
Theorem frame_positions_within_orbits :
  forall (intersectObjects : Raycast) (controls_update : ControlsUpdate)
         (fi : FrameInput) (st : AxeeVisuals3D)
         (id1 id2 : string) (r1 r2 : ref) (g1 g2 : Group) (k1 k2 : nat),
    map_get id1 (planets st) = Some r1 ->
    nth_error (objects st) r1 = Some g1 ->
    map_get id2 (planets st) = Some r2 ->
    nth_error (objects st) r2 = Some g2 ->
    userData_orbitalRadius g1 = 15 + INR k1 * 8 ->
    userData_orbitalRadius g2 = 15 + INR k2 * 8 ->
    exists g1' g2',
      nth_error (objects (fst (_animate intersectObjects controls_update fi st))) r1
      = Some g1'
      /\ nth_error (objects (fst (_animate intersectObjects controls_update fi st))) r2
         = Some g2'
      /\ vy (position g1') = 0
      /\ - userData_orbitalRadius g1 <= vx (position g1') <= userData_orbitalRadius g1
      /\ - userData_orbitalRadius g1 <= vz (position g1') <= userData_orbitalRadius g1
      /\ same_body g1 g1'
      /\ (k1 <> k2 -> position g1' <> position g2').
Proof.
  intros io cu fi st id1 id2 r1 r2 g1 g2 k1 k2 H1 Hg1 H2 Hg2 Hk1 Hk2.
  destruct (animate_body io cu fi st id1 r1 g1 H1 Hg1) as (g1' & Hg1' & Hsame & Hp1).
  destruct (animate_body io cu fi st id2 r2 g2 H2 Hg2) as (g2' & Hg2' & _ & Hp2).
  assert (Hr1 : 0 <= userData_orbitalRadius g1)
    by (rewrite Hk1; pose proof (pos_INR k1); lra).
  assert (Hr2 : 0 <= userData_orbitalRadius g2)
    by (rewrite Hk2; pose proof (pos_INR k2); lra).
  destruct (orbit_position_within (elapsed fi) g1 Hr1) as [Hx Hz].
  exists g1', g2'. split; [exact Hg1' |]. split; [exact Hg2' |].
  split; [rewrite Hp1; apply orbit_position_on_circle |].
  split; [rewrite Hp1; exact Hx |].
  split; [rewrite Hp1; exact Hz |].
  split; [exact Hsame |].
  intros Hne Heq. apply Hne.
  rewrite Hp1, Hp2 in Heq.
  destruct (orbit_position_on_circle (elapsed fi) g1) as [_ Hc1].
  destruct (orbit_position_on_circle (elapsed fi) g2) as [_ Hc2].
  rewrite Heq in Hc1. rewrite Hc1 in Hc2.
  assert (Hrr : userData_orbitalRadius g1 = userData_orbitalRadius g2) by nra.
  rewrite Hk1, Hk2 in Hrr.
  apply INR_eq. lra.
Qed.

Lemma frame_positions_within_orbits_witness :
  exists g1 g2,
    (map_get "earth" (planets two_planets) = Some 0%nat
     /\ nth_error (objects two_planets) 0 = Some g1
     /\ map_get "saturn" (planets two_planets) = Some 1%nat
     /\ nth_error (objects two_planets) 1 = Some g2
     /\ userData_orbitalRadius g1 = 15 + INR 0 * 8
     /\ userData_orbitalRadius g2 = 15 + INR 1 * 8)
    /\ exists g1' g2',
         nth_error (objects (fst (_animate no_hit still_controls sample_frame
                                           two_planets))) 0 = Some g1'
         /\ nth_error (objects (fst (_animate no_hit still_controls sample_frame
                                              two_planets))) 1 = Some g2'
         /\ vy (position g1') = 0
         /\ position g1' <> position g2'.
Proof.
  eexists. eexists.
  split.
  - split; [reflexivity |]. split; [reflexivity |].
    split; [reflexivity |]. split; [reflexivity |].
    split; reflexivity.
  - destruct (frame_positions_within_orbits no_hit still_controls sample_frame
                two_planets "earth" "saturn" 0%nat 1%nat _ _ 0%nat 1%nat
                eq_refl eq_refl eq_refl eq_refl eq_refl eq_refl)
      as (g1' & g2' & H1 & H2 & H3 & _ & _ & _ & H7).
    exists g1', g2'. split; [exact H1 |]. split; [exact H2 |].
    split; [exact H3 |]. apply H7. discriminate.
Defined.

Lemma store_update_length (r : ref) (f : Group -> Group) (s : list Group) :
  List.length (store_update r f s) = List.length s.
Proof.
  revert r. induction s as [| g s IH]; intros r; destruct r; simpl;
    try reflexivity.
  now rewrite IH.
Qed.

Lemma animate_objects_length (intersectObjects : Raycast)
      (controls_update : ControlsUpdate) (fi : FrameInput) (st : AxeeVisuals3D) :
  List.length (objects (fst (_animate intersectObjects controls_update fi st)))
  = List.length (objects st).
Proof.
  destruct (animate_registry intersectObjects controls_update fi st)
    as (_ & _ & -> & _).
  unfold animate_planets. generalize (map_values (planets st)) (objects st).
  intros l. induction l as [| v l IH]; intros s; simpl; [reflexivity |].
  now rewrite IH, store_update_length.
Qed.

(** In a well-formed registry a frame turns every live body by exactly
    [delta * 0.5] about its axis, once, and leaves the groups of removed
    bodies that remain in the store as they are. *)
Theorem frame_rotation_advance :
  forall (intersectObjects : Raycast) (controls_update : ControlsUpdate)
         (fi : FrameInput) (st : AxeeVisuals3D),
    wf st ->
    (forall id r g,
        map_get id (planets st) = Some r ->
        nth_error (objects st) r = Some g ->
        exists g',
          nth_error (objects (fst (_animate intersectObjects controls_update fi st))) r
          = Some g'
          /\ rotation_y g' = rotation_y g + delta fi * 0.5)
    /\ (forall r g,
          nth_error (objects st) r = Some g ->
          ~ In r (map_values (planets st)) ->
          nth_error (objects (fst (_animate intersectObjects controls_update fi st))) r
          = Some g)
    /\ List.length (objects (fst (_animate intersectObjects controls_update fi st)))
       = List.length (objects st).
Proof.
  intros io cu fi st Hwf.
  destruct (animate_registry io cu fi st) as (_ & _ & Ho & _).
  rewrite Ho. split; [| split].
  - intros id r g Hget Hg.
    rewrite nth_error_animate_planets, Hg.
    assert (Hc : count_occ Nat.eq_dec (map_values (planets st)) r = 1%nat).
    { apply NoDup_count_occ'; [apply (wf_refs st Hwf) |].
      now apply map_get_value in Hget. }
    rewrite Hc. eexists. split; reflexivity.
  - intros r g Hg Hout.
    rewrite nth_error_animate_planets, Hg.
    apply (count_occ_not_In Nat.eq_dec) in Hout. now rewrite Hout.
  - rewrite <- Ho. apply animate_objects_length.
Qed.

Lemma frame_rotation_advance_witness :
  wf two_planets
  /\ List.length (objects (fst (_animate no_hit still_controls sample_frame
                                         two_planets)))
     = List.length (objects two_planets).
Proof.
  split; [exact two_planets_wf |].
  exact (proj2 (proj2 (frame_rotation_advance no_hit still_controls sample_frame
                         two_planets two_planets_wf))).
Defined.

(** ** The interaction state handed to the entity program *)

(** A frame writes the elapsed time to [uTime] and the interaction state
    to [uState]: 1 when listening (also when speaking at the same time),
    2 when speaking only, 0 otherwise. So the colour of the entity
    pulses exactly when the component is speaking and not listening; a
    listening entity has the listening palette and pulse factor 1. *)
Theorem frame_entity_state :
  forall (intersectObjects : Raycast) (controls_update : ControlsUpdate)
         (fi : FrameInput) (st : AxeeVisuals3D) (u : EntityUniforms),
    aiEntity st = Some u ->
    exists u',
      aiEntity (fst (_animate intersectObjects controls_update fi st)) = Some u'
      /\ uTime u' = elapsed fi
      /\ uState u' = (if isListening (props st) then 1
                      else if isSpeaking (props st) then 2 else 0)%Z
      /\ (isListening (props st) = true ->
          baseColor (uState u') = listening_color
          /\ pulse (uState u') (uTime u') = 1)
      /\ (isListening (props st) = false -> isSpeaking (props st) = true ->
          baseColor (uState u') = speaking_color
          /\ pulse (uState u') (uTime u') = 1 + sin (elapsed fi * 8) * 0.15)
      /\ (isListening (props st) = false -> isSpeaking (props st) = false ->
          baseColor (uState u') = idle_color
          /\ pulse (uState u') (uTime u') = 1).
Proof.
  intros io cu fi st u Hu.
  unfold _animate. cbn [fst aiEntity frame_motion props].
  rewrite Hu. eexists. split; [reflexivity |]. cbn [uTime uState].
  split; [reflexivity |]. split; [reflexivity |].
  destruct (isListening (props st)), (isSpeaking (props st));
    repeat split; intros; try discriminate; reflexivity.
Qed.

Lemma frame_entity_state_witness :
  aiEntity (set_isSpeaking true (set_isListening true init_state))
  = Some (mkEntityUniforms 0 0)
  /\ exists u',
       aiEntity (fst (_animate no_hit still_controls sample_frame
                        (set_isSpeaking true (set_isListening true init_state))))
       = Some u'
       /\ uState u' = 1%Z.
Proof.
  split; [reflexivity |].
  destruct (frame_entity_state no_hit still_controls sample_frame
              (set_isSpeaking true (set_isListening true init_state))
              (mkEntityUniforms 0 0) eq_refl) as (u' & H1 & _ & H3 & _).
  exists u'. split; [exact H1 | exact H3].
Defined.

(** ** Hovering a planet *)

(** When the nearest intersection of a frame is a mesh of a live planet
    whose id is not empty, the frame makes that planet the hovered one:
    the hover id is its id, the cursor becomes a pointer, a bound
    tooltip is shown with the planet's name at 15 pixels right of and
    below the pointer, and a click then selects exactly that planet. *)
Theorem frame_hovers_nearest_planet :
  forall (intersectObjects : Raycast) (controls_update : ControlsUpdate)
         (fi : FrameInput) (st : AxeeVisuals3D)
         (first : Intersection) (rest : list Intersection)
         (id : string) (r : ref) (i : nat) (g : Group),
    wf st ->
    frame_intersects intersectObjects controls_update fi st = first :: rest ->
    object first = OMesh r i ->
    map_get id (planets st) = Some r ->
    nth_error (objects st) r = Some g ->
    id <> ""%string ->
    let st' := fst (_animate intersectObjects controls_update fi st) in
    hoveredPlanetId (hover st') = Some id
    /\ cursor (hover st') = "pointer"%string
    /\ (forall t, tooltipElement (hover st) = Some t ->
          tooltipElement (hover st')
          = Some (mkTooltip "block"
                    (v2x (pointer (hover st)) * (innerWidth fi / 2)
                     + innerWidth fi / 2 + 15)
                    (- v2y (pointer (hover st)) * (innerHeight fi / 2)
                     + innerHeight fi / 2 + 15)
                    (name g)))
    /\ onCanvasClick st' = [DispatchPlanetSelected id].
Proof.
  intros io cu fi st first rest id r i g Hwf Hint Hobj Hget Hg Hne st'.
  destruct (wf_get st id r Hwf Hget) as (g0 & Hg0 & Hid).
  assert (g0 = g) by congruence. subst g0.
  destruct (animate_stored io cu fi st r g Hg) as (g' & Hg' & Hname & Hid' & _).
  assert (Hhit : hovered_group (frame_intersects io cu fi st)
                               (frame_motion cu fi st) = Some g').
  { rewrite Hint. unfold hovered_group. rewrite Hobj. cbn [parent].
    change (objects (frame_motion cu fi st))
      with (objects (fst (_animate io cu fi st))).
    rewrite Hg'. rewrite Hid', Hid.
    change (planets (frame_motion cu fi st)) with (planets st).
    assert (Ht : truthy id = true) by now apply truthy_nonempty.
    unfold map_has. now rewrite Ht, Hget. }
  assert (Hhover : hover st' = hover_update fi (Some g') (hover st)).
  { unfold st'. now rewrite animate_hover, Hhit. }
  assert (Hid'' : hoveredPlanetId (hover st') = Some id).
  { rewrite Hhover. cbn [hover_update hoveredPlanetId]. congruence. }
  split; [exact Hid'' |].
  split; [now rewrite Hhover |].
  split.
  - intros t Ht. rewrite Hhover. cbn [hover_update tooltipElement].
    rewrite Ht. now rewrite Hname.
  - unfold onCanvasClick. rewrite Hid''.
    assert (Ht : truthy id = true) by now apply truthy_nonempty.
    now rewrite Ht.
Qed.

Lemma frame_hovers_nearest_planet_witness :
  exists g,
    (wf two_planets
     /\ frame_intersects first_candidate_hit still_controls sample_frame two_planets
        = [mkIntersection 1 (OMesh 0%nat 0%nat)]
     /\ map_get "earth" (planets two_planets) = Some 0%nat
     /\ nth_error (objects two_planets) 0 = Some g
     /\ "earth"%string <> ""%string)
    /\ hoveredPlanetId
         (hover (fst (_animate first_candidate_hit still_controls sample_frame
                               two_planets)))
       = Some "earth"%string.
Proof.
  eexists.
  assert (Hne : "earth"%string <> ""%string) by discriminate.
  split.
  - split; [exact two_planets_wf |]. split; [reflexivity |].
    split; [reflexivity |]. split; [reflexivity | exact Hne].
  - exact (proj1 (frame_hovers_nearest_planet
                    first_candidate_hit still_controls sample_frame two_planets
                    (mkIntersection 1 (OMesh 0%nat 0%nat)) [] "earth" 0%nat 0%nat _
                    two_planets_wf eq_refl eq_refl eq_refl eq_refl Hne)).
Defined.

(** ** Commanding the camera *)

(** Changing the selection never touches the registry, the hover state
    or the current camera pose. Clearing it (or selecting the empty id)
    commands the default view [(0, 15, 40)] looking at the origin and
    turns auto-rotation on. Selecting a non-empty id turns auto-rotation
    off; if no planet is live under that id the commanded pose stays as
    it was, otherwise the camera is sent to the planet's current
    position plus [(0, 3, 10)], looking at that position. Frames leave
    the commanded pose alone: it is the planet's position at the time of
    the selection, not a pose that follows the planet. *)
Theorem selection_commands_camera :
  forall (st : AxeeVisuals3D) (sel : option string),
    let st' := focusOnSelectedPlanet (set_selectedPlanetId sel st) in
    (planets st' = planets st /\ objects st' = objects st /\ scene st' = scene st
     /\ hover st' = hover st
     /\ camera_position (rig st') = camera_position (rig st)
     /\ controls_target (rig st') = controls_target (rig st))
    /\ (sel = None \/ sel = Some ""%string ->
        targetPosition (rig st') = mkVector3 0 15 40
        /\ targetLookAt (rig st') = mkVector3 0 0 0
        /\ controls_autoRotate (rig st') = true)
    /\ (forall id, sel = Some id -> id <> ""%string ->
          controls_autoRotate (rig st') = false
          /\ (map_get id (planets st) = None ->
              targetPosition (rig st') = targetPosition (rig st)
              /\ targetLookAt (rig st') = targetLookAt (rig st))
          /\ (forall r g,
                map_get id (planets st) = Some r ->
                nth_error (objects st) r = Some g ->
                targetPosition (rig st') = vadd (position g) (mkVector3 0 3 10)
                /\ targetLookAt (rig st') = position g))
    /\ (forall (intersectObjects : Raycast) (controls_update : ControlsUpdate) fi,
          targetPosition (rig (fst (_animate intersectObjects controls_update fi st')))
          = targetPosition (rig st')
          /\ targetLookAt (rig (fst (_animate intersectObjects controls_update fi st')))
             = targetLookAt (rig st')
          /\ controls_autoRotate
               (rig (fst (_animate intersectObjects controls_update fi st')))
             = controls_autoRotate (rig st')).
Proof.
  intros st sel st'.
  assert (Hframe : forall (io : Raycast) (cu : ControlsUpdate) fi,
             targetPosition (rig (fst (_animate io cu fi st')))
             = targetPosition (rig st')
             /\ targetLookAt (rig (fst (_animate io cu fi st')))
                = targetLookAt (rig st')
             /\ controls_autoRotate (rig (fst (_animate io cu fi st')))
                = controls_autoRotate (rig st'))
    by (intros; repeat split).
  unfold st', focusOnSelectedPlanet in *.
  change (selectedPlanetId (props (set_selectedPlanetId sel st))) with sel in *.
  change (planets (set_selectedPlanetId sel st)) with (planets st) in *.
  change (objects (set_selectedPlanetId sel st)) with (objects st) in *.
  change (rig (set_selectedPlanetId sel st)) with (rig st) in *.
  clear st'.
  destruct sel as [id |].
  - destruct (truthy id) eqn:Ht.
    + apply truthy_nonempty in Ht.
      destruct (map_get id (planets st)) as [r |] eqn:Hget.
      * destruct (nth_error (objects st) r) as [g |] eqn:Hg.
        -- split; [repeat split |]. split; [| split; [| exact Hframe]].
           ++ intros [H | H]; [discriminate | congruence].
           ++ intros id' E _. injection E as <-. split; [reflexivity |].
              split; [intros H; congruence |].
              intros r' g' Hr' Hg'. fields.
              assert (r' = r) by congruence. subst r'.
              assert (g' = g) by congruence. subst g'. now split.
        -- split; [repeat split |]. split; [| split; [| exact Hframe]].
           ++ intros [H | H]; [discriminate | congruence].
           ++ intros id' E _. injection E as <-. split; [reflexivity |].
              split; [intros H; congruence |].
              intros r' g' Hr' Hg'. congruence.
      * split; [repeat split |]. split; [| split; [| exact Hframe]].
        -- intros [H | H]; [discriminate | congruence].
        -- intros id' E _. injection E as <-. split; [reflexivity |].
           split; [intros _; now split | intros r' g' Hr'; congruence].
    + assert (id = ""%string).
      { destruct (string_dec id "") as [E | n]; [assumption |].
        apply truthy_nonempty in n. congruence. }
      subst id.
      split; [repeat split |]. split; [| split; [| exact Hframe]].
      * intros _. repeat split.
      * intros id' E Hne. congruence.
  - split; [repeat split |]. split; [| split; [| exact Hframe]].
    + intros _. repeat split.
    + intros id' H. discriminate.
Qed.

(** ** The pointer in normalised device coordinates *)

(** A pointer event inside the canvas rectangle (of positive width and
    height) is stored with both coordinates in [-1, 1]: the left edge
    maps to x = -1, the right edge to x = 1, the top edge to y = 1 and
    the bottom edge to y = -1; the hover id, the cursor and the tooltip
    are not touched. *)
Theorem onPointerMove_normalised :
  forall (event : PointerEvent) (st : AxeeVisuals3D),
    0 < rect_width event ->
    0 < rect_height event ->
    rect_left event <= clientX event <= rect_left event + rect_width event ->
    rect_top event <= clientY event <= rect_top event + rect_height event ->
    let p := pointer (hover (onPointerMove event st)) in
    (-1 <= v2x p <= 1 /\ -1 <= v2y p <= 1)
    /\ (clientX event = rect_left event -> v2x p = -1)
    /\ (clientX event = rect_left event + rect_width event -> v2x p = 1)
    /\ (clientY event = rect_top event -> v2y p = 1)
    /\ (clientY event = rect_top event + rect_height event -> v2y p = -1)
    /\ hoveredPlanetId (hover (onPointerMove event st)) = hoveredPlanetId (hover st)
    /\ cursor (hover (onPointerMove event st)) = cursor (hover st)
    /\ tooltipElement (hover (onPointerMove event st)) = tooltipElement (hover st).
Proof.
  intros event st Hw Hh Hx Hy p. unfold p, onPointerMove. fields. cbn [v2x v2y].
  set (w := rect_width event) in *. set (h := rect_height event) in *.
  set (dx := clientX event - rect_left event).
  set (dy := clientY event - rect_top event).
  assert (Hdx : 0 <= dx / w <= 1).
  { unfold dx. split.
    - apply Rmult_le_pos; [lra | left; now apply Rinv_0_lt_compat].
    - apply (Rmult_le_reg_r w); [exact Hw |].
      unfold Rdiv. rewrite Rmult_assoc, Rinv_l by lra. lra. }
  assert (Hdy : 0 <= dy / h <= 1).
  { unfold dy. split.
    - apply Rmult_le_pos; [lra | left; now apply Rinv_0_lt_compat].
    - apply (Rmult_le_reg_r h); [exact Hh |].
      unfold Rdiv. rewrite Rmult_assoc, Rinv_l by lra. lra. }
  split; [split; lra |].
  split.
  { intros E. unfold dx. rewrite E. unfold Rdiv. ring_simplify
      ((rect_left event - rect_left event) * / w * 2 - 1). reflexivity. }
  split.
  { intros E. unfold dx. rewrite E.
    replace (rect_left event + w - rect_left event) with w by ring.
    unfold Rdiv. rewrite Rinv_r by lra. lra. }
  split.
  { intros E. unfold dy. rewrite E. unfold Rdiv.
    replace (rect_top event - rect_top event) with 0 by ring. lra. }
  split.
  { intros E. unfold dy. rewrite E.
    replace (rect_top event + h - rect_top event) with h by ring.
    unfold Rdiv. rewrite Rinv_r by lra. lra. }
  repeat split.
Qed.

Lemma onPointerMove_normalised_witness :
  (0 < 800 /\ 0 < 600 /\ 10 <= 410 <= 10 + 800 /\ 20 <= 320 <= 20 + 600)
  /\ -1 <= v2x (pointer (hover (onPointerMove
                                  (mkPointerEvent 410 320 10 20 800 600)
                                  init_state))) <= 1.
Proof.
  assert (H1 : 0 < 800) by lra. assert (H2 : 0 < 600) by lra.
  assert (H3 : 10 <= 410 <= 10 + 800) by lra.
  assert (H4 : 20 <= 320 <= 20 + 600) by lra.
  split; [repeat split; lra |].
  exact (proj1 (proj1 (onPointerMove_normalised
                         (mkPointerEvent 410 320 10 20 800 600) init_state
                         H1 H2 H3 H4))).
Defined.

(** ** No resource is released twice *)

Section Releases.

Variable Math_random : nat -> R.
Variable intersectObjects : Raycast.
Variable controls_update : ControlsUpdate.

Let do_step := step Math_random intersectObjects controls_update.
Let do_run := run Math_random intersectObjects controls_update.

Lemma reconcile_has_iff (snapshot : list PlanetData) (st : AxeeVisuals3D)
      (id : string) :
  wf st ->
  map_has id (planets (fst (reconcile Math_random snapshot st))) = true
  <-> In id (List.map celestial_body_id snapshot).
Proof.
  intros Hwf. unfold reconcile. rewrite updatePlanets_unfold. cbn [fst].
  set (st0 := set_planetsData snapshot st).
  change (planetsData (props st0)) with snapshot.
  rewrite add_new_has. split; [| tauto].
  intros [H | H]; [| exact H].
  unfold map_has in H. rewrite remove_old_get in H by apply (wf_keys st Hwf).
  destruct (array_includes (List.map celestial_body_id snapshot) id) eqn:E.
  - now apply array_includes_In.
  - rewrite andb_true_r in H.
    destruct (array_includes (map_keys (planets st0)) id) eqn:Hk; [discriminate |].
    apply array_includes_false in Hk. apply map_get_None in Hk.
    now rewrite Hk in H.
Qed.

Lemma reconcile_objects_extend (snapshot : list PlanetData) (st : AxeeVisuals3D) :
  exists ext,
    objects (fst (reconcile Math_random snapshot st)) = objects st ++ ext.
Proof.
  unfold reconcile. rewrite updatePlanets_unfold. cbn [fst].
  destruct (add_new_objects Math_random
              (planetsData (props (set_planetsData snapshot st))) 0
              (fst (remove_old
                      (List.map celestial_body_id
                                (planetsData (props (set_planetsData snapshot st))))
                      (map_keys (planets (set_planetsData snapshot st)))
                      (set_planetsData snapshot st)))) as [ext Hext].
  exists ext. now rewrite Hext, remove_old_objects.
Qed.

(** A reference live after [reconcile] was live before or is new. *)
Lemma reconcile_values (snapshot : list PlanetData) (st : AxeeVisuals3D)
      (r : ref) :
  wf st ->
  In r (map_values (planets (fst (reconcile Math_random snapshot st)))) ->
  In r (map_values (planets st)) \/ (List.length (objects st) <= r)%nat.
Proof.
  intros Hwf Hin.
  pose proof (reconcile_wf Math_random snapshot st Hwf) as Hwf'.
  destruct (Nat.lt_ge_cases r (List.length (objects st))) as [Hlt | Hge];
    [left | now right].
  unfold map_values in Hin. apply in_map_iff in Hin as ([id r'] & E & Hin).
  simpl in E; subst r'.
  destruct (wf_store _ Hwf' id r Hin) as (g' & Hg' & Hid').
  destruct (reconcile_objects_extend snapshot st) as [ext Hext].
  rewrite Hext, nth_error_app1 in Hg' by exact Hlt.
  apply In_map_get in Hin; [| apply (wf_keys _ Hwf')].
  assert (Hlive' : map_has id (planets (fst (reconcile Math_random snapshot st)))
                   = true) by (unfold map_has; now rewrite Hin).
  apply (reconcile_has_iff snapshot st id Hwf) in Hlive'.
  destruct (map_get id (planets st)) as [r0 |] eqn:Hget.
  - destruct (reconcile_retained Math_random snapshot st id r0 Hwf Hget Hlive')
      as [Hkeep _].
    assert (r0 = r) by congruence. subst r0. now apply map_get_value in Hget.
  - exfalso.
    destruct (first_occurrence snapshot id Hlive') as (i & d & Hnth & Hd & Hfirst).
    clear Hid' Hg'. subst id.
    assert (Hnew : map_has (celestial_body_id d)
                     (planets (fst (remove_old
                                      (List.map celestial_body_id snapshot)
                                      (map_keys (planets st))
                                      (set_planetsData snapshot st)))) = false).
    { apply remove_old_has_false. unfold map_has.
      change (planets (set_planetsData snapshot st)) with (planets st).
      now rewrite Hget. }
    destruct (add_new_created Math_random snapshot 0 _ i d Hnth Hnew Hfirst)
      as (r1 & g1 & H1 & _ & H3 & _).
    rewrite remove_old_objects in H3.
    change (objects (set_planetsData snapshot st)) with (objects st) in H3.
    unfold reconcile in Hin. rewrite updatePlanets_unfold in Hin. cbn [fst] in Hin.
    change (planetsData (props (set_planetsData snapshot st))) with snapshot in Hin.
    change (planets (set_planetsData snapshot st)) with (planets st) in Hin.
    rewrite H1 in Hin. injection Hin as ->. lia.
Qed.

Lemma step_values (e : Event) (st : AxeeVisuals3D) (r : ref) :
  wf st ->
  In r (map_values (planets (fst (do_step e st)))) ->
  In r (map_values (planets st)) \/ (List.length (objects st) <= r)%nat.
Proof.
  intros Hwf. destruct e; unfold do_step; cbn [step fst];
    try (intros H; now left).
  - now apply reconcile_values.
  - unfold focusOnSelectedPlanet.
    destruct (match match selectedPlanetId (props (set_selectedPlanetId sel st)) with
                    | Some id => if truthy id then Some id else None
                    | None => None
                    end with
              | Some id => _
              | None => _
              end) as [tp tl].
    intros H; now left.
Qed.

Lemma step_objects_length (e : Event) (st : AxeeVisuals3D) :
  wf st ->
  (List.length (objects st) <= List.length (objects (fst (do_step e st))))%nat.
Proof.
  intros Hwf. destruct e; unfold do_step; cbn [step fst]; try apply Nat.le_refl.
  - destruct (reconcile_objects_extend snapshot st) as [ext ->].
    rewrite length_app. lia.
  - unfold focusOnSelectedPlanet.
    destruct (match match selectedPlanetId (props (set_selectedPlanetId sel st)) with
                    | Some id => if truthy id then Some id else None
                    | None => None
                    end with
              | Some id => _
              | None => _
              end) as [tp tl].
    apply Nat.le_refl.
  - rewrite animate_objects_length. apply Nat.le_refl.
Qed.

End Releases.

Lemma dispose_meshes_count_le (r r' : ref) (j i : nat) (ms : list Mesh)
      (e : Effect) :
  releases_mesh e r' i ->
  (count_occ Effect_eq_dec (dispose_meshes r j ms) e <= 1)%nat.
Proof.
  intros He.
  destruct (in_dec Effect_eq_dec e (dispose_meshes r j ms)) as [Hin | Hout].
  - apply dispose_meshes_In in Hin as (i' & Hi' & He').
    assert (r = r' /\ i' = i) as [-> ->]
      by (destruct He as [-> | ->], He' as [E | E]; inversion E; now split).
    destruct (dispose_meshes_once r' j ms i Hi') as [Hg Hm].
    destruct He as [-> | ->]; lia.
  - apply (count_occ_not_In Effect_eq_dec) in Hout. lia.
Qed.

Section ReleaseCount.

Variable Math_random : nat -> R.
Variable intersectObjects : Raycast.
Variable controls_update : ControlsUpdate.

Let do_step := step Math_random intersectObjects controls_update.
Let do_run := run Math_random intersectObjects controls_update.

Lemma reconcile_release_In (snapshot : list PlanetData) (st : AxeeVisuals3D)
      (e : Effect) (r : ref) (i : nat) :
  wf st ->
  releases_mesh e r i ->
  In e (snd (reconcile Math_random snapshot st)) ->
  In r (map_values (planets st))
  /\ ~ In r (map_values (planets (fst (reconcile Math_random snapshot st)))).
Proof.
  intros Hwf He Hin.
  pose proof (reconcile_wf Math_random snapshot st Hwf) as Hwf'.
  assert (Hrel : exists id g,
             map_get id (planets st) = Some r /\ nth_error (objects st) r = Some g
             /\ ~ In id (List.map celestial_body_id snapshot)).
  { unfold reconcile in Hin. rewrite updatePlanets_unfold in Hin. cbn [snd] in Hin.
    apply remove_old_effect_In in Hin; [| apply (wf_keys st Hwf)].
    destruct Hin as (id & r' & g & i' & _ & Hout & Hget & Hg & _ & He').
    assert (r' = r) by (destruct He as [-> | ->], He' as [E | E];
                        inversion E; reflexivity).
    subst r'. exists id, g. repeat split; assumption. }
  destruct Hrel as (id & g & Hget & Hg & Hout).
  split; [now apply map_get_value in Hget |].
  intros Hlive. unfold map_values in Hlive.
  apply in_map_iff in Hlive as ([id' r'] & E & Hlive). simpl in E; subst r'.
  destruct (wf_store _ Hwf' id' r Hlive) as (g' & Hg' & Hid').
  destruct (reconcile_objects_extend Math_random snapshot st) as [ext Hext].
  rewrite Hext, nth_error_app1 in Hg'
    by (apply nth_error_Some; congruence).
  destruct (wf_get st id r Hwf Hget) as (g0 & Hg0 & Hid0).
  assert (Eid : id' = id) by congruence.
  apply In_map_get in Hlive; [| apply (wf_keys _ Hwf')].
  apply Hout. apply (reconcile_has_iff Math_random snapshot st id Hwf).
  unfold map_has. rewrite <- Eid. now rewrite Hlive.
Qed.

Lemma reconcile_release_count (snapshot : list PlanetData) (st : AxeeVisuals3D)
      (e : Effect) (r : ref) (i : nat) :
  wf st ->
  releases_mesh e r i ->
  (count_occ Effect_eq_dec (snd (reconcile Math_random snapshot st)) e <= 1)%nat.
Proof.
  intros Hwf He.
  destruct (in_dec Effect_eq_dec e (snd (reconcile Math_random snapshot st)))
    as [Hin | Hout];
    [| apply (count_occ_not_In Effect_eq_dec) in Hout; lia].
  unfold reconcile in *. rewrite updatePlanets_unfold in *. cbn [snd] in *.
  set (st0 := set_planetsData snapshot st) in *.
  change (planetsData (props st0)) with snapshot in *.
  pose proof Hin as Hin0.
  apply remove_old_effect_In in Hin; [| apply (wf_keys st Hwf)].
  destruct Hin as (id & r' & g & i' & Hkey & Hout & Hget & Hg & _ & He').
  assert (r' = r) by (destruct He as [-> | ->], He' as [E | E];
                      inversion E; reflexivity).
  subst r'.
  rewrite remove_old_effects by apply (wf_keys st Hwf).
  rewrite (count_flat_map_one _ _ id e (wf_keys st Hwf) Hkey).
  - destruct (negb (array_includes (List.map celestial_body_id snapshot) id));
      [| simpl; lia].
    rewrite (removePlanet_effects_live id st0 r g Hget Hg).
    now apply (dispose_meshes_count_le r r 0 i).
  - intros y Hy Hne Hiny.
    destruct (negb (array_includes (List.map celestial_body_id snapshot) y));
      [| destruct Hiny].
    apply removePlanet_effect_In in Hiny as (ry & gy & iy & H1 & _ & _ & H4).
    assert (ry = r) by (destruct He as [-> | ->], H4 as [E | E];
                        inversion E; reflexivity).
    subst ry. apply Hne. now apply (wf_ref_key st y id r Hwf).
Qed.

Lemma step_release_In (ev : Event) (st : AxeeVisuals3D)
      (e : Effect) (r : ref) (i : nat) :
  wf st ->
  releases_mesh e r i ->
  In e (snd (do_step ev st)) ->
  In r (map_values (planets st))
  /\ ~ In r (map_values (planets (fst (do_step ev st)))).
Proof.
  intros Hwf He. destruct ev; unfold do_step; cbn [step fst snd];
    try (intros H; exact (False_ind _ H)).
  - now apply reconcile_release_In with (i := i).
  - intros Hin. apply onCanvasClick_In in Hin as (id & _ & ->).
    destruct He; discriminate.
  - cbn [_animate snd]. intros [<- | [<- | []]]; destruct He; discriminate.
Qed.

Lemma step_release_count (ev : Event) (st : AxeeVisuals3D)
      (e : Effect) (r : ref) (i : nat) :
  wf st ->
  releases_mesh e r i ->
  (count_occ Effect_eq_dec (snd (do_step ev st)) e <= 1)%nat.
Proof.
  intros Hwf He.
  destruct (in_dec Effect_eq_dec e (snd (do_step ev st))) as [Hin | Hout];
    [| apply (count_occ_not_In Effect_eq_dec) in Hout; lia].
  destruct ev; unfold do_step in *; cbn [step snd] in *;
    try (now destruct Hin).
  - now apply reconcile_release_count with (r := r) (i := i).
  - apply onCanvasClick_In in Hin as (id & _ & ->). destruct He; discriminate.
  - cbn [_animate snd] in Hin.
    destruct Hin as [<- | [<- | []]]; destruct He; discriminate.
Qed.

Lemma teardown_release (st : AxeeVisuals3D) (e : Effect) (r : ref) (i : nat) :
  wf st ->
  releases_mesh e r i ->
  (count_occ Effect_eq_dec (disconnectedCallback st) e <= 1)%nat
  /\ (In e (disconnectedCallback st) -> In r (map_values (planets st))).
Proof.
  intros Hwf He.
  assert (Hshape := disconnectedCallback_shape st Hwf).
  assert (Hpart : forall l, (forall x, In x l -> teardown_phase x <> 4%nat
                                       \/ In x shared_disposals) ->
                            ~ In e l).
  { intros l Hl Hin. destruct (Hl e Hin) as [H | H].
    - destruct He as [-> | ->]; apply H; reflexivity.
    - simpl in H. destruct He as [-> | ->]; intuition discriminate. }
  assert (Hin_body : In e (disconnectedCallback st) -> In e (body_disposals st)).
  { rewrite Hshape. intros Hin.
    apply in_app_or in Hin as [Hin | Hin].
    { exfalso. revert Hin. apply Hpart. intros x Hx. left. simpl in Hx.
      intuition (subst; discriminate). }
    apply in_app_or in Hin as [Hin | Hin].
    { exfalso. revert Hin. apply Hpart. intros x Hx. left.
      rewrite (audio_stops_phase st x Hx). discriminate. }
    apply in_app_or in Hin as [Hin | Hin].
    { exfalso. revert Hin. apply Hpart. intros x [<- | []]. left. discriminate. }
    apply in_app_or in Hin as [Hin | Hin].
    { exfalso. revert Hin. apply Hpart. intros x Hx. now right. }
    apply in_app_or in Hin as [Hin | Hin]; [exact Hin |].
    exfalso. revert Hin. apply Hpart. intros x [<- | []]. left. discriminate. }
  split.
  - destruct (in_dec Effect_eq_dec e (disconnectedCallback st)) as [Hin | Hout];
      [| apply (count_occ_not_In Effect_eq_dec) in Hout; lia].
    pose proof (Hin_body Hin) as Hb.
    apply (body_disposals_In st e Hwf) in Hb
      as (id & r' & g & i' & Hget & Hg & Hi & He').
    assert (r' = r /\ i' = i) as [-> ->]
      by (destruct He as [-> | ->], He' as [E | E]; inversion E; now split).
    destruct (body_disposals_once st id r g i Hwf Hget Hg Hi) as [Hc1 Hc2].
    rewrite Hshape, !count_occ_app.
    assert (Hz : forall l, ~ In e l -> count_occ Effect_eq_dec l e = 0%nat)
      by (intros l; apply count_occ_not_In).
    rewrite (Hz [RemoveWindowListener "resize"; RemoveEventListener "pointermove";
                 RemoveEventListener "click";
                 CancelAnimationFrame (animationFrameId st)]),
            (Hz (audio_stops st)), (Hz [ControlsDispose]),
            (Hz shared_disposals), (Hz [RendererDispose]).
    + destruct He as [-> | ->]; lia.
    + apply Hpart. intros x [<- | []]. left. discriminate.
    + apply Hpart. intros x Hx. now right.
    + apply Hpart. intros x [<- | []]. left. discriminate.
    + apply Hpart. intros x Hx. left.
      rewrite (audio_stops_phase st x Hx). discriminate.
    + apply Hpart. intros x Hx. left. simpl in Hx.
      intuition (subst; discriminate).
  - intros Hin. apply Hin_body in Hin.
    apply (body_disposals_In st e Hwf) in Hin
      as (id & r' & g & i' & Hget & _ & _ & He').
    assert (r' = r) by (destruct He as [-> | ->], He' as [E | E];
                        inversion E; reflexivity).
    subst r'. now apply map_get_value in Hget.
Qed.

(** Releases over a whole life: the events [evs] from [st], then
    teardown. *)
Lemma life_release (evs : list Event) (st : AxeeVisuals3D)
      (e : Effect) (r : ref) (i : nat) :
  wf st ->
  releases_mesh e r i ->
  (count_occ Effect_eq_dec
     (snd (do_run evs st) ++ disconnectedCallback (fst (do_run evs st))) e
   <= 1)%nat
  /\ (~ In r (map_values (planets st)) ->
      (r < List.length (objects st))%nat ->
      count_occ Effect_eq_dec
        (snd (do_run evs st) ++ disconnectedCallback (fst (do_run evs st))) e
      = 0%nat).
Proof.
  intros Hwf He. revert st Hwf.
  induction evs as [| ev evs IH]; intros st Hwf.
  - change (do_run [] st) with (st, @nil Effect). cbn [fst snd app].
    destruct (teardown_release st e r i Hwf He) as [Hc Hl].
    split; [exact Hc |].
    intros Hdead _. apply count_occ_not_In. intros Hin. now apply Hdead, Hl.
  - unfold do_run. rewrite run_cons. cbn [fst snd]. fold do_run do_step.
    rewrite <- app_assoc, count_occ_app.
    set (st1 := fst (do_step ev st)).
    assert (Hwf1 : wf st1) by now apply step_wf.
    destruct (IH st1 Hwf1) as [IHle IHdead].
    pose proof (step_release_count ev st e r i Hwf He) as Hc.
    pose proof (step_release_In ev st e r i Hwf He) as Hin.
    pose proof (step_objects_length Math_random intersectObjects controls_update
                  ev st Hwf) as Hlen.
    fold do_step in Hlen. fold st1 in Hin, Hlen.
    assert (Hstay : ~ In r (map_values (planets st)) ->
                    (r < List.length (objects st))%nat ->
                    ~ In r (map_values (planets st1))).
    { intros Hdead Hlt Hlive.
      destruct (step_values Math_random intersectObjects controls_update
                  ev st r Hwf Hlive) as [H | H]; [contradiction | lia]. }
    split.
    + destruct (in_dec Effect_eq_dec e (snd (do_step ev st))) as [Hi | Ho].
      * destruct (Hin Hi) as [Hlive Hdead1].
        rewrite IHdead; [lia | exact Hdead1 |].
        apply (wf_ref_bound st r Hwf) in Hlive. lia.
      * apply (count_occ_not_In Effect_eq_dec) in Ho. rewrite Ho. exact IHle.
    + intros Hdead Hlt.
      assert (Ho : ~ In e (snd (do_step ev st))).
      { intros Hi. now destruct (Hin Hi). }
      apply (count_occ_not_In Effect_eq_dec) in Ho. rewrite Ho.
      rewrite IHdead; [reflexivity | now apply Hstay | lia].
Qed.

End ReleaseCount.

(** Over the whole life of the component (any sequence of events from a
    well-formed registry, followed by teardown) the geometry of a planet
    mesh is released at most once and so is its material: a body removed
    by a reconcile is not released again by teardown, and nothing of a
    body that was removed is released later. *)
Theorem no_release_twice :
  forall (Math_random : nat -> R) (intersectObjects : Raycast)
         (controls_update : ControlsUpdate)
         (evs : list Event) (st : AxeeVisuals3D) (r : ref) (i : nat),
    wf st ->
    let life :=
      snd (run Math_random intersectObjects controls_update evs st)
      ++ disconnectedCallback
           (fst (run Math_random intersectObjects controls_update evs st)) in
    (count_occ Effect_eq_dec life (GeometryDispose (OMesh r i)) <= 1)%nat
    /\ (count_occ Effect_eq_dec life (MaterialDispose (OMesh r i)) <= 1)%nat
    /\ (~ In r (map_values (planets st)) ->
        (r < List.length (objects st))%nat ->
        ~ In (GeometryDispose (OMesh r i)) life
        /\ ~ In (MaterialDispose (OMesh r i)) life).
Proof.
  intros rnd io cu evs st r i Hwf life.
  destruct (life_release rnd io cu evs st (GeometryDispose (OMesh r i)) r i Hwf
              (or_introl eq_refl)) as [Hg Hgd].
  destruct (life_release rnd io cu evs st (MaterialDispose (OMesh r i)) r i Hwf
              (or_intror eq_refl)) as [Hm Hmd].
  split; [exact Hg |]. split; [exact Hm |].
  intros Hdead Hlt. split; apply (count_occ_not_In Effect_eq_dec); auto.
Qed.

Lemma no_release_twice_witness :
  wf two_planets
  /\ (count_occ Effect_eq_dec
        (snd (run half_random first_candidate_hit still_controls
                  sample_history two_planets)
         ++ disconnectedCallback
              (fst (run half_random first_candidate_hit still_controls
                        sample_history two_planets)))
        (GeometryDispose (OMesh 0 0)) <= 1)%nat.
Proof.
  split; [exact two_planets_wf |].
  exact (proj1 (no_release_twice half_random first_candidate_hit still_controls
                  sample_history two_planets 0%nat 0%nat two_planets_wf)).
Defined.

(** ** What teardown releases *)

(** Teardown of a well-formed registry releases the geometry and the
    material of the star, the entity, the network and the meshes of the
    live bodies, and of nothing else: the starfield, the data trails and
    the lights are never released, geometry and material always go
    together, and no selection event is emitted. *)
Theorem teardown_releases :
  forall (st : AxeeVisuals3D) (o : Object3D),
    wf st ->
    (In (GeometryDispose o) (disconnectedCallback st)
     <-> In (MaterialDispose o) (disconnectedCallback st))
    /\ (In (GeometryDispose o) (disconnectedCallback st)
        <-> o = OStar \/ o = OAiEntity \/ o = ONeuralNetwork
            \/ exists id r g i,
                 o = OMesh r i /\ map_get id (planets st) = Some r
                 /\ nth_error (objects st) r = Some g
                 /\ (i < List.length (children g))%nat)
    /\ ~ In (GeometryDispose OStarfield) (disconnectedCallback st)
    /\ ~ In (GeometryDispose ODataTrails) (disconnectedCallback st)
    /\ (forall id, ~ In (DispatchPlanetSelected id) (disconnectedCallback st)).
Proof.
  intros st o Hwf.
  assert (Hshape := disconnectedCallback_shape st Hwf).
  assert (Hchar : forall (mk : Object3D -> Effect),
             (mk = GeometryDispose \/ mk = MaterialDispose) ->
             forall o', In (mk o') (disconnectedCallback st)
             <-> o' = OStar \/ o' = OAiEntity \/ o' = ONeuralNetwork
                 \/ exists id r g i,
                      o' = OMesh r i /\ map_get id (planets st) = Some r
                      /\ nth_error (objects st) r = Some g
                      /\ (i < List.length (children g))%nat).
  { intros mk Hmk o'. rewrite Hshape. split.
    - intros Hin.
      apply in_app_or in Hin as [Hin | Hin].
      { simpl in Hin. destruct Hmk as [-> | ->]; intuition discriminate. }
      apply in_app_or in Hin as [Hin | Hin].
      { apply audio_stops_phase in Hin. destruct Hmk as [-> | ->]; discriminate. }
      apply in_app_or in Hin as [Hin | Hin].
      { destruct Hin as [E | []]. destruct Hmk as [-> | ->]; discriminate. }
      apply in_app_or in Hin as [Hin | Hin].
      { simpl in Hin.
        destruct Hmk as [-> | ->];
          intuition (try discriminate;
                     match goal with
                     | H : _ ?a = _ ?b |- _ => injection H as <-; tauto
                     end). }
      apply in_app_or in Hin as [Hin | Hin].
      { apply (body_disposals_In st _ Hwf) in Hin
          as (id & r & g & i & Hget & Hg & Hi & He).
        right; right; right. exists id, r, g, i.
        destruct Hmk as [-> | ->], He as [E | E]; try discriminate;
          injection E as ->; repeat split; assumption. }
      destruct Hin as [E | []]. destruct Hmk as [-> | ->]; discriminate.
    - intros [-> | [-> | [-> | (id & r & g & i & -> & Hget & Hg & Hi)]]].
      + do 3 (apply in_or_app; right). apply in_or_app; left.
        destruct Hmk as [-> | ->]; simpl; tauto.
      + do 3 (apply in_or_app; right). apply in_or_app; left.
        destruct Hmk as [-> | ->]; simpl; tauto.
      + do 3 (apply in_or_app; right). apply in_or_app; left.
        destruct Hmk as [-> | ->]; simpl; tauto.
      + do 4 (apply in_or_app; right). apply in_or_app; left.
        destruct (body_disposals_once st id r g i Hwf Hget Hg Hi) as [H1 H2].
        destruct Hmk as [-> | ->];
          apply (count_occ_In Effect_eq_dec); lia. }
  pose proof (Hchar GeometryDispose (or_introl eq_refl)) as HG.
  pose proof (Hchar MaterialDispose (or_intror eq_refl)) as HM.
  split; [now rewrite HG, HM |]. split; [apply HG |].
  split.
  { rewrite HG. intros [H | [H | [H | (? & ? & ? & ? & H & _)]]]; discriminate. }
  split.
  { rewrite HG. intros [H | [H | [H | (? & ? & ? & ? & H & _)]]]; discriminate. }
  intros id Hin. rewrite Hshape in Hin.
  apply in_app_or in Hin as [Hin | Hin];
    [simpl in Hin; intuition discriminate |].
  apply in_app_or in Hin as [Hin | Hin];
    [apply audio_stops_phase in Hin; discriminate |].
  apply in_app_or in Hin as [Hin | Hin];
    [simpl in Hin; intuition discriminate |].
  apply in_app_or in Hin as [Hin | Hin];
    [simpl in Hin; intuition discriminate |].
  apply in_app_or in Hin as [Hin | Hin];
    [| simpl in Hin; intuition discriminate].
  apply (body_disposals_In st _ Hwf) in Hin
    as (? & ? & ? & ? & _ & _ & _ & [E | E]); discriminate.
Qed.

Lemma teardown_releases_witness :
  wf two_planets_with_mic
  /\ ~ In (GeometryDispose OStarfield) (disconnectedCallback two_planets_with_mic).
Proof.
  split; [exact two_planets_with_mic_wf |].
  exact (proj1 (proj2 (proj2 (teardown_releases two_planets_with_mic OStar
                                two_planets_with_mic_wf)))).
Defined.

(** ** Reconciling twice *)

Lemma reconcile_props (Math_random : nat -> R) (snapshot : list PlanetData)
      (st : AxeeVisuals3D) :
  props (fst (reconcile Math_random snapshot st))
  = props (set_planetsData snapshot st).
Proof.
  unfold reconcile. rewrite updatePlanets_unfold. cbn [fst].
  destruct (add_new_rest Math_random
              (planetsData (props (set_planetsData snapshot st))) 0
              (fst (remove_old
                      (List.map celestial_body_id
                                (planetsData (props (set_planetsData snapshot st))))
                      (map_keys (planets (set_planetsData snapshot st)))
                      (set_planetsData snapshot st))))
    as (_ & _ & _ & -> & _).
  destruct (remove_old_rest
              (List.map celestial_body_id
                        (planetsData (props (set_planetsData snapshot st))))
              (map_keys (planets (set_planetsData snapshot st)))
              (set_planetsData snapshot st))
    as (_ & _ & _ & -> & _).
  reflexivity.
Qed.

Lemma set_planetsData_same (snapshot : list PlanetData) (st : AxeeVisuals3D) :
  planetsData (props st) = snapshot -> set_planetsData snapshot st = st.
Proof.
  intros <-. destruct st as [sc ob pl ai rg hv [pd sel mic li sp] af ac rc].
  reflexivity.
Qed.

(** Applying the same snapshot a second time changes nothing at all and
    releases nothing; and the ids live after two reconciles in a row are
    those of the second snapshot alone, the bodies whose ids are in both
    snapshots keeping the group they had. *)
Theorem reconcile_twice :
  forall (Math_random : nat -> R) (st : AxeeVisuals3D)
         (s1 s2 : list PlanetData),
    wf st ->
    let st1 := fst (reconcile Math_random s1 st) in
    reconcile Math_random s1 st1 = (st1, [])
    /\ (forall id,
          map_has id (planets (fst (reconcile Math_random s2 st1))) = true
          <-> In id (List.map celestial_body_id s2))
    /\ (forall id r,
          map_get id (planets st1) = Some r ->
          In id (List.map celestial_body_id s2) ->
          map_get id (planets (fst (reconcile Math_random s2 st1))) = Some r
          /\ nth_error (objects (fst (reconcile Math_random s2 st1))) r
             = nth_error (objects st1) r).
Proof.
  intros rnd st s1 s2 Hwf st1.
  assert (Hwf1 : wf st1) by now apply reconcile_wf.
  split; [| split].
  - assert (Hpd : planetsData (props st1) = s1)
      by (unfold st1; now rewrite reconcile_props).
    unfold reconcile. rewrite (set_planetsData_same s1 st1 Hpd).
    unfold updatePlanets. rewrite Hpd.
    rewrite remove_old_noop.
    + f_equal. apply add_new_noop. intros d Hd.
      apply (reconcile_has_iff rnd s1 st _ Hwf). now apply in_map.
    + intros k Hk. apply (reconcile_has_iff rnd s1 st k Hwf).
      now apply map_has_In.
  - intros id. now apply reconcile_has_iff.
  - intros id r Hget Hin.
    destruct (reconcile_retained rnd s2 st1 id r Hwf1 Hget Hin) as [H1 H2].
    split; [exact H1 |].
    destruct (wf_get st1 id r Hwf1 Hget) as (g & Hg & _).
    rewrite Hg. now apply H2.
Qed.

Lemma reconcile_twice_witness :
  wf init_state
  /\ reconcile half_random [earth; saturn] two_planets = (two_planets, []).
Proof.
  split; [exact init_state_wf |].
  exact (proj1 (reconcile_twice half_random init_state [earth; saturn] []
                  init_state_wf)).
Defined.

(** ** Snapshots that grow by appending *)

Lemma nth_error_ids (l : list PlanetData) (i : nat) :
  nth_error (List.map celestial_body_id l) i
  = option_map celestial_body_id (nth_error l i).
Proof. apply nth_error_map. Qed.

(** The host appends each discovery to the end of its list. When the
    ids of a snapshot are distinct, the live bodies are those of its
    first part [s] and each sits on the radius of its position, then
    after reconciling with [s ++ t] every body, old or new, sits on the
    radius [15 + 8 i] of its position [i]; so no two live bodies share
    an orbital radius. *)
Theorem appended_snapshot_radii :
  forall (Math_random : nat -> R) (st : AxeeVisuals3D)
         (s t : list PlanetData),
    wf st ->
    NoDup (List.map celestial_body_id (s ++ t)) ->
    (forall id, map_has id (planets st) = true
                <-> In id (List.map celestial_body_id s)) ->
    radii_by_position st s ->
    let st' := fst (reconcile Math_random (s ++ t) st) in
    radii_by_position st' (s ++ t)
    /\ (forall i j di dj ri rj gi gj,
          nth_error (s ++ t) i = Some di ->
          nth_error (s ++ t) j = Some dj ->
          i <> j ->
          map_get (celestial_body_id di) (planets st') = Some ri ->
          nth_error (objects st') ri = Some gi ->
          map_get (celestial_body_id dj) (planets st') = Some rj ->
          nth_error (objects st') rj = Some gj ->
          userData_orbitalRadius gi <> userData_orbitalRadius gj).
Proof.
  intros rnd st s t Hwf Hnd Hlive Hpos st'.
  assert (Hfirst : forall i d j d',
             nth_error (s ++ t) i = Some d -> (j < i)%nat ->
             nth_error (s ++ t) j = Some d' ->
             celestial_body_id d' <> celestial_body_id d).
  { intros i d j d' Hi Hj Hd' E.
    assert (j = i); [| lia].
    apply (proj1 (NoDup_nth_error _) Hnd).
    - rewrite length_map. apply nth_error_Some. congruence.
    - rewrite !nth_error_ids, Hi, Hd'. simpl. now rewrite E. }
  assert (Hall : radii_by_position st' (s ++ t)).
  { intros i d Hi.
    destruct (Nat.lt_ge_cases i (List.length s)) as [Hlt | Hge].
    - rewrite nth_error_app1 in Hi by exact Hlt.
      destruct (Hpos i d Hi) as (r & g & Hget & Hg & Hr).
      assert (Hin : In (celestial_body_id d) (List.map celestial_body_id (s ++ t))).
      { rewrite map_app. apply in_or_app. left.
        apply in_map. now apply nth_error_In in Hi. }
      destruct (reconcile_retained rnd (s ++ t) st _ r Hwf Hget Hin) as [H1 H2].
      exists r, g. split; [exact H1 |]. split; [now apply H2 | exact Hr].
    - assert (Hnew : map_has (celestial_body_id d) (planets st) = false).
      { destruct (map_has (celestial_body_id d) (planets st)) eqn:E;
          [| reflexivity].
        apply Hlive in E. apply In_nth_error in E as [j Hj].
        rewrite nth_error_ids in Hj.
        destruct (nth_error s j) as [d' |] eqn:Hd'; [| discriminate].
        injection Hj as Hj.
        assert (Hjlt : (j < List.length s)%nat)
          by (apply nth_error_Some; congruence).
        exfalso. apply (Hfirst i d j d' Hi); [lia | | exact Hj].
        now rewrite nth_error_app1 by exact Hjlt. }
      destruct (reconcile_created rnd st (s ++ t) i d Hi Hnew)
        as (r & g & H1 & H2 & _ & H4).
      { intros j d' Hj Hd'. now apply (Hfirst i d j d'). }
      exists r, g. repeat split; assumption. }
  split; [exact Hall |].
  intros i j di dj ri rj gi gj Hi Hj Hne Hgi Hoi Hgj Hoj E.
  destruct (Hall i di Hi) as (ri' & gi' & A1 & A2 & A3).
  destruct (Hall j dj Hj) as (rj' & gj' & B1 & B2 & B3).
  assert (ri' = ri) by congruence. subst ri'.
  assert (rj' = rj) by congruence. subst rj'.
  assert (gi' = gi) by congruence. subst gi'.
  assert (gj' = gj) by congruence. subst gj'.
  rewrite A3, B3 in E. unfold baseRadius, radiusStep in E.
  assert (Hij : INR i = INR j) by lra.
  apply INR_eq in Hij. contradiction.
Qed.

Lemma two_planets_radii : radii_by_position two_planets [earth; saturn].
Proof.
  intros i d H. destruct i as [| [| i]]; simpl in H.
  - injection H as <-. exists 0%nat. eexists.
    split; [reflexivity |]. split; reflexivity.
  - injection H as <-. exists 1%nat. eexists.
    split; [reflexivity |]. split; reflexivity.
  - destruct i; discriminate.
Qed.

Lemma appended_snapshot_radii_witness :
  (wf two_planets
   /\ NoDup (List.map celestial_body_id ([earth; saturn] ++ [neptune]))
   /\ (forall id, map_has id (planets two_planets) = true
                  <-> In id (List.map celestial_body_id [earth; saturn]))
   /\ radii_by_position two_planets [earth; saturn])
  /\ radii_by_position
       (fst (reconcile half_random ([earth; saturn] ++ [neptune]) two_planets))
       ([earth; saturn] ++ [neptune]).
Proof.
  assert (H1 : NoDup (List.map celestial_body_id ([earth; saturn] ++ [neptune]))).
  { simpl. constructor; [simpl; intros [E | [E | []]]; discriminate |].
    constructor; [simpl; intros [E | []]; discriminate |].
    constructor; [simpl; tauto | constructor]. }
  assert (H2 : forall id, map_has id (planets two_planets) = true
                          <-> In id (List.map celestial_body_id [earth; saturn])).
  { intros id.
    exact (reconcile_has_iff half_random [earth; saturn] init_state id
             init_state_wf). }
  split; [split; [exact two_planets_wf |];
          split; [exact H1 |]; split; [exact H2 | exact two_planets_radii] |].
  exact (proj1 (appended_snapshot_radii half_random two_planets
                  [earth; saturn] [neptune]
                  two_planets_wf H1 H2 two_planets_radii)).
Defined.

(** ** Ranges in the entity fragment program *)

Lemma INR_samples : INR samples = 32.
Proof. unfold samples. simpl. lra. Qed.

Lemma audio_sum_bounds (uAudioData : R -> R -> R) (n : nat) :
  unit_field uAudioData -> 0 <= audio_sum uAudioData n <= INR n.
Proof.
  intros H. induction n as [| n IH].
  - simpl. lra.
  - rewrite S_INR. cbn [audio_sum].
    pose proof (H (INR n / INR samples) 0.5). lra.
Qed.

Lemma audio_sum_const (uAudioData : R -> R -> R) (c : R) (n : nat) :
  (forall u v, uAudioData u v = c) -> audio_sum uAudioData n = INR n * c.
Proof.
  intros H. induction n as [| n IH].
  - simpl. lra.
  - rewrite S_INR. cbn [audio_sum]. rewrite IH, H. lra.
Qed.

Lemma audioLevel_bounds (uAudioData : R -> R -> R) :
  unit_field uAudioData -> 0 <= audioLevel uAudioData <= 1.
Proof.
  intros H. unfold audioLevel.
  pose proof (audio_sum_bounds uAudioData samples H) as Hs.
  rewrite INR_samples in *. lra.
Qed.

Lemma clamp_bounds (x lo hi : R) : lo <= hi -> lo <= clamp x lo hi <= hi.
Proof.
  intros H. unfold clamp, Rmin, Rmax.
  destruct (Rle_dec x lo); destruct (Rle_dec _ hi); lra.
Qed.

Lemma clamp_inside (x lo hi : R) : lo <= x <= hi -> clamp x lo hi = x.
Proof.
  intros H. unfold clamp, Rmin, Rmax.
  destruct (Rle_dec x lo); destruct (Rle_dec _ hi); lra.
Qed.

Lemma smoothstep_01 (x : R) :
  smoothstep 0 1 x = clamp x 0 1 * clamp x 0 1 * (3 - 2 * clamp x 0 1).
Proof.
  unfold smoothstep. replace ((x - 0) / (1 - 0)) with x by field. reflexivity.
Qed.

Lemma smoothstep_bounds (x : R) : 0 <= smoothstep 0 1 x <= 1.
Proof.
  rewrite smoothstep_01.
  pose proof (clamp_bounds x 0 1 ltac:(lra)) as H.
  set (t := clamp x 0 1) in *.
  assert (H0 : 0 <= t * t) by nra.
  assert (H1 : 0 <= t * t * (3 - 2 * t)) by (apply Rmult_le_pos; lra).
  assert (H2 : 0 <= (1 - t) * (1 - t) * (1 + 2 * t)).
  { apply Rmult_le_pos; [nra | lra]. }
  replace (t * t * (3 - 2 * t)) with (1 - (1 - t) * (1 - t) * (1 + 2 * t))
    in * by ring.
  lra.
Qed.

Lemma smoothstep_low (x : R) : x <= 0 -> smoothstep 0 1 x = 0.
Proof.
  intros H. rewrite smoothstep_01.
  assert (E : clamp x 0 1 = 0).
  { unfold clamp, Rmin, Rmax.
    destruct (Rle_dec x 0); destruct (Rle_dec _ 1); lra. }
  rewrite E. ring.
Qed.

Lemma smoothstep_high (x : R) : 1 <= x -> smoothstep 0 1 x = 1.
Proof.
  intros H. rewrite smoothstep_01.
  assert (E : clamp x 0 1 = 1).
  { unfold clamp, Rmin, Rmax.
    destruct (Rle_dec x 0); destruct (Rle_dec _ 1); lra. }
  rewrite E. ring.
Qed.

Lemma clamp_mono (x y lo hi : R) : x <= y -> clamp x lo hi <= clamp y lo hi.
Proof.
  intros H. unfold clamp, Rmin, Rmax.
  destruct (Rle_dec x lo); destruct (Rle_dec y lo);
    repeat match goal with |- context [Rle_dec ?a ?b] => destruct (Rle_dec a b) end;
    lra.
Qed.

Lemma smoothstep_mono (x y : R) :
  x <= y -> smoothstep 0 1 x <= smoothstep 0 1 y.
Proof.
  intros H. rewrite !smoothstep_01.
  pose proof (clamp_bounds x 0 1 ltac:(lra)) as Hx.
  pose proof (clamp_bounds y 0 1 ltac:(lra)) as Hy.
  pose proof (clamp_mono x y 0 1 H) as Hm.
  set (a := clamp x 0 1) in *. set (b := clamp y 0 1) in *.
  assert (Hf : 0 <= 3 * (a + b) - 2 * (a * a + a * b + b * b)) by nra.
  replace (b * b * (3 - 2 * b)) with
    (a * a * (3 - 2 * a)
     + (b - a) * (3 * (a + b) - 2 * (a * a + a * b + b * b))) by ring.
  assert (0 <= (b - a) * (3 * (a + b) - 2 * (a * a + a * b + b * b)))
    by (apply Rmult_le_pos; lra).
  lra.
Qed.

Lemma fract_bounds (x : R) : 0 <= fract x < 1.
Proof.
  unfold fract. destruct (base_Int_part x) as [H1 H2]. lra.
Qed.

(** With audio samples in [0, 1] the average taken over the 32 sample
    positions is in [0, 1]; a field that is constant over the texture
    has that constant as its level, so a silent field has level 0. *)
Theorem audioLevel_range :
  forall uAudioData : R -> R -> R,
    unit_field uAudioData ->
    0 <= audioLevel uAudioData <= 1
    /\ (forall c, (forall u v, uAudioData u v = c) -> audioLevel uAudioData = c)
    /\ (forall i, (i < samples)%nat -> 0 <= INR i / INR samples < 1).
Proof.
  intros tex H. split; [now apply audioLevel_bounds |]. split.
  - intros c Hc. unfold audioLevel.
    rewrite (audio_sum_const tex c samples Hc), INR_samples. field.
  - intros i Hi. rewrite INR_samples.
    assert (0 <= INR i) by apply pos_INR.
    assert (INR i < 32).
    { rewrite <- INR_samples. now apply lt_INR. }
    lra.
Qed.

Lemma audioLevel_range_witness :
  unit_field (fun _ _ => 0) /\ audioLevel (fun _ _ => 0) = 0.
Proof.
  assert (H : unit_field (fun _ _ => 0)) by (intros u v; lra).
  split; [exact H |].
  exact (proj1 (proj2 (audioLevel_range (fun _ _ => 0) H)) 0 (fun _ _ => eq_refl)).
Defined.

(** The alpha of the entity fragment is always within [0, 1]. With
    audio samples and fresnel term in [0, 1] no clamping takes place:
    alpha is [fresnel * (0.3 + 0.7 * level)], between [0.3 * fresnel]
    (silence) and [fresnel]. *)
Theorem finalAlpha_range :
  forall (uAudioData : R -> R -> R) (fresnel : R),
    0 <= finalAlpha uAudioData fresnel <= 1
    /\ (unit_field uAudioData -> 0 <= fresnel <= 1 ->
        finalAlpha uAudioData fresnel
        = fresnel * (0.3 + audioLevel uAudioData * 0.7)
        /\ 0.3 * fresnel <= finalAlpha uAudioData fresnel <= fresnel)
    /\ ((forall u v, uAudioData u v = 0) -> 0 <= fresnel <= 1 ->
        finalAlpha uAudioData fresnel = 0.3 * fresnel).
Proof.
  intros tex fresnel. unfold finalAlpha.
  split; [apply clamp_bounds; lra |].
  assert (Hin : unit_field tex -> 0 <= fresnel <= 1 ->
                clamp (fresnel * (0.3 + audioLevel tex * 0.7)) 0 1
                = fresnel * (0.3 + audioLevel tex * 0.7)
                /\ 0.3 * fresnel <= fresnel * (0.3 + audioLevel tex * 0.7)
                   <= fresnel).
  { intros Hf Hfr. pose proof (audioLevel_bounds tex Hf) as Hl.
    assert (0.3 * fresnel <= fresnel * (0.3 + audioLevel tex * 0.7) <= fresnel)
      by nra.
    split; [apply clamp_inside; lra | assumption]. }
  split.
  - intros Hf Hfr. destruct (Hin Hf Hfr) as [E B]. rewrite E. now split.
  - intros Hz Hfr.
    assert (Hf : unit_field tex) by (intros u v; rewrite Hz; lra).
    destruct (Hin Hf Hfr) as [E _]. rewrite E.
    unfold audioLevel. rewrite (audio_sum_const tex 0 samples Hz). 
    rewrite INR_samples. field.
Qed.

Lemma bands_bounds (uAudioData : R -> R -> R) (t : R) (vUv : Vector2) :
  unit_field uAudioData -> 0 <= bands uAudioData t vUv <= 3.
Proof.
  intros H. unfold bands, highFreq.
  pose proof (smoothstep_bounds
                (sin (v2y vUv * (bandFrequency + lowFreq uAudioData * 10)
                      + t * bandSpeed))) as Hs.
  pose proof (H 0.8 0.5) as Hh.
  cbv zeta.
  set (b := smoothstep 0 1 _) in *.
  set (h := uAudioData 0.8 0.5) in *. nra.
Qed.

Lemma baseColor_cases (uState : Z) :
  baseColor uState = idle_color \/ baseColor uState = listening_color
  \/ baseColor uState = speaking_color.
Proof.
  unfold baseColor. destruct (uState =? 1)%Z; [tauto |].
  destruct (uState =? 2)%Z; tauto.
Qed.

Lemma pulse_bounds (uState : Z) (t : R) : 0.85 <= pulse uState t <= 1.15.
Proof.
  unfold pulse. destruct (uState =? 1)%Z; [lra |].
  destruct (uState =? 2)%Z; [| lra].
  pose proof (SIN_bound (t * 8)). lra.
Qed.

(** For every value of [uState] (values other than 1 and 2 are treated
    as idle), with audio samples in [0, 1] and a fresnel term that is
    not negative: the band term is in [0, 3], the pulse factor in
    [0.85, 1.15], the dither in [0, 0.05), and no component of the
    fragment colour is negative. *)
Theorem finalColor_nonnegative :
  forall (uAudioData : R -> R -> R) (uState : Z) (t : R) (vUv : Vector2)
         (fresnel : R),
    unit_field uAudioData ->
    0 <= fresnel ->
    0 <= bands uAudioData t vUv <= 3
    /\ 0.85 <= pulse uState t <= 1.15
    /\ 0 <= rand (mkVector2 (v2x vUv + t * 0.01) (v2y vUv + t * 0.01)) * 0.05 < 0.05
    /\ nonneg3 (combinedColor uAudioData uState t vUv fresnel)
    /\ nonneg3 (finalColor uAudioData uState t vUv fresnel)
    /\ ((uState <> 1)%Z -> (uState <> 2)%Z -> baseColor uState = idle_color).
Proof.
  intros tex uState t vUv fresnel Hf Hfr.
  pose proof (bands_bounds tex t vUv Hf) as Hb.
  pose proof (pulse_bounds uState t) as Hp.
  pose proof (audioLevel_bounds tex Hf) as Hl.
  pose proof (fract_bounds
                (sin (v2x (mkVector2 (v2x vUv + t * 0.01) (v2y vUv + t * 0.01))
                      * 12.9898
                      + v2y (mkVector2 (v2x vUv + t * 0.01) (v2y vUv + t * 0.01))
                        * 78.233) * 43758.5453)) as Hr.
  fold (rand (mkVector2 (v2x vUv + t * 0.01) (v2y vUv + t * 0.01))) in Hr.
  set (noise := rand _) in *.
  assert (Hcomb : nonneg3 (combinedColor tex uState t vUv fresnel)).
  { unfold combinedColor, mix, vadd, vscale, nonneg3. cbn [vx vy vz].
    set (b := bands tex t vUv) in *. set (l := audioLevel tex) in *.
    assert (Hcomp : forall base top : R,
               0 <= base -> base * 0.5 <= top ->
               0 <= (base * 0.5 * (1 - b) + top * b) * (0.2 + l * 1.5)
                    + base * fresnel * (0.5 + l * 2)).
    { intros base top Hbase Htop.
      assert (0 <= base * 0.5 * (1 - b) + top * b).
      { replace (base * 0.5 * (1 - b) + top * b)
          with (base * 0.5 + b * (top - base * 0.5)) by ring.
        assert (0 <= b * (top - base * 0.5)) by (apply Rmult_le_pos; lra).
        lra. }
      assert (0 <= (base * 0.5 * (1 - b) + top * b) * (0.2 + l * 1.5))
        by (apply Rmult_le_pos; lra).
      assert (0 <= base * fresnel * (0.5 + l * 2)).
      { apply Rmult_le_pos; [apply Rmult_le_pos |]; lra. }
      lra. }
    destruct (baseColor_cases uState) as [-> | [-> | ->]];
      unfold idle_color, listening_color, speaking_color; cbn [vx vy vz];
      repeat split; apply Hcomp; lra. }
  split; [exact Hb |]. split; [exact Hp |]. split; [lra |].
  split; [exact Hcomb |]. split.
  - destruct Hcomb as (Hx & Hy & Hz).
    unfold finalColor, vadd, vscale, nonneg3. cbn [vx vy vz]. fold noise.
    set (p := pulse uState t) in *.
    repeat split;
      match goal with
      | |- 0 <= ?c * p + _ =>
          assert (0 <= c * p) by (apply Rmult_le_pos; lra); lra
      end.
  - intros H1 H2. unfold baseColor.
    destruct (Z.eqb_spec uState 1); [contradiction |].
    destruct (Z.eqb_spec uState 2); [contradiction | reflexivity].
Qed.

Lemma finalColor_nonnegative_witness :
  (unit_field (fun _ _ => 0.5) /\ 0 <= 0.25)
  /\ nonneg3 (finalColor (fun _ _ => 0.5) 2 1 (mkVector2 0.5 0.5) 0.25).
Proof.
  assert (H : unit_field (fun _ _ => 0.5)) by (intros u v; lra).
  assert (H' : 0 <= 0.25) by lra.
  split; [split; assumption |].
  exact (proj1 (proj2 (proj2 (proj2 (proj2
           (finalColor_nonnegative (fun _ _ => 0.5) 2 1 (mkVector2 0.5 0.5) 0.25
              H H')))))).
Defined.

(** ** The atmosphere fragment program *)

Lemma dot3_le_1 (n v : Vector3) :
  dot3 n n <= 1 -> dot3 v v <= 1 -> dot3 n v <= 1.
Proof.
  unfold dot3. intros Hn Hv.
  pose proof (Rle_0_sqr (vx n - vx v)) as Hx.
  pose proof (Rle_0_sqr (vy n - vy v)) as Hy.
  pose proof (Rle_0_sqr (vz n - vz v)) as Hz.
  unfold Rsqr in *. lra.
Qed.

Lemma pow4_mono (a b : R) : 0 <= a -> a <= b -> a ^ 4 <= b ^ 4.
Proof. intros Ha Hab. apply pow_incr. lra. Qed.

(** The atmosphere fragment always carries the atmosphere colour
    unchanged, with an alpha in [0, 1] that depends on the angle between
    normal and view direction only: for normal and view direction of
    length at most one it is 0 where the surface faces the viewer
    (dot product 1), 1 at grazing angles and beyond (dot product at
    most 0), and never increases as the surface turns toward the
    viewer. *)
Theorem atmosphere_rim :
  forall (uAtmosphereColor n v n' v' : Vector3),
    dot3 n n <= 1 -> dot3 v v <= 1 ->
    dot3 n' n' <= 1 -> dot3 v' v' <= 1 ->
    fst (atmosphere_fragment uAtmosphereColor n v) = uAtmosphereColor
    /\ 0 <= snd (atmosphere_fragment uAtmosphereColor n v) <= 1
    /\ (dot3 n v = 1 -> atmosphere_alpha n v = 0)
    /\ (dot3 n v <= 0 -> atmosphere_alpha n v = 1)
    /\ (dot3 n v <= dot3 n' v' -> atmosphere_alpha n' v' <= atmosphere_alpha n v).
Proof.
  intros col n v n' v' Hn Hv Hn' Hv'.
  pose proof (dot3_le_1 n v Hn Hv) as Hd.
  pose proof (dot3_le_1 n' v' Hn' Hv') as Hd'.
  unfold atmosphere_fragment, atmosphere_alpha. cbn [fst snd]. cbv zeta.
  split; [reflexivity |]. split; [apply smoothstep_bounds |].
  split; [| split].
  - intros E. rewrite E. apply smoothstep_low.
    replace (1 - 1) with 0 by ring. simpl. lra.
  - intros H. apply smoothstep_high.
    replace 1 with (1 ^ 4) at 1 by (simpl; lra).
    apply pow4_mono; lra.
  - intros H. apply smoothstep_mono. apply pow4_mono; lra.
Qed.

Lemma atmosphere_rim_witness :
  (dot3 (mkVector3 0 0 1) (mkVector3 0 0 1) <= 1
   /\ dot3 (mkVector3 1 0 0) (mkVector3 1 0 0) <= 1)
  /\ atmosphere_alpha (mkVector3 0 0 1) (mkVector3 0 0 1) = 0
  /\ atmosphere_alpha (mkVector3 0 0 1) (mkVector3 1 0 0) = 1.
Proof.
  assert (H1 : dot3 (mkVector3 0 0 1) (mkVector3 0 0 1) <= 1)
    by (unfold dot3; simpl; lra).
  assert (H2 : dot3 (mkVector3 1 0 0) (mkVector3 1 0 0) <= 1)
    by (unfold dot3; simpl; lra).
  split; [split; assumption |].
  split.
  - refine (proj1 (proj2 (proj2 (atmosphere_rim (mkVector3 0 0 0)
              (mkVector3 0 0 1) (mkVector3 0 0 1)
              (mkVector3 0 0 1) (mkVector3 0 0 1) H1 H1 H1 H1))) _).
    unfold dot3; simpl; lra.
  - refine (proj1 (proj2 (proj2 (proj2 (atmosphere_rim (mkVector3 0 0 0)
              (mkVector3 0 0 1) (mkVector3 1 0 0)
              (mkVector3 0 0 1) (mkVector3 1 0 0) H1 H2 H1 H2)))) _).
    unfold dot3; simpl; lra.
Defined.

(** ** The single-planet scene *)

Lemma sp_planets_in_app (l1 l2 : list SinglePlanet.SceneObject) :
  SinglePlanet.planets_in (l1 ++ l2)
  = SinglePlanet.planets_in l1 ++ SinglePlanet.planets_in l2.
Proof.
  induction l1 as [| o l1 IH]; simpl; [reflexivity |].
  destruct o; simpl; now rewrite IH.
Qed.

Lemma sp_remove_absent (n : nat) (l : list SinglePlanet.SceneObject) :
  ~ In n (SinglePlanet.planets_in l) ->
  SinglePlanet.scene_remove (SinglePlanet.Planet n) l = l.
Proof.
  induction l as [| o l IH]; simpl; [reflexivity |].
  intros H.
  destruct (SinglePlanet.SceneObject_eq_dec (SinglePlanet.Planet n) o) as [<- | Hne].
  - exfalso. apply H. simpl. now left.
  - rewrite IH; [reflexivity |]. intros Hin. apply H.
    destruct o; simpl; auto.
Qed.

Lemma sp_remove_only (n : nat) (l : list SinglePlanet.SceneObject) :
  SinglePlanet.planets_in l = [n] ->
  SinglePlanet.planets_in (SinglePlanet.scene_remove (SinglePlanet.Planet n) l) = [].
Proof.
  induction l as [| o l IH]; simpl; [discriminate |].
  destruct (SinglePlanet.SceneObject_eq_dec (SinglePlanet.Planet n) o) as [<- | Hne].
  - simpl. now intros [= ->].
  - destruct o; simpl; try exact IH.
    intros [= -> H]. congruence.
Qed.

Lemma sp_removePlanet_wf (st : SinglePlanet.State) :
  SinglePlanet.wf st ->
  SinglePlanet.wf (SinglePlanet.removePlanet st)
  /\ SinglePlanet.planet (SinglePlanet.removePlanet st) = None
  /\ SinglePlanet.planets_in (SinglePlanet.scene (SinglePlanet.removePlanet st)) = []
  /\ SinglePlanet.created (SinglePlanet.removePlanet st) = SinglePlanet.created st.
Proof.
  intros [Hs Hc]. unfold SinglePlanet.removePlanet.
  destruct (SinglePlanet.planet st) as [[n g] |] eqn:Hp.
  - cbn [SinglePlanet.planet SinglePlanet.scene SinglePlanet.created].
    assert (Hr : SinglePlanet.planets_in
                   (SinglePlanet.scene_remove (SinglePlanet.Planet n)
                                              (SinglePlanet.scene st)) = []).
    { destruct Hs as [Hs | (n' & g' & [= <- <-] & Hs)].
      - rewrite sp_remove_absent; [exact Hs |]. rewrite Hs. tauto.
      - now apply sp_remove_only. }
    split; [split; cbn [SinglePlanet.scene SinglePlanet.created];
            [now left | rewrite Hr; now intros k []] |].
    split; [reflexivity |]. split; [exact Hr | reflexivity].
  - assert (Hs' : SinglePlanet.planets_in (SinglePlanet.scene st) = []).
    { destruct Hs as [Hs | (n' & g' & Habs & _)]; [exact Hs | discriminate]. }
    split; [split; [now left | exact Hc] |].
    split; [exact Hp |]. split; [exact Hs' | reflexivity].
Qed.

Lemma sp_createPlanet_returns (parses_color : string -> bool)
      (d : Visualization) (st : SinglePlanet.State) :
  SinglePlanet.wf st ->
  parses_color (color1 d) = true ->
  parses_color (color2 d) = true ->
  exists st1 g,
    SinglePlanet.createPlanet parses_color d st = SinglePlanet.Returned st1
    /\ SinglePlanet.wf st1
    /\ SinglePlanet.planets_in (SinglePlanet.scene st1) = [SinglePlanet.created st]
    /\ SinglePlanet.planet st1 = Some (SinglePlanet.created st, g)
    /\ SinglePlanet.position g = mkVector3 10 0 0
    /\ List.length (SinglePlanet.parts g) = (if hasRings d then 3 else 2)%nat.
Proof.
  intros Hwf H1 H2.
  destruct (sp_removePlanet_wf st Hwf) as (Hwf1 & Hp1 & Hs1 & Hc1).
  unfold SinglePlanet.createPlanet. rewrite H1, H2. cbn [andb].
  set (st0 := SinglePlanet.removePlanet st) in *.
  assert (Hscene : SinglePlanet.planets_in
                     (SinglePlanet.scene_remove
                        (SinglePlanet.Planet (SinglePlanet.created st0))
                        (SinglePlanet.scene st0)
                      ++ [SinglePlanet.Planet (SinglePlanet.created st0)])
                   = [SinglePlanet.created st0]).
  { rewrite sp_remove_absent by (rewrite Hs1; tauto).
    rewrite sp_planets_in_app, Hs1. reflexivity. }
  eexists. eexists. split; [reflexivity |].
  split; [split |]; cbn [SinglePlanet.scene SinglePlanet.planet SinglePlanet.created].
  - right. eexists. eexists. split; [reflexivity | exact Hscene].
  - rewrite Hscene. intros k [<- | []]. lia.
  - rewrite Hscene, Hc1. split; [reflexivity |].
    split; [reflexivity |]. split; [reflexivity |].
    cbn [SinglePlanet.parts]. destruct (hasRings d); reflexivity.
Qed.

Lemma sp_createPlanet_throws (parses_color : string -> bool)
      (d : Visualization) (st : SinglePlanet.State) :
  SinglePlanet.wf st ->
  parses_color (color1 d) && parses_color (color2 d) = false ->
  exists st1,
    SinglePlanet.createPlanet parses_color d st = SinglePlanet.Thrown st1
    /\ SinglePlanet.wf st1
    /\ SinglePlanet.planets_in (SinglePlanet.scene st1) = []
    /\ SinglePlanet.planet st1
       = Some (SinglePlanet.created st,
               SinglePlanet.mkPlanetGroup 0 (mkVector3 0 0 0) []).
Proof.
  intros Hwf H.
  destruct (sp_removePlanet_wf st Hwf) as (Hwf1 & Hp1 & Hs1 & Hc1).
  unfold SinglePlanet.createPlanet. rewrite H.
  eexists. split; [reflexivity |].
  split; [split |]; cbn [SinglePlanet.scene SinglePlanet.planet SinglePlanet.created].
  - now left.
  - rewrite Hs1. now intros k [].
  - split; [exact Hs1 | now rewrite Hc1].
Qed.

Lemma sp_createPlanet_wf (parses_color : string -> bool)
      (d : Visualization) (st : SinglePlanet.State) :
  SinglePlanet.wf st ->
  SinglePlanet.wf (SinglePlanet.state_of (SinglePlanet.createPlanet parses_color d st)).
Proof.
  intros Hwf.
  destruct (parses_color (color1 d) && parses_color (color2 d)) eqn:E.
  - apply andb_true_iff in E as [E1 E2].
    destruct (sp_createPlanet_returns parses_color d st Hwf E1 E2)
      as (st1 & g & -> & H & _). exact H.
  - destruct (sp_createPlanet_throws parses_color d st Hwf E)
      as (st1 & -> & H & _). exact H.
Qed.

Lemma sp_step_wf (parses_color : string -> bool) (e : SinglePlanet.Event)
      (st : SinglePlanet.State) :
  SinglePlanet.wf st -> SinglePlanet.wf (SinglePlanet.step parses_color e st).
Proof.
  intros Hwf. destruct e as [[d |] | b | delta elapsed]; simpl.
  - unfold SinglePlanet.willUpdate_planetData. cbn [SinglePlanet.planetData].
    apply sp_createPlanet_wf. exact Hwf.
  - unfold SinglePlanet.willUpdate_planetData.
    cbn [SinglePlanet.planetData SinglePlanet.state_of].
    apply sp_removePlanet_wf. exact Hwf.
  - exact Hwf.
  - destruct Hwf as [Hs Hc]. split; cbn; [| exact Hc].
    destruct Hs as [Hs | (n & g & Hp & Hs)]; [now left |].
    right. rewrite Hp. eexists. eexists. split; [reflexivity | exact Hs].
Qed.

Lemma sp_run_wf (parses_color : string -> bool) (evs : list SinglePlanet.Event)
      (st : SinglePlanet.State) :
  SinglePlanet.wf st -> SinglePlanet.wf (SinglePlanet.run parses_color evs st).
Proof.
  revert st. induction evs as [| e evs IH]; intros st Hwf; [exact Hwf |].
  simpl. apply IH. now apply sp_step_wf.
Qed.

Lemma sp_init_wf : SinglePlanet.wf SinglePlanet.init_state.
Proof. split; simpl; [now left | tauto]. Qed.

(** In the single-planet scene, whatever the properties and frames so
    far and whichever colour strings the browser parses: the scene never
    holds more than one planet group, and a planet group in the scene is
    [this.planet]. Giving a [planetData] whose two gradient colours
    parse replaces the planet by a freshly built one at [(10, 0, 0)]
    with two meshes, or three with rings. Giving one with a gradient
    colour that does not parse throws: the planet shown before is gone,
    the scene holds no planet, and [this.planet] is an empty group that
    is not in the scene. Clearing [planetData] leaves no planet, and
    removing twice is the same as removing once. *)
Theorem single_planet_at_most_one :
  forall (parses_color : string -> bool)
         (evs : list SinglePlanet.Event) (d : Visualization),
    let st := SinglePlanet.run parses_color evs SinglePlanet.init_state in
    (List.length (SinglePlanet.planets_in (SinglePlanet.scene st)) <= 1)%nat
    /\ (forall n, In n (SinglePlanet.planets_in (SinglePlanet.scene st)) ->
          exists g, SinglePlanet.planet st = Some (n, g))
    /\ (parses_color (color1 d) = true -> parses_color (color2 d) = true ->
        exists st1 g,
          SinglePlanet.willUpdate_planetData parses_color (Some d) st
          = SinglePlanet.Returned st1
          /\ SinglePlanet.planets_in (SinglePlanet.scene st1)
             = [SinglePlanet.created st]
          /\ SinglePlanet.planet st1 = Some (SinglePlanet.created st, g)
          /\ SinglePlanet.position g = mkVector3 10 0 0
          /\ List.length (SinglePlanet.parts g)
             = (if hasRings d then 3 else 2)%nat)
    /\ (parses_color (color1 d) = false \/ parses_color (color2 d) = false ->
        exists st1,
          SinglePlanet.willUpdate_planetData parses_color (Some d) st
          = SinglePlanet.Thrown st1
          /\ SinglePlanet.planets_in (SinglePlanet.scene st1) = []
          /\ SinglePlanet.planet st1
             = Some (SinglePlanet.created st,
                     SinglePlanet.mkPlanetGroup 0 (mkVector3 0 0 0) []))
    /\ (exists st0,
          SinglePlanet.willUpdate_planetData parses_color None st
          = SinglePlanet.Returned st0
          /\ SinglePlanet.planets_in (SinglePlanet.scene st0) = []
          /\ SinglePlanet.planet st0 = None)
    /\ SinglePlanet.removePlanet (SinglePlanet.removePlanet st)
       = SinglePlanet.removePlanet st.
Proof.
  intros parses_color evs d st.
  assert (Hwf : SinglePlanet.wf st) by (apply sp_run_wf, sp_init_wf).
  pose proof Hwf as [Hs Hc].
  split; [| split; [| split; [| split; [| split]]]].
  - destruct Hs as [-> | (n & g & _ & ->)]; simpl; lia.
  - intros n Hin. destruct Hs as [Hs | (n' & g & Hp & Hs)].
    + rewrite Hs in Hin. destruct Hin.
    + rewrite Hs in Hin. destruct Hin as [<- | []]. now exists g.
  - intros H1 H2.
    unfold SinglePlanet.willUpdate_planetData. cbn [SinglePlanet.planetData].
    set (st2 := SinglePlanet.mkState _ _ _ _ _ _ _ _).
    assert (Hwf2 : SinglePlanet.wf st2) by exact Hwf.
    destruct (sp_createPlanet_returns parses_color d st2 Hwf2 H1 H2)
      as (st1 & g & E & _ & Hsc & Hp & Hpos & Hlen).
    exists st1, g. repeat split; assumption.
  - intros H.
    assert (E : parses_color (color1 d) && parses_color (color2 d) = false).
    { apply andb_false_iff. exact H. }
    unfold SinglePlanet.willUpdate_planetData. cbn [SinglePlanet.planetData].
    set (st2 := SinglePlanet.mkState _ _ _ _ _ _ _ _).
    assert (Hwf2 : SinglePlanet.wf st2) by exact Hwf.
    destruct (sp_createPlanet_throws parses_color d st2 Hwf2 E)
      as (st1 & E1 & _ & Hsc & Hp).
    exists st1. repeat split; assumption.
  - unfold SinglePlanet.willUpdate_planetData. cbn [SinglePlanet.planetData].
    set (st2 := SinglePlanet.mkState _ _ _ _ _ _ _ _).
    assert (Hwf2 : SinglePlanet.wf st2) by exact Hwf.
    destruct (sp_removePlanet_wf st2 Hwf2) as (_ & H1 & H2 & _).
    eexists. split; [reflexivity |]. split; [exact H2 | exact H1].
  - destruct (sp_removePlanet_wf st Hwf) as (_ & H1 & _).
    unfold SinglePlanet.removePlanet at 1. now rewrite H1.
Qed.

Lemma single_planet_at_most_one_witness :
  let st := SinglePlanet.run SinglePlanet.sample_parser SinglePlanet.sample_events
                             SinglePlanet.init_state in
  SinglePlanet.planets_in (SinglePlanet.scene st) = [0%nat]
  /\ exists st1,
       SinglePlanet.willUpdate_planetData SinglePlanet.sample_parser
         (Some SinglePlanet.colourless) st
       = SinglePlanet.Thrown st1
       /\ SinglePlanet.planets_in (SinglePlanet.scene st1) = []
       /\ SinglePlanet.planet st1
          = Some (1%nat, SinglePlanet.mkPlanetGroup 0 (mkVector3 0 0 0) []).
Proof.
  intros st. split; [reflexivity |].
  destruct (single_planet_at_most_one SinglePlanet.sample_parser
              SinglePlanet.sample_events SinglePlanet.colourless)
    as (_ & _ & _ & H & _).
  exact (H (or_introl eq_refl)).
Defined.

(** A frame of the single-planet scene scales the star uniformly by
    [1 + sin (5 t) * 0.1], a factor from 0.9 to 1.1, while scanning and
    sets the scale back to 1 otherwise; it puts the group [this.planet],
    if there is one, at [(cos (0.2 t) * 10, 0, sin (0.2 t) * 10)], in
    the plane [y = 0] with [x] and [z] no farther than 10 from the star,
    turns it by [delta * 0.5] and keeps its meshes; it turns the
    starfield by [delta * 0.01] and the star by [delta * 0.1], and it
    leaves the scene graph as it is. *)
Theorem single_planet_frame :
  forall (delta elapsed : R) (st : SinglePlanet.State),
    let st' := fst (SinglePlanet._animate delta elapsed st) in
    (0.9 <= vx (SinglePlanet.star_scale st') <= 1.1
     /\ vy (SinglePlanet.star_scale st') = vx (SinglePlanet.star_scale st')
     /\ vz (SinglePlanet.star_scale st') = vx (SinglePlanet.star_scale st'))
    /\ (SinglePlanet.isScanning st = false ->
        SinglePlanet.star_scale st' = mkVector3 1 1 1)
    /\ (SinglePlanet.isScanning st = true ->
        vx (SinglePlanet.star_scale st') = sin (elapsed * 5) * 0.1 + 1)
    /\ (forall n g,
          SinglePlanet.planet st = Some (n, g) ->
          exists g',
            SinglePlanet.planet st' = Some (n, g')
            /\ SinglePlanet.position g'
               = mkVector3 (cos (elapsed * 0.2) * 10) 0 (sin (elapsed * 0.2) * 10)
            /\ -10 <= vx (SinglePlanet.position g') <= 10
            /\ -10 <= vz (SinglePlanet.position g') <= 10
            /\ SinglePlanet.rotation_y g' = SinglePlanet.rotation_y g + delta * 0.5
            /\ SinglePlanet.parts g' = SinglePlanet.parts g)
    /\ (SinglePlanet.planet st = None -> SinglePlanet.planet st' = None)
    /\ (SinglePlanet.starfield_rotation_y st'
        = SinglePlanet.starfield_rotation_y st + delta * 0.01
        /\ SinglePlanet.star_rotation_y st'
           = SinglePlanet.star_rotation_y st + delta * 0.1)
    /\ SinglePlanet.scene st' = SinglePlanet.scene st.
Proof.
  intros delta elapsed st st'. unfold st', SinglePlanet._animate.
  cbn [fst SinglePlanet.star_scale SinglePlanet.planet SinglePlanet.scene
       SinglePlanet.starfield_rotation_y SinglePlanet.star_rotation_y].
  split; [| split; [| split; [| split; [| split; [| split]]]]].
  - destruct (SinglePlanet.isScanning st); cbn [vx vy vz].
    + pose proof (SIN_bound (elapsed * 5)). repeat split; lra.
    + repeat split; lra.
  - intros ->. reflexivity.
  - intros ->. reflexivity.
  - intros n g ->. eexists. split; [reflexivity |].
    cbn [SinglePlanet.position SinglePlanet.rotation_y SinglePlanet.parts vx vz].
    pose proof (COS_bound (elapsed * 0.2)).
    pose proof (SIN_bound (elapsed * 0.2)).
    split; [reflexivity |].
    split; [lra |]. split; [lra |]. split; reflexivity.
  - intros ->. reflexivity.
  - split; reflexivity.
  - reflexivity.
Qed.

(** ** The JSON object in the model's reply *)

Lemma indexOf_split (c : ascii) (s : string) (i : nat) :
  indexOf c s = Some i ->
  exists pre rest,
    s = (pre ++ String c rest)%string
    /\ String.length pre = i /\ occurs c pre = false.
Proof.
  revert i. induction s as [| a s IH]; intros i; simpl; [discriminate |].
  destruct (Ascii.eqb a c) eqn:Hac.
  - intros [= <-]. apply Ascii.eqb_eq in Hac. subst a.
    exists EmptyString, s. repeat split.
  - destruct (indexOf c s) as [j |]; simpl; [| discriminate].
    intros [= <-]. destruct (IH j eq_refl) as (pre & rest & -> & Hlen & Hfree).
    exists (String a pre), rest. simpl. rewrite Hac, Hfree, Hlen.
    repeat split.
Qed.

Lemma lastIndexOf_split (c : ascii) (s : string) (i : nat) :
  lastIndexOf c s = Some i ->
  exists front post,
    s = (front ++ String c post)%string
    /\ String.length front = i /\ occurs c post = false.
Proof.
  revert i. induction s as [| a s IH]; intros i; simpl; [discriminate |].
  destruct (lastIndexOf c s) as [j |] eqn:Hl.
  - intros [= <-]. destruct (IH j eq_refl) as (front & post & -> & Hlen & Hfree).
    exists (String a front), post. simpl. rewrite Hlen. repeat split. exact Hfree.
  - destruct (Ascii.eqb a c) eqn:Hac; [| discriminate].
    intros [= <-]. apply Ascii.eqb_eq in Hac. subst a.
    exists EmptyString, s. repeat split.
    clear IH. induction s as [| b s IHs]; simpl in *; [reflexivity |].
    destruct (lastIndexOf c s); [discriminate |].
    destruct (Ascii.eqb b c); [discriminate |]. simpl. now apply IHs.
Qed.

Lemma indexOf_app (c : ascii) (pre rest : string) :
  exists i, indexOf c (pre ++ String c rest) = Some i
            /\ (i <= String.length pre)%nat
            /\ (occurs c pre = false -> i = String.length pre).
Proof.
  induction pre as [| a pre (i & Hi & Hle & Heq)]; simpl.
  - rewrite Ascii.eqb_refl. exists 0%nat. repeat split; lia.
  - destruct (Ascii.eqb a c) eqn:Hac.
    + exists 0%nat. repeat split; [lia | discriminate].
    + rewrite Hi. exists (S i). simpl. repeat split; [lia |].
      intros H. now rewrite Heq.
Qed.

Lemma lastIndexOf_absent (c : ascii) (s : string) :
  occurs c s = false -> lastIndexOf c s = None.
Proof.
  induction s as [| a s IH]; simpl; [reflexivity |].
  intros H. apply orb_false_iff in H as [Ha Hs].
  now rewrite (IH Hs), Ha.
Qed.

Lemma lastIndexOf_app (c : ascii) (front post : string) :
  exists i, lastIndexOf c (front ++ String c post) = Some i
            /\ (String.length front <= i)%nat
            /\ (occurs c post = false -> i = String.length front).
Proof.
  induction front as [| a front (i & Hi & Hle & Heq)]; simpl.
  - destruct (lastIndexOf c post) as [j |] eqn:Hj.
    + exists (S j). split; [reflexivity |]. split; [lia |].
      intros H. rewrite (lastIndexOf_absent c post H) in Hj. discriminate.
    + rewrite Ascii.eqb_refl. exists 0%nat. repeat split; lia.
  - rewrite Hi. exists (S i). repeat split; [lia |].
    intros H. now rewrite Heq.
Qed.

Lemma substring_skip (pre t : string) (n : nat) :
  String.substring (String.length pre) n (pre ++ t) = String.substring 0 n t.
Proof. induction pre as [| a pre IH]; simpl; [reflexivity | exact IH]. Qed.

Lemma substring_take (a b : string) :
  String.substring 0 (String.length a) (a ++ b) = a.
Proof.
  induction a as [| x a IH]; simpl.
  - now destruct b.
  - now rewrite IH.
Qed.

Lemma string_length_app (a b : string) :
  String.length (a ++ b) = (String.length a + String.length b)%nat.
Proof. induction a as [| x a IH]; simpl; [reflexivity | now rewrite IH]. Qed.

Lemma string_app_assoc (a b c : string) :
  ((a ++ b) ++ c = a ++ b ++ c)%string.
Proof. induction a as [| x a IH]; simpl; [reflexivity | now rewrite IH]. Qed.

(** Two ways of cutting one string, the first cut strictly before the
    second: the second front is the first front, the first cut
    character and some text between. *)
Lemma string_two_cuts (pre front rest post : string) (x y : ascii) :
  (pre ++ String x rest = front ++ String y post)%string ->
  (String.length pre < String.length front)%nat ->
  exists body, front = (pre ++ String x body)%string
               /\ rest = (body ++ String y post)%string.
Proof.
  revert front. induction pre as [| a pre IH]; intros front; simpl.
  - destruct front as [| b front]; simpl; [lia |].
    intros [= <- ->] _. exists front. split; reflexivity.
  - destruct front as [| b front]; simpl; [lia |].
    intros [= <- H] Hlt. destruct (IH front H) as (body & -> & ->); [lia |].
    exists body. split; reflexivity.
Qed.

Lemma braced_indices (pre body post : string) :
  occurs "{"%char pre = false ->
  occurs "}"%char post = false ->
  indexOf "{"%char (braced pre body post) = Some (String.length pre)
  /\ lastIndexOf "}"%char (braced pre body post)
     = Some (String.length pre + S (String.length body))%nat.
Proof.
  intros Hpre Hpost. unfold braced. cbn [String.append].
  destruct (indexOf_app "{"%char pre (body ++ String "}"%char post))
    as (f & Hf & _ & Hfe).
  destruct (lastIndexOf_app "}"%char (pre ++ String "{"%char body) post)
    as (l & Hl & _ & Hle).
  rewrite string_app_assoc in Hl. simpl in Hl.
  rewrite Hf, Hl, (Hfe Hpre), (Hle Hpost), string_length_app.
  split; reflexivity.
Qed.

Lemma braced_substring (pre body post : string) :
  js_substring (String.length pre)
               (String.length pre + S (String.length body) + 1)
               (braced pre body post)
  = (String "{"%char body ++ String "}"%char EmptyString)%string.
Proof.
  unfold js_substring, braced. cbn [String.append].
  rewrite Nat.min_l, Nat.max_r by lia.
  replace (String.length pre + S (String.length body) + 1 - String.length pre)%nat
    with (String.length (String "{"%char body ++ String "}"%char EmptyString))
    by (rewrite string_length_app; simpl; lia).
  rewrite substring_skip.
  replace (String "{"%char (body ++ String "}"%char post))
    with ((String "{"%char body ++ String "}"%char EmptyString) ++ post)%string
    by (rewrite string_app_assoc; reflexivity).
  now rewrite substring_take.
Qed.

(** A reply that holds an object's text, with no opening brace before
    it and no closing brace after it, gives back exactly that text,
    braces included: whatever surrounds it is dropped, and braces
    nested inside it do not cut it short. *)
Theorem extract_json_round_trip :
  forall pre body post : string,
    occurs "{"%char pre = false ->
    occurs "}"%char post = false ->
    extract_json (braced pre body post)
    = Some (String "{"%char body ++ String "}"%char EmptyString)%string.
Proof.
  intros pre body post Hpre Hpost. unfold extract_json.
  destruct (braced_indices pre body post Hpre Hpost) as [-> ->].
  destruct (Nat.leb_spec (String.length pre + S (String.length body))
                         (String.length pre)) as [H | _]; [lia |].
  now rewrite braced_substring.
Qed.

Lemma extract_json_round_trip_witness :
  extract_json reply_sample = Some "{a: {b: 1}}"%string.
Proof.
  exact (extract_json_round_trip "Here is the planet: " "a: {b: 1}" " Enjoy!"
           eq_refl eq_refl).
Defined.

(** What the extraction hands to [JSON.parse] always starts at the
    first opening brace of the reply and ends at its last closing
    brace: the reply is that text between a prefix without opening
    brace and a suffix without closing brace. *)
Theorem extract_json_outermost :
  forall s j : string,
    extract_json s = Some j ->
    exists pre body post,
      s = braced pre body post
      /\ j = (String "{"%char body ++ String "}"%char EmptyString)%string
      /\ occurs "{"%char pre = false
      /\ occurs "}"%char post = false.
Proof.
  intros s j. unfold extract_json.
  destruct (indexOf "{"%char s) as [f |] eqn:Hf; [| discriminate].
  destruct (lastIndexOf "}"%char s) as [l |] eqn:Hl; [| discriminate].
  destruct (Nat.leb_spec l f) as [_ | Hlt]; [discriminate |].
  intros Hj.
  destruct (indexOf_split _ _ _ Hf) as (pre & rest & Hs1 & Hlen1 & Hfree1).
  destruct (lastIndexOf_split _ _ _ Hl) as (front & post & Hs2 & Hlen2 & Hfree2).
  assert (Hcut : (pre ++ String "{"%char rest = front ++ String "}"%char post)%string)
    by congruence.
  destruct (string_two_cuts _ _ _ _ _ _ Hcut) as (body & Hfront & Hrest); [lia |].
  exists pre, body, post.
  assert (Hs : s = braced pre body post).
  { unfold braced. rewrite Hs1, Hrest. reflexivity. }
  split; [exact Hs |]. split; [| split; assumption].
  destruct (braced_indices pre body post Hfree1 Hfree2) as [Hf' Hl'].
  rewrite <- Hs, Hf in Hf'. rewrite <- Hs, Hl in Hl'.
  injection Hf' as Hf'. injection Hl' as Hl'.
  injection Hj as <-. rewrite Hf', Hl', Hs at 1.
  apply braced_substring.
Qed.

Lemma extract_json_outermost_witness :
  exists pre body post,
    reply_sample = braced pre body post
    /\ "{a: {b: 1}}"%string
       = (String "{"%char body ++ String "}"%char EmptyString)%string
    /\ occurs "{"%char pre = false
    /\ occurs "}"%char post = false.
Proof. exact (extract_json_outermost reply_sample "{a: {b: 1}}" eq_refl). Defined.

(** The extraction throws exactly when the reply holds no opening brace
    with a closing brace somewhere after it. *)
Theorem extract_json_fails_iff :
  forall s : string,
    extract_json s = None
    <-> ~ exists pre body post, s = braced pre body post.
Proof.
  intros s. split.
  - intros Hnone (pre & body & post & Hs). subst s.
    unfold extract_json, braced in Hnone. cbn [String.append] in Hnone.
    destruct (indexOf_app "{"%char pre (body ++ String "}"%char post))
      as (f & Hf & Hfle & _).
    destruct (lastIndexOf_app "}"%char (pre ++ String "{"%char body) post)
      as (l & Hl & Hlge & _).
    rewrite string_app_assoc in Hl. simpl in Hl.
    rewrite string_length_app in Hlge. simpl in Hlge.
    rewrite Hf, Hl in Hnone.
    destruct (Nat.leb_spec l f) as [Hle | _]; [lia | discriminate].
  - intros Hno. destruct (extract_json s) as [j |] eqn:Hj; [| reflexivity].
    exfalso. apply Hno.
    unfold extract_json in Hj.
    destruct (indexOf "{"%char s) as [f |] eqn:Hf; [| discriminate].
    destruct (lastIndexOf "}"%char s) as [l |] eqn:Hl; [| discriminate].
    destruct (Nat.leb_spec l f) as [_ | Hlt]; [discriminate |].
    destruct (indexOf_split _ _ _ Hf) as (pre & rest & Hs1 & Hlen1 & _).
    destruct (lastIndexOf_split _ _ _ Hl) as (front & post & Hs2 & Hlen2 & _).
    assert (Hcut : (pre ++ String "{"%char rest = front ++ String "}"%char post)%string)
      by congruence.
    destruct (string_two_cuts _ _ _ _ _ _ Hcut) as (body & _ & Hrest); [lia |].
    exists pre, body, post. unfold braced. rewrite Hs1, Hrest. reflexivity.
Qed.
